(** * svg-gradient-crewai: the parser, the patcher and the validator of [main.py]

    A shallow embedding of the three deterministic stages of [src/main.py]:
    [GradientParserAgent.parse_instruction] (the standard parser, lines
    110-192), [SVGModifierAgent.apply_gradients] (lines 209-276) and
    [IntegrityCheckerAgent.validate_svg] (lines 293-319), together with
    [get_hex_color] and [COLOR_MAP].

    Python strings are modelled as lists of 8-bit characters, one character
    per code point below 256 (Latin-1).  The predicates [is_space],
    [is_word] and [lower_char] follow what [str.isspace], the [\w] class of
    [re] on [str] patterns and [str.lower] do on those code points.

    The calls into [re] are modelled by a small backtracking matcher over a
    regular-expression syntax that covers the constructs the patterns of
    [main.py] use; every pattern of the source is transcribed into that
    syntax next to the function that uses it. *)

From Stdlib Require Import Ascii ZArith DecimalString DecimalNat DecimalFacts.
From stdpp Require Import gmap strings list relations.

Local Open Scope Z_scope.
Local Open Scope list_scope.

(** ** Characters and strings *)

Abbreviation str := (list ascii).

(** String literals stand for their list of characters. *)
Coercion String.list_ascii_of_string : string >-> list.

Definition code (c : ascii) : N := N_of_ascii c.

(** The double quote and the backslash. *)
Definition dq : ascii := "034".
Definition bslash : ascii := "092".

Definition in_range (lo hi : N) (c : ascii) : bool :=
  ((lo <=? code c) && (code c <=? hi))%N.

Definition is_char (a c : ascii) : bool := Ascii.eqb a c.

(** [str.isspace] / [\s]: TAB..CR, FS..US, space, NEL and NBSP. *)
Definition is_space (c : ascii) : bool :=
  in_range 9 13 c || in_range 28 32 c || (code c =? 133)%N || (code c =? 160)%N.

Definition is_digit (c : ascii) : bool := in_range 48 57 c.

Definition is_hex (c : ascii) : bool :=
  is_digit c || in_range 97 102 c || in_range 65 70 c.

(** [\w] on a [str] pattern: alphanumerics and the underscore. *)
Definition is_word (c : ascii) : bool :=
  is_digit c || in_range 65 90 c || in_range 97 122 c || (code c =? 95)%N
  || (code c =? 170)%N || in_range 178 179 c || (code c =? 181)%N
  || in_range 185 186 c || in_range 188 190 c
  || in_range 192 214 c || in_range 216 246 c || in_range 248 255 c.

(** [str.lower] on one character. *)
Definition lower_char (c : ascii) : ascii :=
  if in_range 65 90 c || in_range 192 214 c || in_range 216 222 c
  then ascii_of_N (code c + 32) else c.

Definition lower (s : str) : str := map lower_char s.

(** [s.startswith(p)] *)
Fixpoint startswith (p s : str) : bool :=
  match p, s with
  | [], _ => true
  | a :: p', c :: s' => Ascii.eqb a c && startswith p' s'
  | _ :: _, [] => false
  end.

(** [sub in s] *)
Fixpoint contains (sub s : str) : bool :=
  startswith sub s ||
  match s with
  | [] => false
  | _ :: s' => contains sub s'
  end.

(** The index of the first occurrence of [sub] in [s], counted from [i]. *)
Fixpoint find_at (sub s : str) (i : Z) : Z :=
  if startswith sub s then i
  else match s with
       | [] => -1
       | _ :: s' => find_at sub s' (i + 1)
       end.

(** [s.find(sub, start)]: a negative [start] counts from the end of [s] and
    is clipped at 0, as for slices; the result is [-1] when [sub] does not
    occur at or after [start]. *)
Definition find_from (sub s : str) (start : Z) : Z :=
  let n := Z.of_nat (length s) in
  let st := if start <? 0 then Z.max 0 (start + n) else start in
  if n <? st then -1
  else find_at sub (drop (Z.to_nat st) s) st.

(** [s.find(sub)] *)
Definition find (sub s : str) : Z := find_from sub s 0.

(** [s.strip()] *)
Fixpoint lstrip (s : str) : str :=
  match s with
  | c :: s' => if is_space c then lstrip s' else s
  | [] => []
  end.

Definition rstrip (s : str) : str := reverse (lstrip (reverse s)).

Definition strip (s : str) : str := rstrip (lstrip s).

(** [str(n)] for an [int]. *)
Definition str_of_Z (n : Z) : str := NilZero.string_of_int (Z.to_int n).
Definition str_of_nat (n : nat) : str := NilZero.string_of_uint (Nat.to_uint n).

(** ** The color table (lines 33-46) *)

Definition COLOR_MAP : gmap str str :=
  list_to_map
    [ ("red" : str, "#ff0000" : str); ("green" : str, "#00ff00" : str);
      ("blue" : str, "#0000ff" : str); ("white" : str, "#ffffff" : str);
      ("black" : str, "#000000" : str); ("yellow" : str, "#ffff00" : str);
      ("purple" : str, "#800080" : str); ("orange" : str, "#ffa500" : str);
      ("gray" : str, "#808080" : str); ("grey" : str, "#808080" : str);
      ("cyan" : str, "#00ffff" : str); ("magenta" : str, "#ff00ff" : str);
      ("lime" : str, "#00ff00" : str); ("maroon" : str, "#800000" : str);
      ("navy" : str, "#000080" : str); ("olive" : str, "#808000" : str);
      ("teal" : str, "#008080" : str); ("silver" : str, "#c0c0c0" : str);
      ("gold" : str, "#ffd700" : str); ("pink" : str, "#ffc0cb" : str);
      ("brown" : str, "#a52a2a" : str) ].

(** [COLOR_MAP.get(color_str.lower(), color_str)] *)
Definition get_hex_color (color_str : str) : str :=
  let color_lower := lower color_str in
  default color_str (COLOR_MAP !! color_lower).

(** ** Regular expressions

    The syntax holds what the patterns of [main.py] are built from.  Every
    repetition in those patterns ranges over a single character class, so
    [Rep] repeats a class: [lo] mandatory characters, then at most [extra]
    more ([None]: unbounded), taken greedily or lazily.  [Grp] is the one
    capturing group a pattern has (no pattern of the source has two). *)

Inductive regex :=
| Eps
| Chr (a : ascii)
| Cls (p : ascii -> bool)
| Seq (r1 r2 : regex)
| Alt (r1 r2 : regex)
| Rep (greedy : bool) (p : ascii -> bool) (lo : nat) (extra : option nat)
| Grp (r : regex)
| WordB
| Bol.

(** A literal piece of pattern text. *)
Fixpoint lit (w : str) : regex :=
  match w with
  | [] => Eps
  | a :: w' => Seq (Chr a) (lit w')
  end.

(** [(?:r1|r2|...)] *)
Fixpoint alts (rs : list regex) : regex :=
  match rs with
  | [] => Eps
  | [r] => r
  | r :: rs' => Alt r (alts rs')
  end.

Definition Star (p : ascii -> bool) : regex := Rep true p 0 None.
Definition Plus (p : ascii -> bool) : regex := Rep true p 1 None.
Definition Opt (r : regex) : regex := Alt r Eps.

Fixpoint has_group (r : regex) : bool :=
  match r with
  | Grp _ => true
  | Seq r1 r2 | Alt r1 r2 => has_group r1 || has_group r2
  | _ => false
  end.

(** The state of a match attempt: the character before the current
    position ([None] at the start of the subject), the text from the
    current position on, and the text captured by the group so far. *)
Record mstate := MState { prev : option ascii; rest : str; grp : option str }.

(** A literal character under [re.I] matches both of its cases.  (The
    character classes of the source are unchanged by [re.I]: they are
    [\s], [\w], negated punctuation, and [[0-9a-fA-F]], which lists both
    cases itself.)  Among the code points below 256 only the two cases of
    a letter fold together; beyond them [re.I] also lets [s], [i] and [k]
    match U+017F, U+0130, U+0131 and U+212A, which the strings of this
    development do not hold. *)
Definition chr_eq (icase : bool) (a c : ascii) : bool :=
  if icase then Ascii.eqb (lower_char a) (lower_char c) else Ascii.eqb a c.

Definition word_opt (o : option ascii) : bool :=
  match o with Some c => is_word c | None => false end.

Definition or_else {A} (x y : option A) : option A :=
  match x with Some _ => x | None => y end.

(** The backtracking matcher, in continuation-passing style: [run r st k]
    tries the ways [r] can match at [st] in the order [re] tries them (left
    alternative first, longest repetition first when greedy, shortest
    first when lazy) and returns the first result that [k] accepts. *)
Section Matcher.
Context {A : Type} (icase : bool).

Fixpoint rep_exact (p : ascii -> bool) (n : nat) (pv : option ascii)
    (s : str) (k : option ascii -> str -> option A) : option A :=
  match n with
  | O => k pv s
  | S n' =>
      match s with
      | c :: s' => if p c then rep_exact p n' (Some c) s' k else None
      | [] => None
      end
  end.

Fixpoint rep_more (greedy : bool) (p : ascii -> bool) (extra : option nat)
    (pv : option ascii) (s : str) (k : option ascii -> str -> option A)
    {struct s} : option A :=
  match extra with
  | Some O => k pv s
  | _ =>
      match s with
      | c :: s' =>
          if p c then
            if greedy
            then or_else (rep_more greedy p (Nat.pred <$> extra) (Some c) s' k) (k pv s)
            else or_else (k pv s) (rep_more greedy p (Nat.pred <$> extra) (Some c) s' k)
          else k pv s
      | [] => k pv s
      end
  end.

Fixpoint run (r : regex) (st : mstate) (k : mstate -> option A) : option A :=
  match r with
  | Eps => k st
  | Chr a =>
      match rest st with
      | c :: s' => if chr_eq icase a c then k (MState (Some c) s' (grp st)) else None
      | [] => None
      end
  | Cls p =>
      match rest st with
      | c :: s' => if p c then k (MState (Some c) s' (grp st)) else None
      | [] => None
      end
  | Seq r1 r2 => run r1 st (fun st' => run r2 st' k)
  | Alt r1 r2 => or_else (run r1 st k) (run r2 st k)
  | Rep greedy p lo extra =>
      rep_exact p lo (prev st) (rest st) (fun pv s =>
        rep_more greedy p extra pv s (fun pv' s' => k (MState pv' s' (grp st))))
  | Grp r1 =>
      run r1 st (fun st' =>
        k (MState (prev st') (rest st')
             (Some (take (length (rest st) - length (rest st')) (rest st)))))
  | WordB =>
      if xorb (word_opt (prev st)) (word_opt (head (rest st))) then k st else None
  | Bol =>
      match prev st with None => k st | Some _ => None end
  end.
End Matcher.

(** A successful match: the matched text and the text of the group. *)
Record hit := Hit { h_text : str; h_grp : option str }.

(** One match attempt at the current position; [pv] is the character
    before it. *)
Definition match_at (icase : bool) (r : regex) (pv : option ascii) (s : str)
    : option hit :=
  run icase r (MState pv s None)
    (fun st => Some (Hit (take (length s - length (rest st)) s) (grp st))).

(** [re.match(r, s)] *)
Definition re_match (icase : bool) (r : regex) (s : str) : option hit :=
  match_at icase r None s.

(** [re.search(r, s)]: the leftmost position with a match; the result
    carries the text before the match. *)
Fixpoint search_from (icase : bool) (r : regex) (pv : option ascii) (s : str)
    : option (str * hit) :=
  match match_at icase r pv s with
  | Some h => Some ([], h)
  | None =>
      match s with
      | c :: s' => prod_map (cons c) id <$> search_from icase r (Some c) s'
      | [] => None
      end
  end.

Definition re_search (icase : bool) (r : regex) (s : str) : option hit :=
  snd <$> search_from icase r None s.

(** The scan behind [re.findall], [re.sub] and [re.split]: the subject cut
    into the leftmost non-overlapping matches and the characters between
    them.  [skip] counts the characters of the current match still to be
    passed.  No pattern of [main.py] can match the empty string (each has a
    mandatory literal character), so the rule [re] has for resuming after an
    empty match is never exercised; an empty match is recorded here and the
    scan moves on by one character. *)
Inductive token := TChr (c : ascii) | THit (h : hit).

Fixpoint scan (icase : bool) (r : regex) (pv : option ascii) (s : str)
    (skip : nat) : list token :=
  match skip with
  | S n =>
      match s with
      | c :: s' => scan icase r (Some c) s' n
      | [] => []
      end
  | O =>
      match match_at icase r pv s with
      | Some h =>
          THit h ::
          match s with
          | c :: s' =>
              match length (h_text h) with
              | O => TChr c :: scan icase r (Some c) s' 0
              | S n => scan icase r (Some c) s' n
              end
          | [] => []
          end
      | None =>
          match s with
          | c :: s' => TChr c :: scan icase r (Some c) s' 0
          | [] => []
          end
      end
  end.

Definition tokens (icase : bool) (r : regex) (s : str) : list token :=
  scan icase r None s 0.

(** [re.findall(r, s)] for a pattern with one group: the group of each
    match (the empty string when the group took no part). *)
Definition re_findall (icase : bool) (r : regex) (s : str) : list str :=
  omap (fun t => match t with
                 | THit h => Some (default [] (h_grp h))
                 | TChr _ => None
                 end) (tokens icase r s).

(** [re.split(r, s)] for a pattern without groups: the pieces between the
    matches, the empty ones included. *)
Fixpoint split_tokens (ts : list token) (cur : str) : list str :=
  match ts with
  | [] => [reverse cur]
  | TChr c :: ts' => split_tokens ts' (c :: cur)
  | THit _ :: ts' => reverse cur :: split_tokens ts' []
  end.

Definition re_split (icase : bool) (r : regex) (s : str) : list str :=
  split_tokens (tokens icase r s) [].

(** Replacement templates.  [re.sub] reads a backslash in the replacement
    as the start of an escape.  The only escape [main.py] writes is the
    group reference [\1]; a replacement with any other backslash (which can
    only come from a stop color of the Specification) is either rejected by
    [re] or rewritten through its escape table, and [parse_template] gives
    [None] for it: this development does not follow that table.  A [\1]
    for a pattern without a group is rejected by [re] as well. *)
Inductive titem := TLit (c : ascii) | TGroup1.

Fixpoint parse_template (has_grp : bool) (t : str) : option (list titem) :=
  match t with
  | [] => Some []
  | c :: t' =>
      if is_char bslash c then
        match t' with
        | d :: t'' =>
            if is_char "1" d && has_grp
               && negb (match t'' with e :: _ => is_digit e | [] => false end)
            then cons TGroup1 <$> parse_template has_grp t''
            else None
        | [] => None
        end
      else cons (TLit c) <$> parse_template has_grp t'
  end.

Definition expand (tpl : list titem) (h : hit) : str :=
  concat (map (fun i => match i with
                        | TLit c => [c]
                        | TGroup1 => default [] (h_grp h)
                        end) tpl).

(** [re.sub(r, repl, s)]: every match replaced by the expanded template. *)
Definition render (tpl : list titem) (t : token) : str :=
  match t with
  | TChr c => [c]
  | THit h => expand tpl h
  end.

Definition re_sub (icase : bool) (r : regex) (repl s : str) : option str :=
  tpl ← parse_template (has_group r) repl;
  Some (concat (map (render tpl) (tokens icase r s))).

(** [re.sub(r, repl, s, 1)]: only the leftmost match is replaced. *)
Definition re_sub1 (icase : bool) (r : regex) (repl s : str) : option str :=
  tpl ← parse_template (has_group r) repl;
  Some (match search_from icase r None s with
        | Some (before, h) =>
            before ++ expand tpl h ++ drop (length before + length (h_text h)) s
        | None => s
        end).

(** [r1 r2 ... rn] *)
Definition seqs (rs : list regex) : regex := foldr Seq Eps rs.

Definition any_char (c : ascii) : bool := true.
Definition not_char (a c : ascii) : bool := negb (is_char a c).

(** ** The Specification (the dictionaries built at lines 178-190) *)

Record Stop := { offset : Z; color : str }.
Record Gradient := { type : str; direction : str; stops : list Stop }.
Record Target := { selector : str; description : str }.
Record GradientStep := { targets : list Target; gradient : Gradient }.
Record Specification := { steps : list GradientStep }.

(** ** The standard parser (lines 110-192) *)

Module Parser.

(** The class of the three quote characters: backquote, quote, double
    quote. *)
Definition is_quote (c : ascii) : bool :=
  is_char "`" c || is_char "'" c || is_char dq c.

(** [[\w-]] *)
Definition is_word_dash (c : ascii) : bool := is_word c || is_char "-" c.

(** [r'id\s*[`\'Q]?(\w+)[`\'Q]?'], Q the double quote *)
Definition id_pattern : regex :=
  seqs [lit "id"; Star is_space; Opt (Cls is_quote); Grp (Plus is_word);
        Opt (Cls is_quote)].

(** [r'class\s*[`\'Q]?([\w-]+)[`\'Q]?'] *)
Definition class_pattern : regex :=
  seqs [lit "class"; Star is_space; Opt (Cls is_quote);
        Grp (Plus is_word_dash); Opt (Cls is_quote)].

(** [r'\ball circles?\b'] *)
Definition all_circles_pattern : regex :=
  seqs [WordB; lit "all circle"; Opt (Chr "s"); WordB].

(** [r'\ball rectangles?\b'] *)
Definition all_rectangles_pattern : regex :=
  seqs [WordB; lit "all rectangle"; Opt (Chr "s"); WordB].

(** [r'\bcircle\b'] *)
Definition circle_pattern : regex := seqs [WordB; lit "circle"; WordB].

(** [r'\b(?:rect|rectangle)\b'] *)
Definition rect_pattern : regex :=
  seqs [WordB; alts [lit "rect"; lit "rectangle"]; WordB].

Definition found (r : regex) (s : str) : bool :=
  bool_decide (is_Some (re_search true r s)).

(** [identify_target] (lines 116-137); [None] is Python's [None]. *)
Definition identify_target (command_text : str) : option str * str :=
  match re_search true id_pattern command_text with
  | Some id_match =>
      let g := default [] (h_grp id_match) in
      (Some ("#" ++ g), "element with id '" ++ g ++ "'")
  | None =>
      match re_search true class_pattern command_text with
      | Some class_match =>
          let g := default [] (h_grp class_match) in
          (Some ("." ++ g), "element with class '" ++ g ++ "'")
      | None =>
          if found all_circles_pattern command_text
          then (Some ("circle" : str), "all circles" : str)
          else if found all_rectangles_pattern command_text
          then (Some ("rect" : str), "all rectangles" : str)
          else if found circle_pattern command_text
          then (Some ("circle" : str), "circle" : str)
          else if found rect_pattern command_text
          then (Some ("rect" : str), "rectangle" : str)
          else (None, "element" : str)
      end
  end.

(** [r"\s*(?:,|and|then)\s+"] *)
Definition split_pattern : regex :=
  seqs [Star is_space; alts [lit ","; lit "and"; lit "then"]; Plus is_space].

Definition color_names : list str :=
  [ "red" : str; "green" : str; "blue" : str; "white" : str; "black" : str;
    "yellow" : str; "purple" : str; "orange" : str; "gray" : str;
    "grey" : str; "cyan" : str; "magenta" : str; "lime" : str;
    "maroon" : str; "navy" : str; "olive" : str; "teal" : str;
    "silver" : str; "gold" : str; "pink" : str; "brown" : str ].

(** [r'(#(?:[0-9a-fA-F]{3,6})|\b(?:red|green|...|brown)\b)'] *)
Definition color_pattern : regex :=
  Grp (Alt (Seq (Chr "#") (Rep true is_hex 3 (Some 3%nat)))
           (seqs [WordB; alts (map lit color_names); WordB])).

(** The truth value of [target] in [target if target else "rect"]. *)
Definition truthy (target : option str) : bool :=
  match target with
  | Some (_ :: _) => true
  | _ => false
  end.

(** The commands the loop works on: [cmd.strip()] of every piece, the
    empty ones skipped (lines 140-146). *)
Definition commands (instruction : str) : list str :=
  filter (fun cmd => cmd <> []) (map strip (re_split true split_pattern instruction)).

(** The body of the loop for one stripped, non-empty command (lines
    148-188).  [hex_colors[0]] and [hex_colors[1]] are list lookups: an
    index out of range would raise, which is [None] here. *)
Definition parse_command (cmd : str) : option GradientStep :=
  let '(target, target_description) := identify_target cmd in
  let gradient_type : str :=
    if contains "radial" (lower cmd) then "radial" else "linear" in
  let direction : str :=
    if contains "vertical" (lower cmd) then "vertical"
    else if contains "diagonal" (lower cmd) then "diagonal"
    else "horizontal" in
  let color_matches := re_findall true color_pattern cmd in
  let hex_colors := map get_hex_color color_matches in
  let hex_colors : list str :=
    if (length hex_colors <? 2)%nat then ["#ff0000" : str; "#0000ff" : str]
    else hex_colors in
  c0 ← hex_colors !! 0%nat;
  c1 ← hex_colors !! 1%nat;
  Some {| targets :=
            [ {| selector := if truthy target then default [] target else "rect";
                 description := target_description |} ];
          gradient :=
            {| type := gradient_type;
               direction := direction;
               stops := [ {| offset := 0; color := c0 |};
                          {| offset := 100; color := c1 |} ] |} |}.

(** [parse_instruction] with the language model disabled: the standard
    parser.  [None] would be an exception raised by the loop body. *)
Definition parse_instruction (instruction : str) : option Specification :=
  gradient_configurations ← mapM parse_command (commands instruction);
  Some {| steps := gradient_configurations |}.

End Parser.

(** ** The patcher (lines 209-276) *)

Module Modifier.

Definition not_gt : ascii -> bool := not_char ">".
Definition not_dq : ascii -> bool := not_char dq.

(** In the comments on the patterns below, Q stands for the double quote
    character, and a star that the source follows by a closing parenthesis
    is separated from it by a space.  The tail [fill=Q[^Q]*Q] is shared by
    the three selector patterns. *)
Definition fill_attr : list regex :=
  [lit ("fill=" ++ [dq]); Star not_dq; Chr dq].

(** [f'<([^>]*id=Q{re.escape(element_id)}Q[^>]* )fill=Q[^Q]*Q'] *)
Definition id_fill_pattern (element_id : str) : regex :=
  seqs (Chr "<"
        :: Grp (seqs [Star not_gt; lit ("id=" ++ [dq] ++ element_id ++ [dq]);
                      Star not_gt])
        :: fill_attr).

(** [f'<([^>]*class=Q[^Q]*{re.escape(class_name)}[^Q]*Q[^>]* )fill=Q[^Q]*Q'] *)
Definition class_fill_pattern (class_name : str) : regex :=
  seqs (Chr "<"
        :: Grp (seqs [Star not_gt; lit ("class=" ++ [dq]); Star not_dq;
                      lit class_name; Star not_dq; Chr dq; Star not_gt])
        :: fill_attr).

(** [f'<({re.escape(selector)}[^>]* )fill=Q[^Q]*Q'] *)
Definition tag_fill_pattern (selector : str) : regex :=
  seqs (Chr "<" :: Grp (seqs [lit selector; Star not_gt]) :: fill_attr).

(** [f'<\\1fill=Qurl(#{gradient_id})Q'] *)
Definition replacement (gradient_id : str) : str :=
  "<" ++ [bslash] ++ "1fill=" ++ [dq] ++ "url(#" ++ gradient_id ++ ")" ++ [dq].

(** The pattern chosen for a selector (lines 248-263). *)
Definition selector_pattern (selector : str) : regex :=
  if startswith "#" selector then id_fill_pattern (drop 1 selector)
  else if startswith "." selector then class_fill_pattern (drop 1 selector)
  else tag_fill_pattern selector.

(** The opening tag of the gradient definition (lines 222-230). *)
Definition gradient_open (gradient_id : str) (gradient_info : Gradient) : str :=
  if bool_decide (type gradient_info = "linear") then
    if bool_decide (direction gradient_info = "vertical") then
      "<linearGradient id=" ++ [dq] ++ gradient_id ++ [dq]
      ++ " x1=" ++ [dq] ++ "0%" ++ [dq] ++ " y1=" ++ [dq] ++ "0%" ++ [dq]
      ++ " x2=" ++ [dq] ++ "0%" ++ [dq] ++ " y2=" ++ [dq] ++ "100%" ++ [dq] ++ ">"
    else if bool_decide (direction gradient_info = "diagonal") then
      "<linearGradient id=" ++ [dq] ++ gradient_id ++ [dq]
      ++ " x1=" ++ [dq] ++ "0%" ++ [dq] ++ " y1=" ++ [dq] ++ "0%" ++ [dq]
      ++ " x2=" ++ [dq] ++ "100%" ++ [dq] ++ " y2=" ++ [dq] ++ "100%" ++ [dq] ++ ">"
    else
      "<linearGradient id=" ++ [dq] ++ gradient_id ++ [dq]
      ++ " x1=" ++ [dq] ++ "0%" ++ [dq] ++ " y1=" ++ [dq] ++ "0%" ++ [dq]
      ++ " x2=" ++ [dq] ++ "100%" ++ [dq] ++ " y2=" ++ [dq] ++ "0%" ++ [dq] ++ ">"
  else
    "<radialGradient id=" ++ [dq] ++ gradient_id ++ [dq]
    ++ " cx=" ++ [dq] ++ "50%" ++ [dq] ++ " cy=" ++ [dq] ++ "50%" ++ [dq]
    ++ " r=" ++ [dq] ++ "50%" ++ [dq] ++ " fx=" ++ [dq] ++ "50%" ++ [dq]
    ++ " fy=" ++ [dq] ++ "50%" ++ [dq] ++ ">".

(** One stop element (lines 233-238). *)
Definition stop_element (stop_point : Stop) : str :=
  let color_value := color stop_point in
  let color_value :=
    if negb (startswith "#" color_value)
       && bool_decide (is_Some (COLOR_MAP !! lower color_value))
    then default color_value (COLOR_MAP !! lower color_value)
    else color_value in
  "<stop offset=" ++ [dq] ++ str_of_Z (offset stop_point) ++ "%" ++ [dq]
  ++ " style=" ++ [dq] ++ "stop-color:" ++ color_value ++ ";stop-opacity:1"
  ++ [dq] ++ " />".

Definition gradient_close (gradient_info : Gradient) : str :=
  if bool_decide (type gradient_info = "linear")
  then "</linearGradient>" else "</radialGradient>".

(** [gradient_def] as appended at line 241. *)
Definition gradient_def (gradient_id : str) (gradient_info : Gradient) : str :=
  gradient_open gradient_id gradient_info
  ++ concat (map stop_element (stops gradient_info))
  ++ gradient_close gradient_info.

(** The loop over the targets of one step (lines 244-263). *)
Fixpoint apply_targets (gradient_id : str) (ts : list Target)
    (svg_content : str) : option str :=
  match ts with
  | [] => Some svg_content
  | target_element :: ts' =>
      svg_content' ← re_sub false (selector_pattern (selector target_element))
                            (replacement gradient_id) svg_content;
      apply_targets gradient_id ts' svg_content'
  end.

(** [f"grad{gradient_counter}"] *)
Definition grad_id (gradient_counter : nat) : str :=
  "grad" ++ str_of_nat gradient_counter.

(** The loop over the steps (lines 215-265), threading the document, the
    list of definitions and the counter. *)
Fixpoint apply_steps (sts : list GradientStep) (svg_content : str)
    (gradient_definitions : list str) (gradient_counter : nat)
    : option (str * list str) :=
  match sts with
  | [] => Some (svg_content, gradient_definitions)
  | step :: sts' =>
      let gradient_id := grad_id gradient_counter in
      let gradient_info := gradient step in
      svg_content' ← apply_targets gradient_id (targets step) svg_content;
      apply_steps sts' svg_content'
        (gradient_definitions ++ [gradient_def gradient_id gradient_info])
        (S gradient_counter)
  end.

(** [r'<defs>.*?</defs>'] with [re.DOTALL] *)
Definition defs_pattern : regex :=
  seqs [lit "<defs>"; Rep false any_char 0 None; lit "</defs>"].

(** [r'(<svg[^>]*>)'] *)
Definition svg_pattern : regex :=
  Grp (seqs [lit "<svg"; Star not_gt; Chr ">"]).

Definition definitions_block (gradient_definitions : list str) : str :=
  "<defs>" ++ concat gradient_definitions ++ "</defs>".

(** The placement of the definitions (lines 267-274). *)
Definition place_definitions (definitions_block svg_content : str) : option str :=
  if contains "<defs>" svg_content
  then re_sub false defs_pattern definitions_block svg_content
  else re_sub1 false svg_pattern ([bslash] ++ "1" ++ definitions_block) svg_content.

(** [apply_gradients]; [None] is an exception raised by [re.sub]. *)
Definition apply_gradients (svg_content : str) (configuration : Specification)
    : option str :=
  '(svg_content', gradient_definitions) ←
    apply_steps (steps configuration) svg_content [] 1;
  place_definitions (definitions_block gradient_definitions) svg_content'.

End Modifier.

(** ** The validator (lines 293-319) *)

Record ValidationReport := { valid : bool; errors : list str }.

Module Checker.

(** [r'^\s*<svg[^>]*>'] *)
Definition root_pattern : regex :=
  seqs [Bol; Star is_space; lit "<svg"; Star Modifier.not_gt; Chr ">"].

(** [r'url\(#([^)]+)\)'] *)
Definition reference_pattern : regex :=
  seqs [lit "url(#"; Grp (Plus (not_char ")")); Chr ")"].

(** [r'<[^>]*id=Q([^Q]+)Q'], Q the double quote *)
Definition id_attr_pattern : regex :=
  seqs [Chr "<"; Star Modifier.not_gt; lit ("id=" ++ [dq]);
        Grp (Plus Modifier.not_dq); Chr dq].

Definition missing_root : str := "Document missing valid SVG root element".
Definition improperly_structured : str := "Definition section improperly structured".
Definition must_follow : str := "Definition section must follow opening SVG tag".
Definition lacks_definition (reference : str) : str :=
  "Gradient reference '" ++ reference ++ "' lacks corresponding definition".

(** Lines 298-300. *)
Definition root_issues (svg_content : str) : list str :=
  if bool_decide (is_Some (re_match false root_pattern svg_content))
  then [] else [missing_root].

(** Lines 302-309. *)
Definition defs_issues (svg_content : str) : list str :=
  if contains "<defs>" svg_content then
    let defs_start := find "<defs>" svg_content in
    let defs_end := find "</defs>" svg_content in
    if defs_end <=? defs_start then [improperly_structured]
    else if defs_start <? find_from ">" svg_content (find "<svg" svg_content)
    then [must_follow]
    else []
  else [].

Definition gradient_references (svg_content : str) : list str :=
  re_findall false reference_pattern svg_content.

Definition gradient_definitions (svg_content : str) : list str :=
  re_findall false id_attr_pattern svg_content.

(** Lines 311-317. *)
Definition reference_issues (svg_content : str) : list str :=
  omap (fun reference =>
          if bool_decide (reference ∈ gradient_definitions svg_content)
          then None else Some (lacks_definition reference))
       (gradient_references svg_content).

(** [validate_svg]: the three checks append to [validation_issues] in
    this order. *)
Definition validate_svg (svg_content : str) : ValidationReport :=
  let validation_issues :=
    root_issues svg_content ++ defs_issues svg_content
    ++ reference_issues svg_content in
  {| valid := bool_decide (length validation_issues = 0%nat);
     errors := validation_issues |}.

End Checker.

(** ** What a pattern matches

    [matches icase r st st'] says that [r] can match from state [st] and
    leave state [st'], with no regard for the order in which the matcher
    tries things.  It is the specification [run] is checked against. *)

Definition last_prev (pv : option ascii) (w : str) : option ascii :=
  match last w with Some c => Some c | None => pv end.

Definition within (extra : option nat) (lo n : nat) : Prop :=
  match extra with Some e => (n <= lo + e)%nat | None => True end.

Fixpoint matches (icase : bool) (r : regex) (st st' : mstate) : Prop :=
  match r with
  | Eps => st' = st
  | Chr a =>
      exists c s', rest st = c :: s' /\ chr_eq icase a c = true
                   /\ st' = MState (Some c) s' (grp st)
  | Cls p =>
      exists c s', rest st = c :: s' /\ p c = true
                   /\ st' = MState (Some c) s' (grp st)
  | Seq r1 r2 => exists mid, matches icase r1 st mid /\ matches icase r2 mid st'
  | Alt r1 r2 => matches icase r1 st st' \/ matches icase r2 st st'
  | Rep _ p lo extra =>
      exists w s', rest st = w ++ s' /\ Forall (fun c => p c = true) w
                   /\ (lo <= length w)%nat /\ within extra lo (length w)
                   /\ st' = MState (last_prev (prev st) w) s' (grp st)
  | Grp r1 =>
      exists mid, matches icase r1 st mid
                  /\ st' = MState (prev mid) (rest mid)
                             (Some (take (length (rest st) - length (rest mid)) (rest st)))
  | WordB =>
      xorb (word_opt (prev st)) (word_opt (head (rest st))) = true /\ st' = st
  | Bol => prev st = None /\ st' = st
  end.

(** [matches_at icase r pv s w g s']: at a position preceded by [pv], the
    pattern can match the text [w], with group [g], leaving [s']. *)
Definition matches_at (icase : bool) (r : regex) (pv : option ascii)
    (s w : str) (g : option str) (s' : str) : Prop :=
  s = w ++ s' /\
  matches icase r (MState pv s None) (MState (last_prev pv w) s' g).

(** [occurs w s]: the text [w] occurs in [s]. *)
Definition occurs (w s : str) : Prop := exists a b, s = a ++ w ++ b.

(** [only_at w a b]: [a ++ w ++ b] holds [w] at that one place only. *)
Definition only_at (w a b : str) : Prop :=
  forall a' b', a ++ w ++ b = a' ++ w ++ b' -> a' = a.

(** ** Notions used in the statements *)

(** What the parser promises of every step: two stops, at offsets 0 and
    100, and at least one target. *)
Definition step_wf (st : GradientStep) : Prop :=
  (exists c0 c1, stops (gradient st) =
                 [ {| offset := 0; color := c0 |}; {| offset := 100; color := c1 |} ])
  /\ (1 <= length (targets st))%nat.

(** The texts [fill=Q], [id=Q...Q] and [url(#...)], Q the double quote. *)
Definition FILLQ : str := "fill=" ++ [dq].
Definition IDQ (element_id : str) : str := "id=" ++ [dq] ++ element_id ++ [dq].
Definition url_ref (gradient_id : str) : str := "url(#" ++ gradient_id ++ ")".
Abbreviation grad_id := Modifier.grad_id.

(** [fill_rewritten s t]: [t] is [s] with the values of some of its
    [fill=Q...Q] attributes replaced by references to gradients; everything
    else is kept, character by character. *)
Inductive fill_rewritten : str -> str -> Prop :=
| fr_nil : fill_rewritten [] []
| fr_keep c s t : fill_rewritten s t -> fill_rewritten (c :: s) (c :: t)
| fr_fill v n s t :
    dq ∉ v -> fill_rewritten s t ->
    fill_rewritten (FILLQ ++ v ++ [dq] ++ s) (FILLQ ++ url_ref (grad_id n) ++ [dq] ++ t).

(** The common shape of the three selector patterns, and the parsed form
    of their replacement. *)
Definition fill_pattern (X : regex) : regex :=
  seqs (Chr "<" :: Grp X :: Modifier.fill_attr).

Definition fill_template (n : nat) : list titem :=
  TLit "<" :: TGroup1 :: map TLit (FILLQ ++ url_ref (grad_id n) ++ [dq]).

Definition id_group (element_id : str) : regex :=
  seqs [Star Modifier.not_gt; lit (IDQ element_id); Star Modifier.not_gt].

(** The definitions the loop over the steps collects, from counter [n] on. *)
Fixpoint step_defs (n : nat) (sts : list GradientStep) : list str :=
  match sts with
  | [] => []
  | st :: sts' => Modifier.gradient_def (grad_id n) (gradient st) :: step_defs (S n) sts'
  end.

(** [has_svg_tag s]: [s] has a place where [<svg[^>]*>] matches. *)
Definition has_svg_tag (s : str) : Prop :=
  exists a b c, s = a ++ "<svg" ++ b ++ ">" ++ c.

(** No stop color holds a backslash (a color token is a hex code or a
    name). *)
Definition plain_colors (spec : Specification) : Prop :=
  Forall (fun st => Forall (fun stop => bslash ∉ color stop) (stops (gradient st)))
         (steps spec).

(** [no_match_in icase r s]: the pattern matches at no place of [s]. *)
Definition no_match_in (icase : bool) (r : regex) (s : str) : Prop :=
  forall a b pv w g s', s = a ++ b -> ~ matches_at icase r pv b w g s'.

(** [ends_at icase r post s]: every match inside [s] is not empty and ends
    where [post] begins. *)
Definition ends_at (icase : bool) (r : regex) (post s : str) : Prop :=
  forall a b pv w g s', s = a ++ b -> matches_at icase r pv b w g s' ->
                        s' = post /\ w <> [].

(** The positions, counted from [i], at which [w] occurs in [s]. *)
Fixpoint occurrences_from (w s : str) (i : nat) : list nat :=
  (if startswith w s then [i] else [])
  ++ match s with
     | [] => []
     | _ :: s' => occurrences_from w s' (S i)
     end.

(** ** Sample inputs *)

Definition red_to_blue : Gradient :=
  {| type := "linear"; direction := "horizontal";
     stops := [ {| offset := 0; color := "#ff0000" |};
                {| offset := 100; color := "#0000ff" |} ] |}.

Definition hero_spec : Specification :=
  {| steps := [ {| targets := [ {| selector := "#hero";
                                   description := "element with id 'hero'" |} ];
                   gradient := red_to_blue |} ] |}.




(** [<svg><linearGradient id=QgradXQ data-id=Qg1Q/><rect fill=Qurl(#gradX)Q/></svg>] *)
Definition two_ids_doc : str :=
  "<svg><linearGradient " ++ IDQ "gradX" ++ " data-" ++ IDQ "g1" ++ "/>"
  ++ "<rect " ++ FILLQ ++ "url(#gradX)" ++ [dq] ++ "/></svg>".

(** [<svg><rect data-id=QgradXQ fill=Qurl(#gradX)Q/></svg>] *)
Definition dangling_doc : str :=
  "<svg><rect data-" ++ IDQ "gradX" ++ " " ++ FILLQ ++ "url(#gradX)" ++ [dq] ++ "/></svg>".

Global Arguments FILLQ : simpl never.
Global Arguments IDQ : simpl never.
Global Arguments url_ref : simpl never.
Global Arguments Modifier.grad_id : simpl never.

(** ** Notions used in the further properties *)

(** The selectors of the data model: [#] and a name of word characters, [.]
    and a name of word characters and dashes, or one of the two tags. *)
Definition selector_ok (sel : str) : Prop :=
  (exists w, sel = "#" ++ w /\ w <> [] /\ Forall (fun c => is_word c = true) w)
  \/ (exists w, sel = "." ++ w /\ w <> []
                /\ Forall (fun c => Parser.is_word_dash c = true) w)
  \/ sel = "circle" \/ sel = "rect".

(** [#] followed by three to six hex digits. *)
Definition hex_color (c : str) : Prop :=
  exists w, c = "#" ++ w /\ Forall (fun x => is_hex x = true) w
            /\ (3 <= length w <= 6)%nat.

Definition hex_color_b (c : str) : bool :=
  match c with
  | x :: w => Ascii.eqb "#" x && forallb is_hex w
              && (3 <=? length w)%nat && (length w <=? 6)%nat
  | [] => false
  end.

(** What the parser promises of the gradient of a step. *)
Definition gradient_wf (g : Gradient) : Prop :=
  (type g = "linear" \/ type g = "radial")
  /\ (direction g = "horizontal" \/ direction g = "vertical" \/ direction g = "diagonal")
  /\ Forall (fun stop => hex_color (color stop)) (stops g).

(** The three phases of [main] (lines 386-395) on a document: parse the
    instruction, patch the document, validate the result. *)
Definition process (instruction svg : str) : option (str * ValidationReport) :=
  configuration ← Parser.parse_instruction instruction;
  modified_svg ← Modifier.apply_gradients svg configuration;
  Some (modified_svg, Checker.validate_svg modified_svg).

(** The text [class=Q], Q the double quote. *)
Definition CLASSQ : str := "class=" ++ [dq].

(** [selected sel cap]: the text [cap] between the [<] of a tag and one of
    its fill attributes is what the selector [sel] asks for.  It holds
    [id=Q...Q] with the id of an [#] selector, or a class attribute whose
    value holds the name of a [.] selector, or it begins with the tag name;
    and outside that id text, class value or tag name it holds no [>]. *)
Definition selected (sel cap : str) : Prop :=
  if startswith "#" sel then
    exists a b, cap = a ++ IDQ (drop 1 sel) ++ b /\ (">"%char ∉ a) /\ (">"%char ∉ b)
  else if startswith "." sel then
    exists a x y b, cap = a ++ CLASSQ ++ x ++ drop 1 sel ++ y ++ [dq] ++ b
                    /\ (">"%char ∉ a) /\ (dq ∉ x) /\ (dq ∉ y) /\ (">"%char ∉ b)
  else exists b, cap = sel ++ b /\ (">"%char ∉ b).

(** [fills_patched ok gid s t]: [t] is [s] with the value of some fill
    attributes replaced by the reference to [gid], each of them after a
    text [<cap] with [ok cap]; every other character is kept. *)
Inductive fills_patched (ok : str -> Prop) (gid : str) : str -> str -> Prop :=
| fp_nil : fills_patched ok gid [] []
| fp_keep c s t : fills_patched ok gid s t -> fills_patched ok gid (c :: s) (c :: t)
| fp_tag cap v s t :
    ok cap -> dq ∉ v -> fills_patched ok gid s t ->
    fills_patched ok gid ("<" ++ cap ++ FILLQ ++ v ++ [dq] ++ s)
                         ("<" ++ cap ++ FILLQ ++ url_ref gid ++ [dq] ++ t).

(** [unmatched sel doc]: the document holds nothing the selector could
    select. *)
Definition unmatched (sel doc : str) : Prop :=
  if startswith "#" sel then ~ occurs (IDQ (drop 1 sel)) doc
  else if startswith "." sel then ~ occurs (CLASSQ) doc \/ ~ occurs (drop 1 sel) doc
  else ~ occurs ("<" ++ sel) doc.

Global Arguments CLASSQ : simpl never.

(** [first_at w a s]: [s] holds [w] after the prefix [a], and nowhere
    earlier. *)
Definition first_at (w a s : str) : Prop :=
  (exists b, s = a ++ w ++ b)
  /\ forall a' b', s = a' ++ w ++ b' -> (length a <= length a')%nat.

(** [rooted doc]: after optional white space the document begins with
    [<svg], characters other than [>], and [>]. *)
Definition rooted (doc : str) : Prop :=
  exists ws a post, doc = ws ++ "<svg" ++ a ++ ">" ++ post
                    /\ Forall (fun c => is_space c = true) ws /\ (">"%char ∉ a).

(** [<rect id=QheroQ fill=QredQ/></svg>], the rest of a document after its
    root tag. *)
Definition hero_rest : str :=
  "<rect " ++ IDQ "hero" ++ " " ++ FILLQ ++ "red" ++ [dq] ++ "/></svg>".

(** [<svg><defs><linearGradient id=Qg1Q></linearGradient></defs><rect fill=Qurl(#g1)Q/></svg>] *)
Definition linked_doc : str :=
  "<svg><defs><linearGradient " ++ IDQ "g1" ++ "></linearGradient></defs><rect "
  ++ FILLQ ++ "url(#g1)" ++ [dq] ++ "/></svg>".

(** [<svg><rect fill=Qurl(#g)Q/></svg>] *)
Definition orphan_doc : str :=
  "<svg><rect " ++ FILLQ ++ "url(#g)" ++ [dq] ++ "/></svg>".

(** [tags_patched tag gid s t]: [s] is cut at every place where [<tag]
    occurs; each such tag is closed by a [>], and holds either no fill
    attribute, or one, whose value is the reference to [gid] in [t].
    Nothing else differs between [s] and [t]. *)
Inductive tags_patched (tag gid : str) : str -> str -> Prop :=
| tp_rest s : ~ occurs ("<" ++ tag) s -> tags_patched tag gid s s
| tp_fill g b v c s t :
    ~ occurs ("<" ++ tag) g ->
    ">"%char ∉ b ++ FILLQ ++ v ++ [dq] ++ c ->
    only_at FILLQ b (v ++ [dq] ++ c) -> dq ∉ v ->
    ~ occurs ("<" ++ tag) c ->
    tags_patched tag gid s t ->
    tags_patched tag gid
      (g ++ "<" ++ tag ++ b ++ FILLQ ++ v ++ [dq] ++ c ++ ">" ++ s)
      (g ++ "<" ++ tag ++ b ++ FILLQ ++ url_ref gid ++ [dq] ++ c ++ ">" ++ t)
| tp_plain g b s t :
    ~ occurs ("<" ++ tag) g ->
    ">"%char ∉ b -> ~ occurs FILLQ b -> ~ occurs ("<" ++ tag) b ->
    tags_patched tag gid s t ->
    tags_patched tag gid (g ++ "<" ++ tag ++ b ++ ">" ++ s)
                         (g ++ "<" ++ tag ++ b ++ ">" ++ t).

(** [trimmed s]: [s] is not empty and neither begins nor ends with white
    space. *)
Definition trimmed (s : str) : Prop :=
  s <> []
  /\ (forall c, head s = Some c -> is_space c = false)
  /\ (forall c, last s = Some c -> is_space c = false).

(** [refs_upto N s]: wherever [url(#] occurs in [s], it begins a reference
    to one of the gradients [grad1] ... [gradN]. *)
Definition refs_upto (N : nat) (s : str) : Prop :=
  forall x y, s = x ++ "url(#" ++ y ->
    exists k y', (1 <= k <= N)%nat /\ y = grad_id k ++ ")" ++ y'.

(** The text [id=Q] that the validator looks for, Q the double quote. *)
Definition IDEQ : str := "id=" ++ [dq].

(** [quiet_ids G]: no match of the id pattern begins inside [G], whatever
    comes after [G]. *)
Definition quiet_ids (G : str) : Prop :=
  forall a b s pv w g s', G = a ++ b -> b <> [] ->
    ~ matches_at false Checker.id_attr_pattern pv (b ++ s) w g s'.

(** The places, counted from [i], where [w] could begin in a text that
    begins with [A]: [w] is there, or what is left of [A] begins [w]. *)
Fixpoint candidates (w A : str) (i : nat) : list nat :=
  match A with
  | [] => []
  | _ :: A' =>
      (if startswith w A || startswith A w then [i] else []) ++ candidates w A' (S i)
  end.

(** The element names and the coordinates of the four opening tags (lines
    222-230). *)
Definition gradient_shapes : list (str * str) :=
  [ ("linearGradient" : str,
     " x1=" ++ [dq] ++ "0%" ++ [dq] ++ " y1=" ++ [dq] ++ "0%" ++ [dq]
     ++ " x2=" ++ [dq] ++ "0%" ++ [dq] ++ " y2=" ++ [dq] ++ "100%" ++ [dq]);
    ("linearGradient" : str,
     " x1=" ++ [dq] ++ "0%" ++ [dq] ++ " y1=" ++ [dq] ++ "0%" ++ [dq]
     ++ " x2=" ++ [dq] ++ "100%" ++ [dq] ++ " y2=" ++ [dq] ++ "100%" ++ [dq]);
    ("linearGradient" : str,
     " x1=" ++ [dq] ++ "0%" ++ [dq] ++ " y1=" ++ [dq] ++ "0%" ++ [dq]
     ++ " x2=" ++ [dq] ++ "100%" ++ [dq] ++ " y2=" ++ [dq] ++ "0%" ++ [dq]);
    ("radialGradient" : str,
     " cx=" ++ [dq] ++ "50%" ++ [dq] ++ " cy=" ++ [dq] ++ "50%" ++ [dq]
     ++ " r=" ++ [dq] ++ "50%" ++ [dq] ++ " fx=" ++ [dq] ++ "50%" ++ [dq]
     ++ " fy=" ++ [dq] ++ "50%" ++ [dq]) ].

(** What the proofs below need of a shape, as a test. *)
Definition shape_ok (shape : str * str) : bool :=
  bool_decide (candidates IDEQ (shape.1 ++ " " ++ IDEQ) 0 = [S (length shape.1)])
  && negb (contains IDEQ shape.2) && negb (contains IDEQ ("</" ++ shape.1))
  && forallb (fun c => negb (Ascii.eqb ">" c)) (shape.1 ++ " " ++ shape.2)
  && forallb (fun c => negb (Ascii.eqb "i" c)) shape.2
  && forallb (fun c => negb (Ascii.eqb "(" c)) (shape.1 ++ shape.2).

Global Arguments IDEQ : simpl never.

(** [INPUT_SVG] (lines 26-30), Q the double quote. *)
Definition nl : ascii := "010"%char.
Definition quoted (s : str) : str := [dq] ++ s ++ [dq].

Definition INPUT_SVG : str :=
  "<svg width=" ++ quoted "300" ++ " height=" ++ quoted "300"
  ++ " xmlns=" ++ quoted "http://www.w3.org/2000/svg" ++ ">" ++ [nl]
  ++ "  <rect id=" ++ quoted "hero" ++ " x=" ++ quoted "50" ++ " y=" ++ quoted "50"
  ++ " width=" ++ quoted "200" ++ " height=" ++ quoted "100"
  ++ " fill=" ++ quoted "red" ++ "/>" ++ [nl]
  ++ "  <circle cx=" ++ quoted "150" ++ " cy=" ++ quoted "200" ++ " r=" ++ quoted "40"
  ++ " fill=" ++ quoted "green" ++ "/>" ++ [nl]
  ++ "  <rect x=" ++ quoted "20" ++ " y=" ++ quoted "20" ++ " width=" ++ quoted "50"
  ++ " height=" ++ quoted "50" ++ " fill=" ++ quoted "blue"
  ++ " class=" ++ quoted "small-box" ++ "/>" ++ [nl]
  ++ "</svg>".

(** The instruction [main] takes when the user enters nothing (lines
    375-376). *)
Definition example_instruction : str :=
  "Apply a diagonal gradient from #123456 to #abcdef to all circles and give the element with id 'hero' a radial gradient from red to white".

(** What [main] computes from the line the user enters (lines 374-395),
    with the standard parser. *)
Definition main_report (instruction : str) : option (str * ValidationReport) :=
  process (match instruction with [] => example_instruction | _ => instruction end)
          INPUT_SVG.

(** ** The matcher against its specification *)

Lemma last_prev_nil pv : last_prev pv [] = pv.
Proof. reflexivity. Qed.

Lemma last_prev_cons pv c w : last_prev pv (c :: w) = last_prev (Some c) w.
Proof.
  unfold last_prev. destruct w as [|d w]; [done|].
  change (last (c :: d :: w)) with (last (d :: w)).
  destruct (last (d :: w)) eqn:E; [done|]. by apply last_None in E.
Qed.

Lemma last_prev_app pv w1 w2 :
  last_prev pv (w1 ++ w2) = last_prev (last_prev pv w1) w2.
Proof.
  revert pv. induction w1 as [|c w1 IH]; intros pv; [done|].
  rewrite <- app_comm_cons, !last_prev_cons. apply IH.
Qed.

Lemma last_prev_snoc pv w c : last_prev pv (w ++ [c]) = Some c.
Proof. by rewrite last_prev_app. Qed.

Section engine_facts.
Context {A : Type} (icase : bool).
Implicit Types (k : mstate -> option A) (st : mstate) (r : regex).

Lemma matches_rest r st st' :
  matches icase r st st' ->
  exists w, rest st = w ++ rest st' /\ prev st' = last_prev (prev st) w.
Proof.
  revert st st'. induction r as [|a|p|r1 IH1 r2 IH2|r1 IH1 r2 IH2|g p lo extra|r IH| |];
    intros st st' H; simpl in H.
  - subst. by exists [].
  - destruct H as (c & s' & Hr & _ & ->). by exists [c].
  - destruct H as (c & s' & Hr & _ & ->). by exists [c].
  - destruct H as (mid & H1 & H2).
    destruct (IH1 _ _ H1) as (w1 & E1 & P1), (IH2 _ _ H2) as (w2 & E2 & P2).
    exists (w1 ++ w2). rewrite E1, E2, P2, P1, last_prev_app. by rewrite (assoc_L (++)).
  - destruct H as [H|H]; eauto.
  - destruct H as (w & s' & Hr & _ & _ & _ & ->). by exists w.
  - destruct H as (mid & H1 & ->). apply IH in H1. done.
  - destruct H as [_ ->]. by exists [].
  - destruct H as [_ ->]. by exists [].
Qed.

Lemma rep_exact_sound p n pv s (k : option ascii -> str -> option A) x :
  rep_exact p n pv s k = Some x ->
  exists w s', s = w ++ s' /\ length w = n /\ Forall (fun c => p c = true) w
               /\ k (last_prev pv w) s' = Some x.
Proof.
  revert pv s. induction n as [|n IH]; intros pv s H; simpl in H.
  - by exists [], s.
  - destruct s as [|c s]; [done|]. destruct (p c) eqn:Hp; [|done].
    destruct (IH _ _ H) as (w & s' & -> & <- & Hw & Hk).
    exists (c :: w), s'. rewrite last_prev_cons. by repeat split; [constructor|].
Qed.

Lemma rep_more_sound g p extra pv s (k : option ascii -> str -> option A) x :
  rep_more g p extra pv s k = Some x ->
  exists w s', s = w ++ s' /\ Forall (fun c => p c = true) w
               /\ within extra 0 (length w) /\ k (last_prev pv w) s' = Some x.
Proof.
  assert (Hstop : forall pv s e, k pv s = Some x ->
     exists w s', s = w ++ s' /\ Forall (fun c => p c = true) w
               /\ within e 0 (length w) /\ k (last_prev pv w) s' = Some x).
  { intros pv' s' e Hk. exists [], s'. repeat split; [constructor| |done].
    destruct e; simpl; lia. }
  revert pv extra. induction s as [|c s IH]; intros pv extra H.
  - destruct extra as [[|e]|]; simpl in H; eauto.
  - assert (Hcases : k pv (c :: s) = Some x \/
      (p c = true /\ extra <> Some O /\
       rep_more g p (Nat.pred <$> extra) (Some c) s k = Some x)).
    { assert (Hor : forall (a b : option A),
                or_else a b = Some x -> a = Some x \/ b = Some x).
      { intros [a|] b; simpl; intros Hab; [left|right]; done. }
      destruct extra as [[|e]|]; cbn [rep_more] in H; [by left| |];
        (destruct (p c); [|by left]);
        destruct g; apply Hor in H as [H|H]; auto. }
    destruct Hcases as [Hk|(Hp & Hne & Hr)]; [eauto|].
    destruct (IH _ _ Hr) as (w & s' & -> & Hw & He & Hk).
    exists (c :: w), s'. rewrite last_prev_cons.
    repeat split; [by constructor| |done].
    destruct extra as [[|e]|]; simpl in *; [done|lia|done].
Qed.

Lemma run_sound r st k x :
  run icase r st k = Some x ->
  exists st', matches icase r st st' /\ k st' = Some x.
Proof.
  revert st k. induction r as [|a|p|r1 IH1 r2 IH2|r1 IH1 r2 IH2|g p lo extra|r IH| |];
    intros st k H; simpl in H |- *.
  - eauto.
  - destruct (rest st) as [|c s'] eqn:Hr; [done|].
    destruct (chr_eq icase a c) eqn:Hc; [|done]. eauto 10.
  - destruct (rest st) as [|c s'] eqn:Hr; [done|].
    destruct (p c) eqn:Hc; [|done]. eauto 10.
  - apply IH1 in H as (mid & H1 & H). apply IH2 in H as (st' & H2 & H). eauto.
  - unfold or_else in H. destruct (run icase r1 st k) eqn:E1.
    + simplify_eq. apply IH1 in E1 as (st' & ? & ?). eauto.
    + apply IH2 in H as (st' & ? & ?). eauto.
  - apply rep_exact_sound in H as (w1 & s1 & Hs & Hlen & Hw1 & H).
    apply rep_more_sound in H as (w2 & s2 & -> & Hw2 & He & H).
    exists (MState (last_prev (prev st) (w1 ++ w2)) s2 (grp st)). split.
    + exists (w1 ++ w2), s2. rewrite Hs, <- (assoc_L (++)), length_app.
      repeat split; [by apply Forall_app|lia|].
      destruct extra; simpl in *; lia.
    + by rewrite last_prev_app.
  - apply IH in H as (mid & H1 & H). eauto.
  - destruct (xorb _ _) eqn:Hx; [|done]. eauto.
  - destruct (prev st) eqn:Hp; [done|]. eauto.
Qed.

Lemma rep_exact_complete p pv w s' (k : option ascii -> str -> option A) :
  Forall (fun c => p c = true) w ->
  is_Some (k (last_prev pv w) s') ->
  is_Some (rep_exact p (length w) pv (w ++ s') k).
Proof.
  revert pv. induction w as [|c w IH]; intros pv Hw Hk; [done|].
  apply Forall_cons in Hw as [Hc Hw]. simpl. rewrite Hc.
  apply IH; [done|]. by rewrite last_prev_cons in Hk.
Qed.

Lemma or_else_is_Some (x y : option A) :
  is_Some x \/ is_Some y -> is_Some (or_else x y).
Proof. destruct x; simpl; [eauto|]. by intros [[? ?]|?]. Qed.

Lemma rep_more_complete g p extra pv w s' (k : option ascii -> str -> option A) :
  Forall (fun c => p c = true) w ->
  within extra 0 (length w) ->
  is_Some (k (last_prev pv w) s') ->
  is_Some (rep_more g p extra pv (w ++ s') k).
Proof.
  revert pv extra. induction w as [|c w IH]; intros pv extra Hw He Hk.
  - simpl in *. destruct s' as [|d s'], extra as [[|e]|]; simpl; try done.
    + destruct (p d); [|done]. destruct g; apply or_else_is_Some; eauto.
    + destruct (p d); [|done]. destruct g; apply or_else_is_Some; eauto.
  - apply Forall_cons in Hw as [Hc Hw]. rewrite last_prev_cons in Hk.
    assert (is_Some (rep_more g p (Nat.pred <$> extra) (Some c) (w ++ s') k)) as Hr.
    { apply IH; [done| |done]. destruct extra as [e|]; simpl in *; lia. }
    destruct extra as [[|e]|]; simpl in He |- *; [lia| |];
      rewrite Hc; destruct g; apply or_else_is_Some; eauto.
Qed.

Lemma run_complete r st st' k :
  matches icase r st st' -> is_Some (k st') -> is_Some (run icase r st k).
Proof.
  revert st st' k. induction r as [|a|p|r1 IH1 r2 IH2|r1 IH1 r2 IH2|g p lo extra|r IH| |];
    intros st st' k H Hk; simpl in H |- *.
  - by subst.
  - destruct H as (c & s' & -> & -> & ->). done.
  - destruct H as (c & s' & -> & -> & ->). done.
  - destruct H as (mid & H1 & H2). eapply IH1; [done|]. by eapply IH2.
  - apply or_else_is_Some. destruct H; [left; by eapply IH1|right; by eapply IH2].
  - destruct H as (w & s' & Hr & Hw & Hlo & He & ->). rewrite Hr.
    assert (length (take lo w) = lo) as Hlen by (rewrite length_take; lia).
    assert (length w = (lo + length (drop lo w))%nat) as Hlen'
      by (rewrite length_drop; lia).
    rewrite <- (take_drop lo w) in Hw, Hk |- *.
    apply Forall_app in Hw as [Hw1 Hw2].
    rewrite <- (assoc_L (++)). rewrite <- Hlen at 1.
    apply rep_exact_complete; [done|].
    apply rep_more_complete; [done| |by rewrite <- last_prev_app].
    destruct extra; simpl in *; lia.
  - destruct H as (mid & H1 & ->). by eapply IH.
  - destruct H as [-> ->]. done.
  - destruct H as [-> ->]. done.
Qed.
End engine_facts.

Lemma mstate_eta st : st = MState (prev st) (rest st) (grp st).
Proof. by destruct st. Qed.

Lemma take_app_minus (w s' : str) :
  take (length (w ++ s') - length s') (w ++ s') = w.
Proof.
  rewrite length_app.
  replace (length w + length s' - length s')%nat with (length w) by lia.
  by rewrite take_app_length.
Qed.

Lemma match_at_Some icase r pv s h :
  match_at icase r pv s = Some h ->
  exists s', matches_at icase r pv s (h_text h) (h_grp h) s'.
Proof.
  unfold match_at. intros H.
  apply run_sound in H as (st' & Hm & Hh). simplify_eq. simpl.
  destruct (matches_rest _ _ _ _ Hm) as (w & Hw & Hp). simpl in Hw, Hp.
  exists (rest st'). subst s. rewrite take_app_minus. split; [done|].
  rewrite <- Hp. by rewrite <- mstate_eta.
Qed.

Lemma match_at_is_Some icase r pv s w g s' :
  matches_at icase r pv s w g s' -> is_Some (match_at icase r pv s).
Proof. intros [_ Hm]. unfold match_at. by eapply run_complete. Qed.

Lemma match_at_None icase r pv s :
  match_at icase r pv s = None -> forall w g s', ~ matches_at icase r pv s w g s'.
Proof.
  intros H w g s' Hm. apply match_at_is_Some in Hm as [h Hh]. congruence.
Qed.

Lemma matches_at_text icase r pv s w g s' :
  matches_at icase r pv s w g s' -> s = w ++ s'.
Proof. by intros [? _]. Qed.

(** The equations of the scan. *)

Lemma scan_skip icase r pv w s :
  scan icase r pv (w ++ s) (length w) = scan icase r (last_prev pv w) s 0.
Proof.
  revert pv. induction w as [|c w IH]; intros pv; [done|].
  simpl. by rewrite IH, last_prev_cons.
Qed.

Lemma scan_miss icase r pv c s :
  match_at icase r pv (c :: s) = None ->
  scan icase r pv (c :: s) 0 = TChr c :: scan icase r (Some c) s 0.
Proof. intros H. simpl. by rewrite H. Qed.

Lemma scan_hit icase r pv s h s' :
  match_at icase r pv s = Some h -> h_text h <> [] -> s = h_text h ++ s' ->
  scan icase r pv s 0 = THit h :: scan icase r (last_prev pv (h_text h)) s' 0.
Proof.
  intros H Hne ->. destruct (h_text h) as [|c w] eqn:Ht; [done|].
  simpl. simpl in H. rewrite H, Ht. simpl. f_equal.
  rewrite scan_skip. by rewrite last_prev_cons.
Qed.

Lemma scan_nil_miss icase r pv :
  match_at icase r pv [] = None -> scan icase r pv [] 0 = [].
Proof. intros H. simpl. by rewrite H. Qed.

(** What literal text and the shorthand repetitions match. *)

Lemma matches_lit_exact w st st' :
  matches false (lit w) st st' <->
  exists s', rest st = w ++ s' /\ st' = MState (last_prev (prev st) w) s' (grp st).
Proof.
  revert st st'. induction w as [|a w IH]; intros st st'; simpl.
  - split.
    + intros ->. exists (rest st). split; [done|]. apply mstate_eta.
    + intros (s' & <- & ->). symmetry. apply mstate_eta.
  - split.
    + intros (mid & (c & s1 & Hr & Hc & ->) & H2).
      apply IH in H2 as (s' & Hs & ->). simpl in *. subst s1.
      apply Ascii.eqb_eq in Hc as <-. exists s'. by rewrite last_prev_cons.
    + intros (s' & Hr & ->). exists (MState (Some a) (w ++ s') (grp st)). split.
      * exists a, (w ++ s'). by rewrite Ascii.eqb_refl.
      * apply IH. exists s'. by rewrite last_prev_cons.
Qed.

Lemma matches_lit_icase w st st' :
  matches true (lit w) st st' <->
  exists t s', rest st = t ++ s' /\ lower t = lower w
               /\ st' = MState (last_prev (prev st) t) s' (grp st).
Proof.
  revert st st'. induction w as [|a w IH]; intros st st'; simpl.
  - split.
    + intros ->. exists [], (rest st). split_and!; [done..|]. apply mstate_eta.
    + intros (t & s' & Hr & Ht & ->). destruct t; [|done]. simpl in *.
      subst. symmetry. apply mstate_eta.
  - split.
    + intros (mid & (c & s1 & Hr & Hc & ->) & H2).
      apply IH in H2 as (t & s' & Hs & Ht & ->). simpl in *. subst s1.
      apply Ascii.eqb_eq in Hc. exists (c :: t), s'.
      rewrite last_prev_cons. simpl. by rewrite Hc, Ht.
    + intros (t & s' & Hr & Ht & ->). destruct t as [|c t]; [done|].
      simpl in Ht. injection Ht as Hc Ht.
      exists (MState (Some c) (t ++ s') (grp st)). split.
      * exists c, (t ++ s'). by rewrite Hc, Ascii.eqb_refl.
      * apply IH. exists t, s'. by rewrite last_prev_cons.
Qed.

Lemma matches_Star icase p st st' :
  matches icase (Star p) st st' <->
  exists w s', rest st = w ++ s' /\ Forall (fun c => p c = true) w
               /\ st' = MState (last_prev (prev st) w) s' (grp st).
Proof.
  simpl. split.
  - intros (w & s' & ? & ? & _ & _ & ?). eauto.
  - intros (w & s' & ? & ? & ?). exists w, s'. split_and!; try done. lia.
Qed.

Lemma matches_Plus icase p st st' :
  matches icase (Plus p) st st' <->
  exists w s', rest st = w ++ s' /\ Forall (fun c => p c = true) w /\ w <> []
               /\ st' = MState (last_prev (prev st) w) s' (grp st).
Proof.
  simpl. split.
  - intros (w & s' & ? & ? & Hl & _ & ?). exists w, s'.
    split_and!; try done. destruct w; [simpl in *; lia|done].
  - intros (w & s' & ? & ? & Hne & ?). exists w, s'.
    split_and!; try done. destruct w; [done|simpl; lia].
Qed.

(** ** The color table *)

Lemma COLOR_MAP_value_fixed k v : COLOR_MAP !! k = Some v -> get_hex_color (k, v).2 = (k, v).2.
Proof.
  unfold COLOR_MAP. intros H%elem_of_list_to_map_2. revert H.
  generalize (k, v). apply Forall_forall.
  repeat (constructor; [vm_compute; reflexivity|]). constructor.
Qed.

Lemma COLOR_MAP_no_hash x : COLOR_MAP !! ("#" ++ x) = None.
Proof.
  unfold COLOR_MAP. apply not_elem_of_list_to_map_1. simpl.
  intros H. repeat (apply elem_of_cons in H as [H|H]; [discriminate H|]).
  by apply elem_of_nil in H.
Qed.

(** C8: color normalization is idempotent, [get_hex_color (get_hex_color x)]
    is [get_hex_color x] for every string [x]; and a token that starts with
    [#] (an already-hex token) is returned unchanged. *)
Theorem get_hex_color_idempotent (x : str) :
  get_hex_color (get_hex_color x) = get_hex_color x
  /\ get_hex_color ("#" ++ x) = "#" ++ x.
Proof.
  split.
  - unfold get_hex_color at 2 3. destruct (COLOR_MAP !! lower x) as [v|] eqn:E; simpl.
    + by eapply COLOR_MAP_value_fixed.
    + unfold get_hex_color. by rewrite E.
  - unfold get_hex_color. change (lower ("#" ++ x)) with ("#" ++ lower x).
    by rewrite COLOR_MAP_no_hash.
Qed.

(** ** The parser *)

Lemma parse_command_total cmd :
  exists st, Parser.parse_command cmd = Some st /\ step_wf st.
Proof.
  unfold Parser.parse_command. destruct (Parser.identify_target cmd) as [target descr].
  set (l := map get_hex_color _).
  destruct (length l <? 2)%nat eqn:Hl; simpl.
  - eexists. split; [done|]. split; simpl; eauto.
  - apply Nat.ltb_ge in Hl. destruct l as [|a [|b l]]; simpl in Hl; try lia.
    simpl. eexists. split; [done|]. split; simpl; eauto.
Qed.

Lemma mapM_total {X Y} (f : X -> option Y) (P : Y -> Prop) l :
  (forall x, exists y, f x = Some y /\ P y) ->
  exists ys, mapM f l = Some ys /\ Forall P ys /\ length ys = length l.
Proof.
  intros Hf. induction l as [|x l (ys & E & HP & Hlen)].
  - by exists [].
  - destruct (Hf x) as (y & Ey & Py). exists (y :: ys). simpl.
    rewrite Ey, E. simpl. split_and!; [done|by constructor|by f_equal].
Qed.

(** C1: for every instruction the standard parser returns a Specification
    (it does not raise), and every step of it has exactly two stops, the
    first at offset 0 and the second at offset 100, and at least one
    target. *)
Theorem parse_instruction_total (instruction : str) :
  exists spec, Parser.parse_instruction instruction = Some spec
               /\ Forall step_wf (steps spec).
Proof.
  unfold Parser.parse_instruction.
  destruct (mapM_total Parser.parse_command step_wf (Parser.commands instruction)
              parse_command_total) as (ys & E & HP & _).
  rewrite E. simpl. eauto.
Qed.

(** C9, as amended: parsing [make it nice] gives one step, linear,
    horizontal, with the stops [#ff0000] at 0 and [#0000ff] at 100, and its
    target selector is already [rect]: the parser itself puts the default
    tag in (line 179). *)
Theorem parse_make_it_nice :
  Parser.parse_instruction "make it nice" =
  Some {| steps :=
    [ {| targets := [ {| selector := "rect"; description := "element" |} ];
         gradient := {| type := "linear"; direction := "horizontal";
                        stops := [ {| offset := 0; color := "#ff0000" |};
                                   {| offset := 100; color := "#0000ff" |} ] |} |} ] |}.
Proof. vm_compute. reflexivity. Qed.

(** C9 as stated fails: [identify_target] finds no target in
    [make it nice], and yet the selector of the parsed step is [rect], not
    an unresolved one left to the patcher. *)
Lemma make_it_nice_selector_resolved :
  fst (Parser.identify_target "make it nice") = None
  /\ exists st, Parser.parse_instruction "make it nice" = Some {| steps := [st] |}
                /\ map selector (targets st) = ["rect" : str].
Proof. split; [vm_compute; reflexivity|]. eexists. split; vm_compute; reflexivity. Qed.

(** C4: the separator pattern has no word boundary and asks for white
    space after the separator only.  [sand castle] is cut inside the word
    [sand] into [s] and [castle], and [red,blue] is not cut at its comma. *)
Theorem commands_split_inside_word :
  Parser.commands "sand castle" = ["s" : str; "castle" : str]
  /\ Parser.commands "red,blue" = ["red,blue" : str].
Proof. split; vm_compute; reflexivity. Qed.

(** ** The validator *)

Lemma must_follow_not_in_reference_issues doc :
  Checker.must_follow ∉ Checker.reference_issues doc.
Proof.
  unfold Checker.reference_issues. intros H.
  apply list_elem_of_omap in H as (r & _ & Hr). case_bool_decide; [done|].
  by injection Hr.
Qed.

(** C6, as amended: the two checks of the definitions section are
    alternatives ([if] ... [elif]).  For every document that holds [<defs>]
    and whose [</defs>] is not strictly after it, the report holds the
    improperly-structured error and does not hold the must-follow error,
    wherever the root tag ends. *)
Theorem defs_checks_exclusive (doc : str) :
  contains "<defs>" doc = true ->
  find "</defs>" doc <= find "<defs>" doc ->
  Checker.improperly_structured ∈ errors (Checker.validate_svg doc)
  /\ Checker.must_follow ∉ errors (Checker.validate_svg doc).
Proof.
  intros Hc Hle. unfold Checker.validate_svg. simpl.
  assert (Checker.defs_issues doc = [Checker.improperly_structured]) as ->.
  { unfold Checker.defs_issues. rewrite Hc. by apply Z.leb_le in Hle as ->. }
  split.
  - rewrite !elem_of_app. right. left. by apply list_elem_of_singleton.
  - rewrite !elem_of_app. intros [H|[H|H]].
    + unfold Checker.root_issues in H. case_bool_decide.
      * by apply elem_of_nil in H.
      * by apply list_elem_of_singleton in H.
    + by apply list_elem_of_singleton in H.
    + by apply must_follow_not_in_reference_issues in H.
Qed.

Lemma defs_checks_exclusive_witness :
  Checker.improperly_structured ∈ errors (Checker.validate_svg "<svg><defs></svg>")
  /\ Checker.must_follow ∉ errors (Checker.validate_svg "<svg><defs></svg>").
Proof.
  apply (defs_checks_exclusive "<svg><defs></svg>"); [reflexivity|].
  vm_compute. discriminate.
Defined.

(** C6 as stated fails: in [<defs><svg></svg>] the open marker has no close
    marker after it and it starts before the end of the root tag, and the
    report holds the improperly-structured error only. *)
Lemma both_defs_conditions_one_error :
  contains "<defs>" "<defs><svg></svg>" = true
  /\ find "</defs>" "<defs><svg></svg>" <= find "<defs>" "<defs><svg></svg>"
  /\ find "<defs>" "<defs><svg></svg>"
     < find_from ">" "<defs><svg></svg>" (find "<svg" "<defs><svg></svg>")
  /\ errors (Checker.validate_svg "<defs><svg></svg>")
     = [Checker.missing_root; Checker.improperly_structured]
  /\ Checker.must_follow ∉ errors (Checker.validate_svg "<defs><svg></svg>").
Proof.
  assert (E : errors (Checker.validate_svg "<defs><svg></svg>")
              = [Checker.missing_root; Checker.improperly_structured])
    by (vm_compute; reflexivity).
  split_and!; [vm_compute; done..|exact E|].
  rewrite E, !elem_of_cons, elem_of_nil. intros [H|[H|[]]]; discriminate H.
Qed.

(** ** Characters of strings *)

Lemma Forall_not_char (a : ascii) (w : str) :
  Forall (fun c => not_char a c = true) w <-> a ∉ w.
Proof.
  rewrite Forall_forall. unfold not_char, is_char. split.
  - intros H Hin. specialize (H _ Hin). by rewrite Ascii.eqb_refl in H.
  - intros H c Hc. apply negb_true_iff, Ascii.eqb_neq. by intros ->.
Qed.

Lemma startswith_prefix (p s : str) :
  startswith p s = true <-> exists t, s = p ++ t.
Proof.
  revert s. induction p as [|a p IH]; intros s; simpl.
  - split; eauto.
  - destruct s as [|c s]; [split; [done|by intros [? ?]]|].
    rewrite andb_true_iff, Ascii.eqb_eq, IH. split.
    + intros [-> [t ->]]. eauto.
    + intros [t [= -> ->]]. eauto.
Qed.

Lemma contains_occurs (w s : str) : contains w s = true <-> occurs w s.
Proof.
  induction s as [|c s IH]; simpl.
  - rewrite orb_false_r, startswith_prefix. split.
    + intros [t Ht]. by exists [], t.
    + intros (a & b & H). destruct a; [|done]. eauto.
  - rewrite orb_true_iff, startswith_prefix, IH. split.
    + intros [[t Ht]|(a & b & ->)]; [by exists [], t|by exists (c :: a), b].
    + intros ([|c' a] & b & H); [left; eauto|right].
      injection H as -> ->. by exists a, b.
Qed.

Lemma contains_false (w s : str) : contains w s = false <-> ~ occurs w s.
Proof. rewrite <- contains_occurs. by destruct (contains w s). Qed.

(** If a character of [x ++ t] outside [x] starts an occurrence, the
    occurrence lies in [t]. *)
Lemma app_eq_skip (x t a r : str) (c : ascii) :
  x ++ t = a ++ c :: r -> c ∉ x -> exists a', a = x ++ a' /\ t = a' ++ c :: r.
Proof.
  revert a. induction x as [|d x IH]; intros a H Hc; [by exists a|].
  destruct a as [|d' a]; simpl in H.
  - injection H as -> _. by apply not_elem_of_cons in Hc as [? _].
  - injection H as -> H. apply not_elem_of_cons in Hc as [_ Hc].
    destruct (IH _ H Hc) as (a' & -> & ->). by exists a'.
Qed.

(** ** Decimal numerals *)

Lemma string_of_uint_digits (d : Decimal.uint) :
  Forall (fun c => is_digit c = true) (String.list_ascii_of_string (NilEmpty.string_of_uint d)).
Proof. induction d; simpl; by constructor. Qed.

Lemma str_of_nat_digits n : Forall (fun c => is_digit c = true) (str_of_nat n).
Proof.
  unfold str_of_nat, NilZero.string_of_uint.
  destruct (Nat.to_uint n); try apply string_of_uint_digits.
  by repeat constructor.
Qed.

Lemma str_of_Z_chars z :
  Forall (fun c => is_digit c || is_char "-" c = true) (str_of_Z z).
Proof.
  assert (forall d, Forall (fun c => is_digit c || is_char "-" c = true)
            (String.list_ascii_of_string (NilZero.string_of_uint d))) as Hu.
  { intros d. apply (Forall_impl (fun c => is_digit c = true)); [|by intros c ->].
    unfold NilZero.string_of_uint.
    destruct d; try apply string_of_uint_digits. by repeat constructor. }
  unfold str_of_Z, NilZero.string_of_int.
  destruct (Z.to_int z); simpl; [apply Hu|]. constructor; [done|apply Hu].
Qed.

Lemma digit_not (a : ascii) (w : str) :
  is_digit a = false -> Forall (fun c => is_digit c = true) w -> a ∉ w.
Proof.
  intros Ha Hw Hin. rewrite Forall_forall in Hw. apply Hw in Hin. congruence.
Qed.

Lemma not_elem_of_literal (a : ascii) (w : str) :
  forallb (fun c => negb (Ascii.eqb a c)) w = true -> a ∉ w.
Proof.
  intros H Hin. rewrite forallb_forall in H. apply list_elem_of_In, H in Hin.
  by rewrite Ascii.eqb_refl in Hin.
Qed.

Ltac not_in_literal := apply not_elem_of_literal; vm_compute; reflexivity.


Ltac notin :=
  repeat match goal with
  | |- _ ∉ _ ++ _ => apply not_elem_of_app; split
  | |- _ ∉ _ :: _ => apply not_elem_of_cons; split; [discriminate|]
  | |- _ ∉ [] => apply not_elem_of_nil
  | |- _ ∉ str_of_nat _ => apply digit_not; [reflexivity|apply str_of_nat_digits]
  | |- _ ∉ url_ref _ => unfold url_ref
  | |- _ ∉ grad_id _ => unfold Modifier.grad_id
  | |- _ ∉ FILLQ => unfold FILLQ
  | |- _ ∉ String.list_ascii_of_string _ => not_in_literal
  | |- _ ∉ _ => assumption
  end.

Lemma url_ref_no_lt n : "<"%char ∉ url_ref (grad_id n).
Proof. notin. Qed.
Lemma url_ref_no_gt n : ">"%char ∉ url_ref (grad_id n).
Proof. notin. Qed.
Lemma url_ref_no_bslash n : bslash ∉ url_ref (grad_id n).
Proof. notin. Qed.

(** ** Sequences of patterns *)

Lemma matches_seqs_cons icase r rs st st' :
  matches icase (seqs (r :: rs)) st st' <->
  exists mid, matches icase r st mid /\ matches icase (seqs rs) mid st'.
Proof. reflexivity. Qed.

Lemma matches_seqs_nil icase st st' : matches icase (seqs []) st st' <-> st' = st.
Proof. reflexivity. Qed.

Lemma matches_Chr_exact a st st' :
  matches false (Chr a) st st' <->
  exists s', rest st = a :: s' /\ st' = MState (Some a) s' (grp st).
Proof.
  simpl. split.
  - intros (c & s' & Hr & Hc%Ascii.eqb_eq & ->). subst. eauto.
  - intros (s' & Hr & ->). exists a, s'. by rewrite Ascii.eqb_refl.
Qed.

(** ** Replacement templates *)

Lemma parse_template_literal b (t : str) :
  bslash ∉ t -> parse_template b t = Some (map TLit t).
Proof.
  induction t as [|c t IH]; intros Hn; [done|].
  apply not_elem_of_cons in Hn as [Hc Hn]. cbn [parse_template].
  unfold is_char. destruct (Ascii.eqb_spec bslash c) as [E|_]; [done|].
  by rewrite IH.
Qed.

Lemma expand_literal (t : str) h : expand (map TLit t) h = t.
Proof.
  unfold expand. induction t as [|c t IH]; [done|]. simpl in *. by rewrite IH.
Qed.

Lemma replacement_eq gid :
  Modifier.replacement gid
  = "<"%char :: bslash :: "1"%char :: (FILLQ ++ url_ref gid ++ [dq]).
Proof.
  unfold Modifier.replacement, FILLQ, url_ref. simpl.
  by rewrite <- !(assoc_L (++)).
Qed.

Lemma parse_replacement gid :
  bslash ∉ gid ->
  parse_template true (Modifier.replacement gid)
  = Some (TLit "<" :: TGroup1 :: map TLit (FILLQ ++ url_ref gid ++ [dq])).
Proof.
  intros Hn. rewrite replacement_eq.
  change (parse_template true _) with
    (cons (TLit "<") <$> (cons TGroup1 <$>
       parse_template true (FILLQ ++ url_ref gid ++ [dq]))).
  rewrite parse_template_literal; [done|]. notin.
Qed.

Lemma expand_replacement (x cap w : str) :
  expand (TLit "<" :: TGroup1 :: map TLit x) (Hit w (Some cap)) = "<" ++ cap ++ x.
Proof.
  change (expand _ _) with ("<" ++ cap ++ expand (map TLit x) (Hit w (Some cap))).
  by rewrite expand_literal.
Qed.

(** ** The shape of a match of a selector pattern *)

Lemma matches_fill_attr st st' :
  matches false (seqs Modifier.fill_attr) st st' <->
  exists v s', rest st = FILLQ ++ v ++ [dq] ++ s' /\ (dq ∉ v)
               /\ st' = MState (Some dq) s' (grp st).
Proof.
  unfold Modifier.fill_attr.
  rewrite matches_seqs_cons. split.
  - intros (m1 & H1 & H).
    apply matches_lit_exact in H1 as (s1 & Hr1 & ->).
    apply matches_seqs_cons in H as (m2 & H2 & H).
    apply matches_Star in H2 as (v & s2 & Hr2 & Hv & ->).
    apply matches_seqs_cons in H as (m3 & H3 & ->).
    apply matches_Chr_exact in H3 as (s3 & Hr3 & ->). cbn [rest prev grp] in *. subst.
    exists v, s3. split_and!; [done|by apply Forall_not_char|done].
  - intros (v & s' & Hr & Hv & ->).
    exists (MState (last_prev (prev st) FILLQ) (v ++ [dq] ++ s') (grp st)). split.
    { apply matches_lit_exact. eauto. }
    apply matches_seqs_cons.
    exists (MState (last_prev (last_prev (prev st) FILLQ) v) ([dq] ++ s') (grp st)). split.
    { apply matches_Star. exists v, ([dq] ++ s'). split_and!; [done| |done].
      by apply Forall_not_char. }
    apply matches_seqs_cons. eexists. split; [|reflexivity].
    apply matches_Chr_exact. by exists s'.
Qed.


Lemma matches_at_fill X pv s w g s' :
  matches_at false (fill_pattern X) pv s w g s' <->
  exists cap v mid,
    w = "<" ++ cap ++ FILLQ ++ v ++ [dq] /\ s = w ++ s' /\ g = Some cap /\ (dq ∉ v)
    /\ matches false X (MState (Some "<"%char) (cap ++ FILLQ ++ v ++ [dq] ++ s') None) mid
    /\ rest mid = FILLQ ++ v ++ [dq] ++ s'.
Proof.
  unfold matches_at, fill_pattern. split.
  - intros (Hs & H).
    apply matches_seqs_cons in H as (m1 & H1 & H).
    apply matches_Chr_exact in H1 as (s1 & Hr1 & ->). cbn [rest prev grp] in *.
    apply matches_seqs_cons in H as (m2 & H2 & H).
    cbn [matches] in H2. destruct H2 as (mid & HX & ->).
    apply matches_fill_attr in H as (v & s2 & Hr2 & Hv & [= Hp -> Hg]).
    cbn [rest prev grp] in *.
    destruct (matches_rest _ _ _ _ HX) as (cap & Hcap & _).
    cbn [rest prev grp] in Hcap. rewrite Hr2 in Hcap.
    rewrite Hcap, Hr2, take_app_minus in Hg.
    assert (w = "<" ++ cap ++ FILLQ ++ v ++ [dq]) as ->.
    { apply (app_inj_2 _ _ s2 s2); [done|].
      rewrite <- Hs, Hr1, Hcap. by rewrite <- !(assoc_L (++)). }
    exists cap, v, mid. split_and!; try done. by rewrite <- Hcap.
  - intros (cap & v & mid & -> & -> & -> & Hv & HX & Hmid). split; [done|].
    apply matches_seqs_cons.
    exists (MState (Some "<"%char) (cap ++ FILLQ ++ v ++ [dq] ++ s') None). split.
    { apply matches_Chr_exact. eexists. split; [|done]. cbn [rest].
      by rewrite <- !(assoc_L (++)). }
    apply matches_seqs_cons. eexists. split.
    { cbn [matches]. exists mid. split; [done|reflexivity]. }
    apply matches_fill_attr. exists v, s'. cbn [rest prev grp].
    split_and!; [done..|]. f_equal.
    + by rewrite !(assoc_L (++)), last_prev_snoc.
    + by rewrite Hmid, take_app_minus.
Qed.

Lemma selector_pattern_fill sel :
  exists X, Modifier.selector_pattern sel = fill_pattern X.
Proof.
  unfold Modifier.selector_pattern, Modifier.id_fill_pattern,
    Modifier.class_fill_pattern, Modifier.tag_fill_pattern.
  repeat case_match; eexists; reflexivity.
Qed.

Lemma fill_rewritten_app x s t :
  fill_rewritten s t -> fill_rewritten (x ++ s) (x ++ t).
Proof. intros H. induction x; [done|]. by constructor. Qed.

Lemma fill_rewritten_refl s : fill_rewritten s s.
Proof. induction s; by constructor. Qed.

Lemma fill_pattern_nonempty X pv s h :
  match_at false (fill_pattern X) pv s = Some h ->
  exists cap v s',
    s = ("<" ++ cap ++ FILLQ ++ v ++ [dq]) ++ s'
    /\ h = Hit ("<" ++ cap ++ FILLQ ++ v ++ [dq]) (Some cap) /\ (dq ∉ v)
    /\ (length s' < length s)%nat.
Proof.
  intros H. apply match_at_Some in H as (s' & H).
  apply matches_at_fill in H as (cap & v & mid & Hw & Hs & Hg & Hv & _).
  exists cap, v, s'. split_and!; [by rewrite Hs, Hw| |done|].
  - destruct h; simpl in *. by subst.
  - rewrite Hs, Hw, length_app. simpl. lia.
Qed.

Lemma scan_fill_rewritten X n (s : str) pv :
  fill_rewritten s
    (concat (map (render (fill_template n)) (scan false (fill_pattern X) pv s 0))).
Proof.
  remember (length s) as m eqn:Hm. revert s pv Hm.
  induction m as [m IH] using lt_wf_ind. intros s pv ->.
  destruct (match_at false (fill_pattern X) pv s) as [h|] eqn:E.
  - destruct (fill_pattern_nonempty _ _ _ _ E) as (cap & v & s' & Hs & -> & Hv & Hlt).
    rewrite (scan_hit _ _ _ _ _ s' E); [|done|done].
    cbn [map concat render h_text]. unfold fill_template at 1.
    rewrite expand_replacement. rewrite Hs at 1.
    rewrite <- !app_assoc.
    apply (fill_rewritten_app ("<" ++ cap)).
    apply fr_fill; [done|]. by eapply IH.
  - destruct s as [|c s].
    + rewrite scan_nil_miss by done. constructor.
    + rewrite scan_miss by done. simpl. constructor. eapply IH; [|done]. simpl. lia.
Qed.

Lemma re_sub_fill sel n s :
  exists t, re_sub false (Modifier.selector_pattern sel)
              (Modifier.replacement (grad_id n)) s = Some t
            /\ fill_rewritten s t.
Proof.
  destruct (selector_pattern_fill sel) as [X ->].
  unfold re_sub. change (has_group (fill_pattern X)) with true.
  rewrite parse_replacement by notin. simpl. eexists. split; [done|].
  apply scan_fill_rewritten.
Qed.

(** An invariant of the document under the loops of the patcher. *)
Section invariant.
Context (P : str -> Prop).
Hypothesis P_rewritten : forall s t, fill_rewritten s t -> P s -> P t.

Lemma apply_targets_inv n ts s :
  P s -> exists t, Modifier.apply_targets (grad_id n) ts s = Some t /\ P t.
Proof.
  revert s. induction ts as [|tg ts IH]; intros s Hs; simpl; [eauto|].
  destruct (re_sub_fill (selector tg) n s) as (t & -> & Ht). simpl.
  apply IH. by eapply P_rewritten.
Qed.

Lemma apply_steps_inv sts s defs n :
  P s -> exists t frags, Modifier.apply_steps sts s defs n = Some (t, frags) /\ P t.
Proof.
  revert s defs n. induction sts as [|st sts IH]; intros s defs n Hs; simpl; [eauto|].
  destruct (apply_targets_inv n (targets st) s Hs) as (t & Ht & HP).
  rewrite Ht. simpl.
  by apply IH.
Qed.
End invariant.


Lemma apply_steps_defs sts s defs n t frags :
  Modifier.apply_steps sts s defs n = Some (t, frags) ->
  frags = defs ++ step_defs n sts.
Proof.
  revert s defs n. induction sts as [|st sts IH]; intros s defs n H; simpl in H.
  - injection H as _ <-. by rewrite app_nil_r.
  - destruct (Modifier.apply_targets _ _ _) as [s'|]; [|done]. simpl in H.
    apply IH in H as ->. by rewrite <- app_assoc.
Qed.

(** ** What fill rewriting cannot create *)

Lemma fill_rewritten_cons_inv c s t :
  fill_rewritten s (c :: t) -> c <> "f"%char ->
  exists s', s = c :: s' /\ fill_rewritten s' t.
Proof. intros H Hc. inversion H; subst; [eauto|done]. Qed.

Lemma fill_rewritten_f_inv c s t :
  fill_rewritten s ("f"%char :: c :: t) -> c <> "i"%char ->
  exists s', s = "f"%char :: s' /\ fill_rewritten s' (c :: t).
Proof.
  intros H Hc. inversion H as [|? s3 ? H3|v n s3 t3 Hv H3 E1 E2]; [by subst; eauto|].
  by destruct Hc.
Qed.

Lemma fill_rewritten_elem c s t :
  fill_rewritten s t -> c ∈ t -> (forall n, c ∉ url_ref (grad_id n)) -> c ∈ s.
Proof.
  intros H Hin Hc. induction H as [|d s t H IH|v n s t Hv H IH].
  - done.
  - apply elem_of_cons in Hin as [->|Hin]; [left|right; auto].
  - rewrite !elem_of_app in Hin |- *.
    destruct Hin as [?|[?|[?|?]]]; auto. by destruct (Hc n).
Qed.

Lemma occurs_cons_inv (w : str) c s :
  occurs w (c :: s) -> (exists b, c :: s = w ++ b) \/ occurs w s.
Proof.
  intros ([|c' a] & b & H); [left; eauto|right].
  injection H as -> ->. by exists a, b.
Qed.

Lemma occurs_cons (w : str) c s : occurs w s -> occurs w (c :: s).
Proof. intros (a & b & ->). by exists (c :: a), b. Qed.

Lemma occurs_app_l (w x s : str) : occurs w s -> occurs w (x ++ s).
Proof. intros (a & b & ->). exists (x ++ a), b. by rewrite <- app_assoc. Qed.

Lemma occurs_skip c (w x t : str) :
  occurs (c :: w) (x ++ t) -> c ∉ x -> occurs (c :: w) t.
Proof.
  intros (a & b & H) Hc. apply app_eq_skip in H as (a' & -> & ->); [|done].
  by exists a', b.
Qed.

Lemma fill_rewritten_defs s t :
  fill_rewritten s t -> occurs "<defs>" t -> occurs "<defs>" s.
Proof.
  induction 1 as [|c s t H IH|v n s t Hv H IH]; intros Ho.
  - done.
  - apply occurs_cons_inv in Ho as [[b Hb]|Ho]; [|by apply occurs_cons, IH].
    injection Hb as -> ->.
    apply fill_rewritten_cons_inv in H as (s1 & -> & H); [|done].
    apply fill_rewritten_cons_inv in H as (s2 & -> & H); [|done].
    apply fill_rewritten_f_inv in H as (s3 & -> & H); [|done].
    apply fill_rewritten_cons_inv in H as (s4 & -> & H); [|done].
    apply fill_rewritten_cons_inv in H as (s5 & -> & H); [|done].
    by exists [], s5.
  - assert (occurs "<defs>" t) as Ht.
    { apply (occurs_skip _ _ (FILLQ ++ url_ref (grad_id n) ++ [dq]));
        [by rewrite <- !app_assoc|notin]. }
    replace (FILLQ ++ v ++ [dq] ++ s) with ((FILLQ ++ v ++ [dq]) ++ s)
      by (by rewrite <- !app_assoc).
    by apply occurs_app_l, IH.
Qed.

Lemma has_svg_tag_occurs s : has_svg_tag s -> occurs "<svg" s.
Proof. intros (a & b & c & ->). by exists a, (b ++ ">" ++ c). Qed.

Lemma has_svg_tag_cons c s : has_svg_tag s -> has_svg_tag (c :: s).
Proof. intros (a & b & d & ->). by exists (c :: a), b, d. Qed.

Lemma has_svg_tag_app x s : has_svg_tag s -> has_svg_tag (x ++ s).
Proof. intros H. induction x; [done|]. by apply has_svg_tag_cons. Qed.

Lemma fill_rewritten_svg s t :
  fill_rewritten s t -> has_svg_tag t -> has_svg_tag s.
Proof.
  induction 1 as [|c s t H IH|v n s t Hv H IH]; intros (a & b & d & E).
  - by destruct a.
  - destruct a as [|c' a].
    + injection E as -> ->.
      apply fill_rewritten_cons_inv in H as (s1 & -> & H); [|done].
      apply fill_rewritten_cons_inv in H as (s2 & -> & H); [|done].
      apply fill_rewritten_cons_inv in H as (s3 & -> & H); [|done].
      assert (">"%char ∈ s3) as (b' & d' & ->)%list_elem_of_split.
      { eapply fill_rewritten_elem; [done| |apply url_ref_no_gt].
        rewrite !elem_of_app. right. left. }
      by exists [], b', d'.
    + injection E as -> ->. apply has_svg_tag_cons, IH. by exists a, b, d.
  - replace (FILLQ ++ v ++ [dq] ++ s) with ((FILLQ ++ v ++ [dq]) ++ s)
      by (by rewrite <- !app_assoc).
    apply has_svg_tag_app, IH.
    replace (FILLQ ++ url_ref (grad_id n) ++ [dq] ++ t)
      with ((FILLQ ++ url_ref (grad_id n) ++ [dq]) ++ t) in E
      by (by rewrite <- !app_assoc).
    apply app_eq_skip in E as (a' & -> & ->); [|notin]. by exists a', b, d.
Qed.

(** ** The placement of the definitions *)

Lemma search_from_None icase r s pv :
  (forall a b pv' w g s', s = a ++ b -> ~ matches_at icase r pv' b w g s') ->
  search_from icase r pv s = None.
Proof.
  revert pv. induction s as [|c s IH]; intros pv Hno; simpl.
  - destruct (match_at icase r pv []) as [h|] eqn:E; [|done].
    apply match_at_Some in E as (s' & E). by destruct (Hno [] [] pv _ _ _ eq_refl E).
  - destruct (match_at icase r pv (c :: s)) as [h|] eqn:E.
    + apply match_at_Some in E as (s' & E).
      by destruct (Hno [] (c :: s) pv _ _ _ eq_refl E).
    + rewrite IH; [done|]. intros a b pv' w g s' -> Hm.
      by apply (Hno (c :: a) b pv' w g s' eq_refl).
Qed.

Lemma matches_at_svg pv s w g s' :
  matches_at false Modifier.svg_pattern pv s w g s' ->
  exists b, s = "<svg" ++ b ++ ">" ++ s'.
Proof.
  intros [Hs H]. unfold Modifier.svg_pattern in H. cbn [matches] in H.
  destruct H as (mid & H & [= _ Hmid _]).
  apply matches_seqs_cons in H as (m1 & H1 & H).
  apply matches_lit_exact in H1 as (s1 & Hr1 & ->). cbn [rest prev grp] in *.
  apply matches_seqs_cons in H as (m2 & H2 & H).
  apply matches_Star in H2 as (b & s2 & Hr2 & _ & ->). cbn [rest prev grp] in *.
  apply matches_seqs_cons in H as (m3 & H3 & H).
  apply matches_Chr_exact in H3 as (s3 & Hr3 & ->). cbn [rest prev grp] in *.
  apply matches_seqs_nil in H as ->. cbn [rest] in Hmid.
  exists b. by rewrite Hr1, Hr2, Hr3, Hmid.
Qed.

Lemma no_svg_tag_search s :
  ~ has_svg_tag s -> search_from false Modifier.svg_pattern None s = None.
Proof.
  intros Hn. apply search_from_None. intros a b pv' w g s' -> Hm.
  apply matches_at_svg in Hm as (x & ->). apply Hn. by exists a, x, s'.
Qed.

Lemma parse_group_template (block : str) :
  bslash ∉ block ->
  parse_template true ([bslash] ++ "1" ++ "<defs>" ++ block)
  = Some (TGroup1 :: map TLit ("<defs>" ++ block)).
Proof.
  intros Hb.
  change (parse_template true _)
    with (cons TGroup1 <$> parse_template true ("<defs>" ++ block)).
  rewrite parse_template_literal; [done|]. notin.
Qed.

(** ** No backslash in the definitions *)

Lemma COLOR_MAP_value_no_bslash k v : COLOR_MAP !! k = Some v -> bslash ∉ v.
Proof.
  unfold COLOR_MAP. intros H%elem_of_list_to_map_2.
  apply not_elem_of_literal. change v with (k, v).2. revert H.
  generalize (k, v). apply Forall_forall.
  repeat (constructor; [vm_compute; reflexivity|]). constructor.
Qed.

Lemma str_of_Z_no_bslash z : bslash ∉ str_of_Z z.
Proof.
  intros Hin. pose proof (str_of_Z_chars z) as H.
  rewrite Forall_forall in H. by apply H in Hin.
Qed.

Lemma stop_element_no_bslash stop :
  bslash ∉ color stop -> bslash ∉ Modifier.stop_element stop.
Proof.
  intros Hc. unfold Modifier.stop_element.
  assert (bslash ∉ (if negb (startswith "#" (color stop))
                       && bool_decide (is_Some (COLOR_MAP !! lower (color stop)))
                    then default (color stop) (COLOR_MAP !! lower (color stop))
                    else color stop)) as Hv.
  { destruct (_ && _); [|done].
    destruct (COLOR_MAP !! lower (color stop)) eqn:E; [|done].
    by eapply COLOR_MAP_value_no_bslash. }
  pose proof (str_of_Z_no_bslash (offset stop)). notin.
Qed.

Lemma gradient_def_no_bslash n g :
  Forall (fun stop => bslash ∉ color stop) (stops g) ->
  bslash ∉ Modifier.gradient_def (grad_id n) g.
Proof.
  intros Hs. unfold Modifier.gradient_def. apply not_elem_of_app. split;
    [|apply not_elem_of_app; split].
  - unfold Modifier.gradient_open. repeat case_bool_decide; notin.
  - induction Hs as [|stop l Hstop _ IH]; cbn [map concat]; [apply not_elem_of_nil|].
    apply not_elem_of_app. split; [by apply stop_element_no_bslash|done].
  - unfold Modifier.gradient_close. case_bool_decide; notin.
Qed.

Lemma step_defs_no_bslash n sts :
  Forall (fun st => Forall (fun stop => bslash ∉ color stop) (stops (gradient st))) sts ->
  bslash ∉ concat (step_defs n sts).
Proof.
  intros H. revert n. induction H as [|st sts Hst _ IH]; intros n;
    cbn [step_defs concat].
  - apply not_elem_of_nil.
  - apply not_elem_of_app. split; [by apply gradient_def_no_bslash|apply IH].
Qed.

Lemma definitions_block_eq frags :
  Modifier.definitions_block frags = "<defs>" ++ (concat frags ++ "</defs>").
Proof. reflexivity. Qed.

(** C10: for every document that holds neither [<defs>] nor a [<svg ...>]
    tag, [apply_gradients] returns the fill-patched text and nothing else:
    no definitions block is put anywhere, so the text holds no [<defs>], and
    the collected definitions are dropped. *)
Theorem apply_without_root_discards_definitions (doc : str) (spec : Specification) :
  plain_colors spec ->
  ~ occurs "<defs>" doc ->
  ~ has_svg_tag doc ->
  exists patched frags,
    Modifier.apply_steps (steps spec) doc [] 1 = Some (patched, frags)
    /\ Modifier.apply_gradients doc spec = Some patched
    /\ ~ occurs "<defs>" patched.
Proof.
  intros Hplain Hdefs Hsvg.
  destruct (apply_steps_inv (fun s => ~ occurs "<defs>" s /\ ~ has_svg_tag s)
              (fun s t Hst '(conj H1 H2) =>
                 conj (fun H => H1 (fill_rewritten_defs s t Hst H))
                      (fun H => H2 (fill_rewritten_svg s t Hst H)))
              (steps spec) doc [] 1%nat (conj Hdefs Hsvg))
    as (patched & frags & E & Hd & Hs).
  exists patched, frags. split_and!; [done| |done].
  unfold Modifier.apply_gradients. rewrite E. simpl.
  unfold Modifier.place_definitions.
  apply contains_false in Hd as ->.
  unfold re_sub1. change (has_group Modifier.svg_pattern) with true.
  rewrite definitions_block_eq, parse_group_template.
  - simpl. by rewrite no_svg_tag_search.
  - apply apply_steps_defs in E as ->. simpl.
    apply not_elem_of_app. split; [by apply step_defs_no_bslash|notin].
Qed.

(** ** Scans with no match, and with one *)

Section scans.
Context (icase : bool) (r : regex).


Lemma no_match_in_tail c s : no_match_in icase r (c :: s) -> no_match_in icase r s.
Proof. intros H a b pv w g s' ->. by apply (H (c :: a) b). Qed.

Lemma scan_no_match s pv : no_match_in icase r s -> scan icase r pv s 0 = map TChr s.
Proof.
  revert pv. induction s as [|c s IH]; intros pv Hno.
  - apply scan_nil_miss. destruct (match_at icase r pv []) eqn:E; [|done].
    apply match_at_Some in E as (s' & E). by destruct (Hno [] [] pv _ _ _ eq_refl E).
  - rewrite scan_miss.
    + simpl. f_equal. apply IH. by eapply no_match_in_tail.
    + destruct (match_at icase r pv (c :: s)) eqn:E; [|done].
      apply match_at_Some in E as (s' & E).
      by destruct (Hno [] (c :: s) pv _ _ _ eq_refl E).
Qed.

(** Every hit of a scan is a match at its place. *)
Lemma scan_hits_sound (s : str) pv h :
  THit h ∈ scan icase r pv s 0 ->
  exists a pv' s', s = a ++ h_text h ++ s'
                   /\ matches_at icase r pv' (h_text h ++ s') (h_text h) (h_grp h) s'.
Proof.
  remember (length s) as m eqn:Hm. revert s pv Hm.
  induction m as [m IH] using lt_wf_ind. intros s pv -> Hin.
  assert (Htail : forall c s1 pv1, s = c :: s1 -> THit h ∈ scan icase r pv1 s1 0 ->
            exists a pv' s', s = a ++ h_text h ++ s'
              /\ matches_at icase r pv' (h_text h ++ s') (h_text h) (h_grp h) s').
  { intros c s1 pv1 -> Hin1.
    destruct (IH (length s1) ltac:(simpl; lia) s1 pv1 eq_refl Hin1)
      as (a & pv' & s' & -> & Hm').
    by exists (c :: a), pv', s'. }
  destruct (match_at icase r pv s) as [h0|] eqn:E.
  - pose proof E as (s' & Hm)%match_at_Some.
    pose proof (matches_at_text _ _ _ _ _ _ _ Hm) as Hs.
    assert (Hhere : exists a pv' s', s = a ++ h_text h0 ++ s'
              /\ matches_at icase r pv' (h_text h0 ++ s') (h_text h0) (h_grp h0) s').
    { exists [], pv, s'. split; [done|]. by rewrite <- Hs. }
    destruct (decide (h_text h0 = [])) as [Hw|Hw].
    + destruct s as [|c s1]; simpl in Hin; rewrite E, ?Hw in Hin; simpl in Hin.
      * apply list_elem_of_singleton in Hin as [= ->]. done.
      * apply elem_of_cons in Hin as [[= ->]|Hin]; [done|].
        apply elem_of_cons in Hin as [?|Hin]; [done|]. by eapply Htail.
    + rewrite (scan_hit _ _ _ _ _ s' E) in Hin by done.
      apply elem_of_cons in Hin as [[= ->]|Hin]; [done|].
      assert (length s' < length s)%nat as Hlt.
      { rewrite Hs, length_app. destruct (h_text h0); [done|]. simpl. lia. }
      destruct (IH (length s') Hlt s' _ eq_refl Hin) as (a & pv' & s'' & -> & Hm').
      exists (h_text h0 ++ a), pv', s''. split; [|done].
      by rewrite Hs, <- !app_assoc.
  - destruct s as [|c s].
    + rewrite scan_nil_miss in Hin by done. by apply elem_of_nil in Hin.
    + rewrite scan_miss in Hin by done.
      apply elem_of_cons in Hin as [?|Hin]; [done|]. by eapply Htail.
Qed.


Lemma ends_at_no_match post : ends_at icase r post post -> no_match_in icase r post.
Proof.
  intros H a b pv w g s' E Hm.
  destruct (H _ _ _ _ _ _ E Hm) as [-> Hw].
  apply matches_at_text in Hm. subst b.
  apply (f_equal length) in E. rewrite !length_app in E.
  destruct w; [done|]. simpl in E. lia.
Qed.

Lemma scan_one_region post s pv :
  ends_at icase r post s ->
  (exists a w g, s = a ++ w ++ post
                 /\ matches_at icase r (last_prev pv a) (w ++ post) w g post) ->
  exists a h, s = a ++ h_text h ++ post
              /\ matches_at icase r (last_prev pv a) (h_text h ++ post)
                   (h_text h) (h_grp h) post
              /\ scan icase r pv s 0 = map TChr a ++ THit h :: map TChr post.
Proof.
  revert pv. induction s as [|c s IH]; intros pv Hends (a & w & g & Hs & Hm).
  - destruct a; [|done]. destruct w; [|done]. simpl in Hs. subst post.
    by destruct (Hends [] [] _ _ _ _ eq_refl Hm) as [_ ?].
  - assert (ends_at icase r post post) as Hpost.
    { intros a' b' pv' w' g' s' E. apply (Hends ((a ++ w) ++ a') b').
      by rewrite Hs, E, <- !app_assoc. }
    destruct (match_at icase r pv (c :: s)) as [h|] eqn:E.
    + pose proof E as (s' & Hm')%match_at_Some.
      destruct (Hends [] _ _ _ _ _ eq_refl Hm') as [-> Hne].
      exists [], h. pose proof (matches_at_text _ _ _ _ _ _ _ Hm') as Hs'.
      split_and!; [done|by rewrite <- Hs'|].
      rewrite (scan_hit _ _ _ _ _ post E) by done. simpl. f_equal.
      apply scan_no_match. by apply ends_at_no_match.
    + destruct a as [|c' a].
      { simpl in Hs. rewrite last_prev_nil, <- Hs in Hm.
        apply match_at_is_Some in Hm as [? ?]. congruence. }
      injection Hs as <- ->. rewrite last_prev_cons in Hm.
      destruct (IH (Some c)) as (a0 & h & Hs0 & Hm0 & Hscan).
      { intros a' b' pv' w' g' s' E'. apply (Hends (c :: a') b'). by rewrite E'. }
      { by exists a, w, g. }
      exists (c :: a0), h. rewrite last_prev_cons. split_and!; [by rewrite Hs0|done|].
      rewrite scan_miss by done. by rewrite Hscan.
Qed.
End scans.

(** ** Text lemmas *)

(** A prefix without [c] of a text whose first [c] comes after [X] lies
    inside [X]. *)
Lemma free_prefix (c : ascii) (P R X Y : str) :
  P ++ R = X ++ c :: Y -> c ∉ P -> c ∉ X ->
  exists R', X = P ++ R' /\ R = R' ++ c :: Y.
Proof.
  revert X. induction P as [|d P IH]; intros X E HP HX; [by exists X|].
  apply not_elem_of_cons in HP as [Hd HP].
  destruct X as [|x X]; simpl in E.
  - injection E as -> _. done.
  - injection E as -> E. apply not_elem_of_cons in HX as [_ HX].
    destruct (IH _ E HP HX) as (R' & -> & ->). by exists R'.
Qed.

(** Two texts without [c] followed by [c] and equal as wholes are equal. *)
Lemma first_char_unique (c : ascii) (v v' s s' : str) :
  v ++ c :: s = v' ++ c :: s' -> c ∉ v -> c ∉ v' -> v = v' /\ s = s'.
Proof.
  intros E Hv Hv'.
  destruct (not_elem_of_app_cons_inv_l c c v s v' s' Hv' Hv E) as (-> & _ & ->).
  done.
Qed.

Lemma render_chars tpl (a : str) : concat (map (render tpl) (map TChr a)) = a.
Proof. induction a as [|c a IH]; [done|]. simpl. by rewrite IH. Qed.

Lemma render_region tpl (a : str) h (post : str) :
  concat (map (render tpl) (map TChr a ++ THit h :: map TChr post))
  = a ++ expand tpl h ++ post.
Proof.
  rewrite map_app, concat_app, render_chars. simpl. by rewrite render_chars.
Qed.

(** ** The matches of the id pattern *)



Lemma matches_id_group eid st mid :
  matches false (id_group eid) st mid <->
  exists a b s', rest st = a ++ IDQ eid ++ b ++ s' /\ (">"%char ∉ a) /\ (">"%char ∉ b)
                 /\ mid = MState (last_prev (prev st) (a ++ IDQ eid ++ b)) s' (grp st).
Proof.
  unfold id_group. split.
  - intros H.
    apply matches_seqs_cons in H as (m1 & H1 & H).
    apply matches_Star in H1 as (a & s1 & Hr1 & Ha & ->). cbn [rest prev grp] in *.
    apply matches_seqs_cons in H as (m2 & H2 & H).
    apply matches_lit_exact in H2 as (s2 & Hr2 & ->). cbn [rest prev grp] in *.
    apply matches_seqs_cons in H as (m3 & H3 & H).
    apply matches_Star in H3 as (b & s3 & Hr3 & Hb & ->). cbn [rest prev grp] in *.
    apply matches_seqs_nil in H as ->.
    exists a, b, s3. rewrite !last_prev_app.
    split_and!; [by rewrite Hr1, Hr2, Hr3|by apply Forall_not_char..|done].
  - intros (a & b & s' & Hr & Ha & Hb & ->).
    apply matches_seqs_cons. eexists. split.
    { apply matches_Star. exists a, (IDQ eid ++ b ++ s').
      split_and!; [done|by apply Forall_not_char|reflexivity]. }
    apply matches_seqs_cons. eexists. split.
    { apply matches_lit_exact. exists (b ++ s'). split; [done|reflexivity]. }
    apply matches_seqs_cons. eexists. split.
    { apply matches_Star. exists b, s'.
      split_and!; [done|by apply Forall_not_char|reflexivity]. }
    apply matches_seqs_nil. cbn [rest prev grp]. by rewrite !last_prev_app.
Qed.


(** ** Patching the element with a given id *)

Section patch_id.
Context (eid pre a b v c post : str).
Hypothesis Ha : ">"%char ∉ a.
Hypothesis Hbody : ">"%char ∉ b ++ FILLQ ++ v ++ [dq] ++ c.
Hypothesis Hv : dq ∉ v.
Hypothesis Hid :
  only_at (IDQ eid) (pre ++ "<" ++ a) ((b ++ FILLQ ++ v ++ [dq] ++ c) ++ ">" ++ post).
Hypothesis Hfill : only_at FILLQ b (v ++ [dq] ++ c).

Let doc : str :=
  pre ++ "<" ++ a ++ IDQ eid ++ b ++ FILLQ ++ v ++ [dq] ++ c ++ ">" ++ post.



End patch_id.

(** ** Checking that a text occurs once *)

Lemma occurrences_from_spec (w a b : str) i :
  (i + length a)%nat ∈ occurrences_from w (a ++ w ++ b) i.
Proof.
  revert i. induction a as [|c a IH]; intros i.
  - cbn [app length]. rewrite Nat.add_0_r.
    assert (startswith w (w ++ b) = true) as Hs by (apply startswith_prefix; eauto).
    destruct (w ++ b) as [|x s]; cbn [occurrences_from]; rewrite Hs; by left.
  - cbn [app length occurrences_from]. apply elem_of_app. right.
    replace (i + S (length a))%nat with (S i + length a)%nat by lia. apply IH.
Qed.

Lemma only_at_check (w a b : str) :
  occurrences_from w (a ++ w ++ b) 0 = [length a] -> only_at w a b.
Proof.
  intros H a' b' E.
  pose proof (occurrences_from_spec w a' b' 0) as Hin.
  rewrite <- E, H in Hin. apply list_elem_of_singleton in Hin. simpl in Hin.
  apply (f_equal (take (length a))) in E.
  rewrite take_app_length in E. rewrite <- Hin, take_app_length in E. done.
Qed.

(** ** The matches of the two placement patterns *)

Lemma matches_at_defs pv s w g s' :
  matches_at false Modifier.defs_pattern pv s w g s' <->
  exists m, w = "<defs>" ++ m ++ "</defs>" /\ s = w ++ s' /\ g = None.
Proof.
  unfold matches_at, Modifier.defs_pattern. split.
  - intros [Hs H].
    apply matches_seqs_cons in H as (m1 & H1 & H).
    apply matches_lit_exact in H1 as (s1 & Hr1 & ->). cbn [rest prev grp] in *.
    apply matches_seqs_cons in H as (m2 & H2 & H).
    cbn [matches] in H2. destruct H2 as (m & s2 & Hr2 & _ & _ & _ & ->).
    cbn [rest prev grp] in *.
    apply matches_seqs_cons in H as (m3 & H3 & H).
    apply matches_lit_exact in H3 as (s3 & Hr3 & ->). cbn [rest prev grp] in *.
    apply matches_seqs_nil in H as [= _ Hs3 Hg]. subst s3.
    exists m. split_and!; [|done..].
    apply (app_inj_2 _ _ s' s'); [done|].
    rewrite <- Hs, Hr1, Hr2, Hr3. by rewrite <- ?app_assoc.
  - intros (m & -> & -> & ->). split; [done|].
    apply matches_seqs_cons. eexists. split.
    { apply matches_lit_exact. exists (m ++ "</defs>" ++ s'). cbn [rest].
      split; [by rewrite <- ?app_assoc|reflexivity]. }
    apply matches_seqs_cons. eexists. split.
    { cbn [matches]. exists m, ("</defs>" ++ s'). cbn [rest prev grp].
      split_and!; [done|by apply Forall_true|lia|done|reflexivity]. }
    apply matches_seqs_cons. eexists. split.
    { apply matches_lit_exact. exists s'. split; [done|reflexivity]. }
    apply matches_seqs_nil. cbn [rest prev grp].
    by rewrite <- !last_prev_app.
Qed.

Lemma matches_at_svg_iff pv s w g s' :
  matches_at false Modifier.svg_pattern pv s w g s' <->
  exists b, w = "<svg" ++ b ++ ">" /\ s = w ++ s' /\ g = Some w /\ (">"%char ∉ b).
Proof.
  unfold matches_at, Modifier.svg_pattern. split.
  - intros [Hs H]. cbn [matches] in H. destruct H as (mid & H & [= Hp Hmid Hg]).
    apply matches_seqs_cons in H as (m1 & H1 & H).
    apply matches_lit_exact in H1 as (s1 & Hr1 & ->). cbn [rest prev grp] in *.
    apply matches_seqs_cons in H as (m2 & H2 & H).
    apply matches_Star in H2 as (b & s2 & Hr2 & Hb & ->). cbn [rest prev grp] in *.
    apply matches_seqs_cons in H as (m3 & H3 & H).
    apply matches_Chr_exact in H3 as (s3 & Hr3 & ->). cbn [rest prev grp] in *.
    apply matches_seqs_nil in H as ->. cbn [rest prev grp] in *. subst s3.
    assert (w = "<svg" ++ b ++ ">") as ->.
    { apply (app_inj_2 _ _ s' s'); [done|].
      rewrite <- Hs, Hr1, Hr2, Hr3. by rewrite <- ?app_assoc. }
    exists b. split_and!; [done..| |by apply Forall_not_char].
    rewrite Hg, Hs. by rewrite take_app_minus.
  - intros (b & -> & -> & -> & Hb). split; [done|].
    cbn [matches].
    exists (MState (last_prev pv ("<svg" ++ b ++ ">")) s' None). split.
    + apply matches_seqs_cons. eexists. split.
      { apply matches_lit_exact. exists (b ++ ">" ++ s'). cbn [rest].
        split; [by rewrite <- ?app_assoc|reflexivity]. }
      apply matches_seqs_cons. eexists. split.
      { apply matches_Star. exists b, (">" ++ s'). cbn [rest prev grp].
        split_and!; [done|by apply Forall_not_char|reflexivity]. }
      apply matches_seqs_cons. eexists. split.
      { apply matches_Chr_exact. exists s'. split; [done|reflexivity]. }
      apply matches_seqs_nil. cbn [rest prev grp]. f_equal.
      by rewrite !last_prev_app.
    + cbn [rest prev grp]. by rewrite take_app_minus.
Qed.

(** ** Replacing the one definitions block *)

Lemma replace_defs (block pre mid post : str) :
  bslash ∉ block ->
  only_at "<defs>" pre (mid ++ "</defs>" ++ post) ->
  only_at "</defs>" (pre ++ "<defs>" ++ mid) post ->
  re_sub false Modifier.defs_pattern block (pre ++ "<defs>" ++ mid ++ "</defs>" ++ post)
  = Some (pre ++ block ++ post).
Proof.
  intros Hb Hopen Hclose. unfold re_sub.
  change (has_group Modifier.defs_pattern) with false.
  rewrite parse_template_literal by done. cbn [mbind option_bind]. f_equal.
  unfold tokens.
  assert (Huniq : forall a0 b0 pv w g s',
            pre ++ "<defs>" ++ mid ++ "</defs>" ++ post = a0 ++ b0 ->
            matches_at false Modifier.defs_pattern pv b0 w g s' ->
            a0 = pre /\ w = "<defs>" ++ mid ++ "</defs>" /\ s' = post).
  { intros a0 b0 pv w g s' E Hm.
    apply matches_at_defs in Hm as (m & -> & -> & _).
    assert (a0 = pre) as ->.
    { apply (Hopen a0 (m ++ "</defs>" ++ s')). rewrite E. by rewrite <- ?app_assoc. }
    assert (pre ++ "<defs>" ++ m = pre ++ "<defs>" ++ mid) as Em.
    { apply (Hclose _ s'). rewrite <- ?app_assoc. rewrite <- ?app_assoc in E.
      by rewrite E. }
    do 2 apply app_inv_head in Em. subst m.
    split_and!; [done..|].
    rewrite <- ?app_assoc in E. by do 4 apply app_inv_head in E. }
  destruct (scan_one_region false Modifier.defs_pattern post
              (pre ++ "<defs>" ++ mid ++ "</defs>" ++ post) None)
    as (a0 & h & Hs & Hm & ->).
  { intros a0 b0 pv w g s' E Hm.
    destruct (Huniq _ _ _ _ _ _ E Hm) as (_ & -> & ->). done. }
  { exists pre, ("<defs>" ++ mid ++ "</defs>"), None.
    split; [by rewrite <- ?app_assoc|]. apply matches_at_defs. by exists mid. }
  destruct (Huniq _ _ _ _ _ _ Hs Hm) as (-> & _ & _).
  by rewrite render_region, expand_literal.
Qed.

(** ** Inserting after the first root tag *)

Lemma search_from_at icase r (pre s : str) pv h :
  (forall a b pv' w g s', pre = a ++ b -> b <> [] ->
     ~ matches_at icase r pv' (b ++ s) w g s') ->
  match_at icase r (last_prev pv pre) s = Some h ->
  search_from icase r pv (pre ++ s) = Some (pre, h).
Proof.
  revert pv. induction pre as [|c pre IH]; intros pv Hno Hm.
  - rewrite last_prev_nil in Hm. cbn [app].
    destruct s; cbn [search_from]; by rewrite Hm.
  - cbn [app search_from].
    destruct (match_at icase r pv (c :: pre ++ s)) as [h'|] eqn:E.
    { apply match_at_Some in E as (s' & E).
      by destruct (Hno [] (c :: pre) pv _ _ _ eq_refl ltac:(done) E). }
    rewrite IH; [done| |by rewrite last_prev_cons in Hm].
    intros a b pv' w g s' -> Hb. by apply (Hno (c :: a) b).
Qed.

Lemma svg_not_before (pre b R x : str) :
  ~ occurs "<svg" pre -> b <> [] -> (exists a, pre = a ++ b) ->
  b ++ "<svg" ++ R <> "<svg" ++ x.
Proof.
  intros Hno Hb [a0 ->] E.
  destruct b as [|c1 [|c2 [|c3 [|c4 b]]]]; try done; simplify_eq.
  apply Hno. by exists a0, b.
Qed.

Lemma expand_group_literal (t : str) h :
  expand (TGroup1 :: map TLit t) h = default [] (h_grp h) ++ t.
Proof.
  pose proof (expand_literal t h) as E. unfold expand in *.
  cbn [map concat]. by rewrite E.
Qed.

Lemma insert_after_root (block pre a post : str) :
  bslash ∉ block ->
  ~ occurs "<svg" pre ->
  ">"%char ∉ a ->
  re_sub1 false Modifier.svg_pattern ([bslash] ++ "1" ++ "<defs>" ++ block)
    (pre ++ "<svg" ++ a ++ ">" ++ post)
  = Some (pre ++ "<svg" ++ a ++ ">" ++ ("<defs>" ++ block) ++ post).
Proof.
  intros Hb Hpre Ha. unfold re_sub1.
  change (has_group Modifier.svg_pattern) with true.
  rewrite parse_group_template by done. cbn [mbind option_bind]. f_equal.
  destruct (match_at false Modifier.svg_pattern (last_prev None pre)
              ("<svg" ++ a ++ ">" ++ post)) as [h|] eqn:E.
  2: { assert (is_Some (match_at false Modifier.svg_pattern (last_prev None pre)
                          ("<svg" ++ a ++ ">" ++ post))) as [? ?]; [|congruence].
       eapply (match_at_is_Some _ _ _ _ ("<svg" ++ a ++ ">") _ post).
       apply matches_at_svg_iff. exists a. split_and!; [done| |done..].
       by rewrite <- ?app_assoc. }
  pose proof E as (s' & Hm)%match_at_Some.
  apply matches_at_svg_iff in Hm as (b & Hw & Hs & Hg & Hb').
  assert (b = a /\ s' = post) as [-> ->].
  { rewrite Hw in Hs. rewrite <- ?app_assoc in Hs. apply app_inv_head in Hs.
    change (a ++ ">"%char :: post = b ++ ">"%char :: s') in Hs.
    by apply first_char_unique in Hs as [-> ->]. }
  rewrite (search_from_at _ _ pre _ None h); [| |done].
  - destruct h as [w g]. cbn [h_text h_grp] in *. subst g w.
    rewrite expand_group_literal. cbn [h_grp h_text default].
    rewrite <- length_app.
    replace (pre ++ "<svg" ++ a ++ ">" ++ post)
      with ((pre ++ "<svg" ++ a ++ ">") ++ post) by (by rewrite <- ?app_assoc).
    rewrite drop_app_length. unfold id. by rewrite <- ?app_assoc.
  - intros a0 b0 pv' w g s' -> Hb0 Hm.
    apply matches_at_svg_iff in Hm as (x & -> & Hs' & _).
    rewrite <- ?app_assoc in Hs'.
    by eapply (svg_not_before (a0 ++ b0) b0 _ _ Hpre Hb0 (ex_intro _ a0 eq_refl)).
Qed.

Lemma apply_steps_total sts s defs n :
  exists t, Modifier.apply_steps sts s defs n = Some (t, defs ++ step_defs n sts).
Proof.
  destruct (apply_steps_inv (fun _ => True) (fun _ _ _ _ => I) sts s defs n I)
    as (t & frags & E & _).
  exists t. by rewrite (apply_steps_defs _ _ _ _ _ _ E) in E.
Qed.

Lemma definitions_block_no_bslash spec :
  plain_colors spec ->
  bslash ∉ Modifier.definitions_block (step_defs 1 (steps spec)).
Proof.
  intros H. unfold Modifier.definitions_block.
  pose proof (step_defs_no_bslash 1 _ H). notin.
Qed.

Lemma unclosed_defs_kept (block s : str) :
  bslash ∉ block -> ~ occurs "</defs>" s ->
  re_sub false Modifier.defs_pattern block s = Some s.
Proof.
  intros Hb Hno. unfold re_sub.
  change (has_group Modifier.defs_pattern) with false.
  rewrite parse_template_literal by done. cbn [mbind option_bind]. f_equal.
  unfold tokens. rewrite scan_no_match.
  - apply render_chars.
  - intros a b pv w g s' -> Hm. apply matches_at_defs in Hm as (m & -> & -> & _).
    apply Hno. exists (a ++ "<defs>" ++ m), s'. by rewrite <- ?app_assoc.
Qed.


(** C3, as amended: the definitions are placed in the fill-patched text.
    Where that text holds [<defs>] once and [</defs>] once, after it, the
    stretch from the one to the other is replaced by the new block, the old
    content gone.  Where it holds no [<defs>], the new block is put right
    after the first [<svg ...>] tag.  The new block holds the definitions of
    all steps, in order, and nothing more. *)
Theorem definitions_placement (doc : str) (spec : Specification) :
  plain_colors spec ->
  exists patched,
    let block := Modifier.definitions_block (step_defs 1 (steps spec)) in
    Modifier.apply_steps (steps spec) doc [] 1 = Some (patched, step_defs 1 (steps spec))
    /\ (forall pre mid post,
          patched = pre ++ "<defs>" ++ mid ++ "</defs>" ++ post ->
          only_at "<defs>" pre (mid ++ "</defs>" ++ post) ->
          only_at "</defs>" (pre ++ "<defs>" ++ mid) post ->
          Modifier.apply_gradients doc spec = Some (pre ++ block ++ post))
    /\ (forall pre a post,
          patched = pre ++ "<svg" ++ a ++ ">" ++ post ->
          ~ occurs "<defs>" patched -> ~ occurs "<svg" pre -> (">"%char ∉ a) ->
          Modifier.apply_gradients doc spec
          = Some (pre ++ "<svg" ++ a ++ ">" ++ block ++ post)).
Proof.
  intros Hplain. destruct (apply_steps_total (steps spec) doc [] 1) as [patched E].
  cbn [app] in E. exists patched. intros block.
  pose proof (definitions_block_no_bslash spec Hplain) as Hb. fold block in Hb.
  assert (Modifier.apply_gradients doc spec
          = Modifier.place_definitions block patched) as ->.
  { unfold Modifier.apply_gradients. by rewrite E. }
  split_and!; [done|..].
  - intros pre mid post -> Hopen Hclose. unfold Modifier.place_definitions.
    assert (contains "<defs>" (pre ++ "<defs>" ++ mid ++ "</defs>" ++ post) = true)
      as -> by (apply contains_occurs; by exists pre, (mid ++ "</defs>" ++ post)).
    by apply replace_defs.
  - intros pre a post -> Hno Hpre Ha. unfold Modifier.place_definitions.
    apply contains_false in Hno as ->. unfold block in *.
    rewrite definitions_block_eq in *.
    rewrite insert_after_root; [by rewrite <- ?app_assoc| |done..].
    apply not_elem_of_app. split; [by apply step_defs_no_bslash|notin].
Qed.

Lemma definitions_placement_witness :
  exists patched,
    let block := Modifier.definitions_block (step_defs 1 (steps hero_spec)) in
    Modifier.apply_steps (steps hero_spec) "<svg><defs>old</defs></svg>" [] 1
    = Some (patched, step_defs 1 (steps hero_spec))
    /\ (forall pre mid post,
          patched = pre ++ "<defs>" ++ mid ++ "</defs>" ++ post ->
          only_at "<defs>" pre (mid ++ "</defs>" ++ post) ->
          only_at "</defs>" (pre ++ "<defs>" ++ mid) post ->
          Modifier.apply_gradients "<svg><defs>old</defs></svg>" hero_spec
          = Some (pre ++ block ++ post))
    /\ (forall pre a post,
          patched = pre ++ "<svg" ++ a ++ ">" ++ post ->
          ~ occurs "<defs>" patched -> ~ occurs "<svg" pre -> (">"%char ∉ a) ->
          Modifier.apply_gradients "<svg><defs>old</defs></svg>" hero_spec
          = Some (pre ++ "<svg" ++ a ++ ">" ++ block ++ post)).
Proof.
  apply (definitions_placement "<svg><defs>old</defs></svg>" hero_spec).
  repeat constructor; apply not_elem_of_literal; vm_compute; reflexivity.
Defined.

(** C3 as stated fails: [<svg><defs></svg>] has a root tag and no
    definitions block, and the new block is put nowhere; and a document with
    two blocks comes back with two, each holding the new definitions. *)
Lemma unclosed_or_repeated_defs :
  Modifier.apply_gradients "<svg><defs></svg>" hero_spec = Some ("<svg><defs></svg>" : str)
  /\ Modifier.apply_gradients "<svg><defs>a</defs><defs>b</defs></svg>" hero_spec
     = Some ("<svg>" ++ Modifier.definitions_block [Modifier.gradient_def "grad1" red_to_blue]
             ++ Modifier.definitions_block [Modifier.gradient_def "grad1" red_to_blue]
             ++ "</svg>").
Proof. split; vm_compute; reflexivity. Qed.



Lemma apply_without_root_discards_definitions_witness :
  exists patched frags,
    Modifier.apply_steps (steps hero_spec) "<g><rect/></g>" [] 1 = Some (patched, frags)
    /\ Modifier.apply_gradients "<g><rect/></g>" hero_spec = Some patched
    /\ ~ occurs "<defs>" patched.
Proof.
  apply (apply_without_root_discards_definitions "<g><rect/></g>" hero_spec).
  - repeat constructor; apply not_elem_of_literal; vm_compute; reflexivity.
  - apply contains_false. vm_compute. reflexivity.
  - intros H%has_svg_tag_occurs. revert H. apply contains_false. vm_compute. reflexivity.
Defined.

(** C5: the hex pattern is [{3,6}], three to six hex digits.  In
    [#abcd to blue] the token [#abcd], of four digits, is taken as a color
    and becomes the stop at offset 0. *)
Theorem four_digit_hex_token :
  re_findall true Parser.color_pattern "#abcd to blue" = ["#abcd" : str; "blue" : str]
  /\ Parser.parse_instruction "#abcd to blue"
     = Some {| steps :=
         [ {| targets := [ {| selector := "rect"; description := "element" |} ];
              gradient := {| type := "linear"; direction := "horizontal";
                             stops := [ {| offset := 0; color := "#abcd" |};
                                        {| offset := 100; color := "#0000ff" |} ] |} |} ] |}.
Proof. split; vm_compute; reflexivity. Qed.

(** C7: the pattern that collects the ids takes one value for each tag,
    the one after the last [id=Q] of the tag, whatever the name of the
    attribute ends with.  A gradient with [id=QgradXQ] followed by
    [data-id=Qg1Q] is not seen and the reference to it is reported; a
    [data-id=QgradXQ] alone counts as the definition of [gradX]. *)
Theorem last_id_of_tag_only :
  Checker.gradient_references two_ids_doc = ["gradX" : str]
  /\ Checker.gradient_definitions two_ids_doc = ["g1" : str]
  /\ errors (Checker.validate_svg two_ids_doc) = [Checker.lacks_definition "gradX"]
  /\ Checker.gradient_definitions dangling_doc = ["gradX" : str]
  /\ errors (Checker.validate_svg dangling_doc) = [].
Proof. split_and!; vm_compute; reflexivity. Qed.

(** * Further properties *)

(** ** Searches *)

Lemma search_from_Some icase r pv s a h :
  search_from icase r pv s = Some (a, h) ->
  exists s', s = a ++ h_text h ++ s'
             /\ matches_at icase r (last_prev pv a) (h_text h ++ s') (h_text h) (h_grp h) s'.
Proof.
  revert pv a. induction s as [|c s IH]; intros pv a H; cbn [search_from] in H.
  - destruct (match_at icase r pv []) as [h'|] eqn:E; [|done]. injection H as <- <-.
    apply match_at_Some in E as (s' & E). exists s'.
    pose proof (matches_at_text _ _ _ _ _ _ _ E) as Hs. split; [done|].
    by rewrite last_prev_nil, <- Hs.
  - destruct (match_at icase r pv (c :: s)) as [h'|] eqn:E.
    + injection H as <- <-. apply match_at_Some in E as (s' & E). exists s'.
      pose proof (matches_at_text _ _ _ _ _ _ _ E) as Hs. split; [done|].
      by rewrite last_prev_nil, <- Hs.
    + destruct (search_from icase r (Some c) s) as [[a' h']|] eqn:E'; [|done].
      injection H as <- <-. apply IH in E' as (s' & -> & Hm). exists s'.
      split; [done|]. by rewrite last_prev_cons.
Qed.

Lemma search_from_is_Some icase r pv a b w g s' :
  matches_at icase r (last_prev pv a) b w g s' ->
  is_Some (search_from icase r pv (a ++ b)).
Proof.
  revert pv. induction a as [|c a IH]; intros pv Hm.
  - rewrite last_prev_nil in Hm. apply match_at_is_Some in Hm as [h Hh].
    cbn [app]. destruct b; cbn [search_from]; rewrite Hh; eauto.
  - cbn [app search_from]. destruct (match_at icase r pv (c :: a ++ b)); [eauto|].
    rewrite last_prev_cons in Hm. destruct (IH _ Hm) as [[a' h'] ->]. eauto.
Qed.

Lemma re_search_Some icase r s h :
  re_search icase r s = Some h ->
  exists a pv s', s = a ++ h_text h ++ s'
                  /\ matches_at icase r pv (h_text h ++ s') (h_text h) (h_grp h) s'.
Proof.
  unfold re_search. destruct (search_from icase r None s) as [[a h']|] eqn:E; [|done].
  intros [= <-]. apply search_from_Some in E as (s' & Hs & Hm). eauto.
Qed.

(** ** Groups *)

Lemma matches_no_group icase r st st' :
  has_group r = false -> matches icase r st st' -> grp st' = grp st.
Proof.
  revert st st'. induction r as [|a|p|r1 IH1 r2 IH2|r1 IH1 r2 IH2|g p lo extra|r IH| |];
    intros st st' Hg H; cbn [matches has_group] in *.
  - by subst.
  - by destruct H as (c & s' & _ & _ & ->).
  - by destruct H as (c & s' & _ & _ & ->).
  - apply orb_false_iff in Hg as [Hg1 Hg2]. destruct H as (mid & H1 & H2).
    by rewrite (IH2 _ _ Hg2 H2), (IH1 _ _ Hg1 H1).
  - apply orb_false_iff in Hg as [Hg1 Hg2]. destruct H as [H|H]; eauto.
  - by destruct H as (w & s' & _ & _ & _ & _ & ->).
  - done.
  - by destruct H as [_ ->].
  - by destruct H as [_ ->].
Qed.

(** The group of a pattern [r1 (p+) r2] with no group in [r2]: a run of
    characters of [p], not empty. *)
Lemma matches_group_plus icase r1 p r2 st st' :
  has_group r2 = false ->
  matches icase (Seq r1 (Seq (Grp (Plus p)) r2)) st st' ->
  exists w, grp st' = Some w /\ w <> [] /\ Forall (fun c => p c = true) w.
Proof.
  intros Hg (m1 & _ & m2 & (mid & Hp & ->) & H2).
  apply matches_Plus in Hp as (w & s' & Hr & Hw & Hne & ->).
  apply (matches_no_group _ _ _ _ Hg) in H2. cbn [grp rest] in H2.
  exists w. rewrite H2, Hr, take_app_minus. done.
Qed.

Lemma id_pattern_group pv s w g s' :
  matches_at true Parser.id_pattern pv s w g s' ->
  exists x, g = Some x /\ x <> [] /\ Forall (fun c => is_word c = true) x.
Proof.
  intros [_ H].
  change Parser.id_pattern
    with (Seq (lit "id") (Seq (Star is_space) (Seq (Opt (Cls Parser.is_quote))
            (seqs [Grp (Plus is_word); Opt (Cls Parser.is_quote)])))) in H.
  destruct H as (m1 & _ & m2 & _ & H).
  apply (matches_group_plus true (Opt (Cls Parser.is_quote)) is_word
           (seqs [Opt (Cls Parser.is_quote)])) in H; [|done].
  exact H.
Qed.

Lemma class_pattern_group pv s w g s' :
  matches_at true Parser.class_pattern pv s w g s' ->
  exists x, g = Some x /\ x <> [] /\ Forall (fun c => Parser.is_word_dash c = true) x.
Proof.
  intros [_ H].
  change Parser.class_pattern
    with (Seq (lit "class") (Seq (Star is_space) (Seq (Opt (Cls Parser.is_quote))
            (seqs [Grp (Plus Parser.is_word_dash); Opt (Cls Parser.is_quote)])))) in H.
  destruct H as (m1 & _ & m2 & _ & H).
  apply (matches_group_plus true (Opt (Cls Parser.is_quote)) Parser.is_word_dash
           (seqs [Opt (Cls Parser.is_quote)])) in H; [|done].
  exact H.
Qed.

(** ** The target of a command *)

Lemma identify_target_selector cmd :
  match fst (Parser.identify_target cmd) with
  | Some sel => selector_ok sel
  | None => True
  end.
Proof.
  unfold Parser.identify_target.
  destruct (re_search true Parser.id_pattern cmd) as [h|] eqn:Eid.
  { apply re_search_Some in Eid as (a & pv & s' & _ & Hm).
    apply id_pattern_group in Hm as (x & -> & Hne & Hx). cbn [fst default].
    left. by exists x. }
  destruct (re_search true Parser.class_pattern cmd) as [h|] eqn:Ecl.
  { apply re_search_Some in Ecl as (a & pv & s' & _ & Hm).
    apply class_pattern_group in Hm as (x & -> & Hne & Hx). cbn [fst default].
    right. left. by exists x. }
  repeat (destruct (Parser.found _ cmd); [cbn [fst]; unfold selector_ok; auto|]).
  done.
Qed.

Lemma parse_command_selector cmd :
  exists st, Parser.parse_command cmd = Some st
             /\ exists t, targets st = [t] /\ selector_ok (selector t).
Proof.
  destruct (parse_command_total cmd) as (st & E & _). exists st. split; [done|].
  pose proof (identify_target_selector cmd) as Hsel.
  unfold Parser.parse_command in E.
  destruct (Parser.identify_target cmd) as [target descr]. cbn [fst] in Hsel.
  destruct (_ !! 0%nat) as [c0|]; [|done]. destruct (_ !! 1%nat) as [c1|]; [|done].
  cbn [mbind option_bind] in E. injection E as <-. cbn [targets].
  eexists. split; [done|]. cbn [selector].
  destruct target as [[|c sel]|]; cbn [Parser.truthy default]; [| done |];
    unfold selector_ok; auto.
Qed.

(** X1: every step of a parsed Specification has exactly one target, and
    its selector is never empty: it is [#] and a name of word characters,
    [.] and a name of word characters and dashes, [circle] or [rect]. *)
Theorem parsed_selectors (instruction : str) :
  exists spec, Parser.parse_instruction instruction = Some spec
    /\ Forall (fun st => exists t, targets st = [t] /\ selector_ok (selector t))
              (steps spec).
Proof.
  unfold Parser.parse_instruction.
  destruct (mapM_total Parser.parse_command _ (Parser.commands instruction)
              parse_command_selector) as (ys & E & HP & _).
  rewrite E. cbn [mbind option_bind]. eauto.
Qed.

Lemma matches_to_at icase r pv s st' :
  matches icase r (MState pv s None) st' ->
  exists w, matches_at icase r pv s w (grp st') (rest st').
Proof.
  intros H. destruct (matches_rest _ _ _ _ H) as (w & Hw & Hp). cbn [rest prev] in *.
  exists w. split; [done|]. rewrite <- Hp. by rewrite <- mstate_eta.
Qed.

Lemma matches_Opt_skip icase r st : matches icase (Opt r) st st.
Proof. by right. Qed.

Lemma matches_Opt_Cls icase p c s pv g :
  p c = true -> matches icase (Opt (Cls p)) (MState pv (c :: s) g) (MState (Some c) s g).
Proof. intros Hc. left. cbn [matches rest grp]. eauto. Qed.

(** An [id] reference anywhere in the command, also inside a word, makes
    the target an id selector. *)
Lemma id_pattern_here pv (t ws q rest0 : str) (c : ascii) :
  lower t = "id" ->
  Forall (fun x => is_space x = true) ws ->
  Forall (fun x => Parser.is_quote x = true) q -> (length q <= 1)%nat ->
  is_word c = true ->
  exists w g s', matches_at true Parser.id_pattern pv (t ++ ws ++ q ++ c :: rest0) w g s'.
Proof.
  intros Ht Hws Hq Hlen Hc.
  assert (exists st', matches true Parser.id_pattern
                        (MState pv (t ++ ws ++ q ++ c :: rest0) None) st') as [st' H].
  { unfold Parser.id_pattern.
    eexists. apply matches_seqs_cons. eexists. split.
    { apply matches_lit_icase. exists t, (ws ++ q ++ c :: rest0). cbn [rest].
      split_and!; [done|done|reflexivity]. }
    apply matches_seqs_cons. eexists. split.
    { apply matches_Star. exists ws, (q ++ c :: rest0). cbn [rest].
      split_and!; [done|done|reflexivity]. }
    apply matches_seqs_cons.
    exists (MState (last_prev (last_prev (last_prev pv t) ws) q) (c :: rest0) None). split.
    { cbn [prev grp]. destruct q as [|x [|y q]]; [apply matches_Opt_skip| |simpl in Hlen; lia].
      apply Forall_cons in Hq as [Hx _]. by apply matches_Opt_Cls. }
    apply matches_seqs_cons. eexists. split.
    { cbn [matches]. eexists. split; [|reflexivity].
      exists [c], rest0. cbn [rest prev grp]. split_and!; [done| |simpl; lia|done|reflexivity].
      by constructor. }
    apply matches_seqs_cons. eexists. split; [apply matches_Opt_skip|].
    apply matches_seqs_nil. reflexivity. }
  apply matches_to_at in H as [w H]. eauto.
Qed.

(** X2: the id reference comes first, and it is looked for as the two
    letters [id], in any case and anywhere, also inside a word.  A command
    that holds them, followed by optional white space, an optional quote
    and a word character, gets an id selector whatever else it mentions. *)
Theorem id_reference_wins (a t ws q rest0 : str) (c : ascii) :
  lower t = "id" ->
  Forall (fun x => is_space x = true) ws ->
  Forall (fun x => Parser.is_quote x = true) q -> (length q <= 1)%nat ->
  is_word c = true ->
  exists g, Parser.identify_target (a ++ t ++ ws ++ q ++ c :: rest0)
            = (Some ("#" ++ g), "element with id '" ++ g ++ "'")
            /\ g <> [] /\ Forall (fun x => is_word x = true) g.
Proof.
  intros Ht Hws Hq Hlen Hc.
  destruct (id_pattern_here (last_prev None a) t ws q rest0 c Ht Hws Hq Hlen Hc)
    as (w & g & s' & Hm).
  apply search_from_is_Some in Hm as [[a' h] E].
  unfold Parser.identify_target, re_search. rewrite E. cbn [fmap option_fmap option_map snd].
  apply search_from_Some in E as (s'' & _ & Hm).
  apply id_pattern_group in Hm as (x & -> & Hne & Hx). cbn [default].
  by exists x.
Qed.

Lemma id_reference_wins_witness :
  exists g, Parser.identify_target ("make the w" ++ "id" ++ [] ++ [] ++ "e"%char :: " circle red")
            = (Some ("#" ++ g), "element with id '" ++ g ++ "'")
            /\ g <> [] /\ Forall (fun x => is_word x = true) g.
Proof.
  apply (id_reference_wins "make the w" "id" [] [] " circle red" "e").
  - reflexivity.
  - constructor.
  - constructor.
  - simpl. lia.
  - reflexivity.
Defined.

Lemma hex_color_check c : hex_color_b c = true -> hex_color c.
Proof.
  destruct c as [|x w]; [done|]. cbn [hex_color_b].
  rewrite !andb_true_iff, Ascii.eqb_eq, forallb_forall, Nat.leb_le, Nat.leb_le.
  intros [[[<- Hw] H3] H6]. exists w. split_and!; [done| |lia..].
  apply Forall_forall. intros y Hy. by apply Hw, list_elem_of_In.
Qed.

Lemma hex_color_no_bslash c : hex_color c -> bslash ∉ c.
Proof.
  intros (w & -> & Hw & _). apply not_elem_of_cons. split; [done|].
  intros Hin. rewrite Forall_forall in Hw. by apply Hw in Hin.
Qed.

Lemma chr_eq_hash c : chr_eq true "#" c = true -> c = "#"%char.
Proof.
  destruct c as [[] [] [] [] [] [] [] []]; vm_compute; intros H; done.
Qed.

Lemma matches_alts icase rs st st' :
  matches icase (alts rs) st st' ->
  (rs = [] /\ st' = st) \/ exists r, r ∈ rs /\ matches icase r st st'.
Proof.
  induction rs as [|r [|r' rs] IH]; intros H.
  - by left.
  - right. exists r. split; [by left|done].
  - right. destruct H as [H|H].
    + exists r. split; [by left|done].
    + destruct (IH H) as [[? _]|(r0 & Hin & H0)]; [done|].
      exists r0. split; [by right|done].
Qed.

(** ** The color tokens *)

Lemma color_pattern_token pv s w g s' :
  matches_at true Parser.color_pattern pv s w g s' ->
  g = Some w /\ (hex_color w \/ lower w ∈ Parser.color_names).
Proof.
  intros [Hs H]. unfold Parser.color_pattern in H. cbn [matches] in H.
  destruct H as (mid & H & [= Hp Hr Hg]). cbn [rest prev grp] in *.
  assert (g = Some w) as -> by (by rewrite Hg, <- Hr, Hs, take_app_minus).
  split; [done|]. destruct H as [H|H].
  - left. destruct H as (m1 & (c & s1 & Hc & Heq & ->) & w2 & s2 & Hw2 & Hhex & Hlo & Hhi & ->).
    cbn [rest prev grp within] in *. apply chr_eq_hash in Heq as ->.
    assert (w = "#"%char :: w2) as ->.
    { apply (app_inj_2 _ _ s' s'); [done|]. by rewrite <- Hs, Hc, Hw2, Hr. }
    exists w2. split_and!; [done|done|lia..].
  - right. apply matches_seqs_cons in H as (m1 & [_ ->] & H).
    apply matches_seqs_cons in H as (m2 & H2 & H).
    apply matches_seqs_cons in H as (m3 & [_ ->] & H).
    apply matches_seqs_nil in H as ->.
    apply matches_alts in H2 as [[? _]|(r & Hin & H2)]; [done|].
    apply list_elem_of_fmap in Hin as (name & -> & Hname).
    apply matches_lit_icase in H2 as (t & s2 & Ht & Hlow & ->). cbn [rest prev grp] in *.
    assert (w = t) as ->.
    { apply (app_inj_2 _ _ s' s'); [done|]. by rewrite <- Hs, Ht, Hr. }
    rewrite Hlow. revert Hname. generalize name. apply Forall_forall.
    repeat (constructor; [vm_compute; repeat (first [by left|right])|]). constructor.
Qed.

Lemma color_names_mapped :
  Forall (fun name => exists v, COLOR_MAP !! name = Some v /\ hex_color v)
         Parser.color_names.
Proof.
  repeat (constructor;
          [eexists; split; [vm_compute; reflexivity|by apply hex_color_check]|]).
  constructor.
Qed.

Lemma get_hex_color_token w :
  hex_color w \/ lower w ∈ Parser.color_names -> hex_color (get_hex_color w).
Proof.
  intros [H|H].
  - destruct H as (x & -> & Hx & Hlen).
    unfold get_hex_color. change (lower ("#" ++ x)) with ("#" ++ lower x).
    rewrite COLOR_MAP_no_hash. by exists x.
  - pose proof color_names_mapped as Hall. rewrite Forall_forall in Hall.
    destruct (Hall _ H) as (v & Hv & Hhex). unfold get_hex_color. by rewrite Hv.
Qed.

Lemma re_findall_hits icase r s m :
  m ∈ re_findall icase r s ->
  exists pv w g s', m = default [] g /\ matches_at icase r pv (w ++ s') w g s'.
Proof.
  unfold re_findall, tokens. intros H.
  apply list_elem_of_omap in H as (t & Hin & Ht). destruct t as [c|h]; [done|].
  injection Ht as <-.
  apply scan_hits_sound in Hin as (a & pv' & s' & _ & Hm).
  by exists pv', (h_text h), (h_grp h), s'.
Qed.

Lemma color_matches_tokens cmd :
  Forall (fun m => hex_color m \/ lower m ∈ Parser.color_names)
         (re_findall true Parser.color_pattern cmd).
Proof.
  apply Forall_forall. intros m Hm.
  apply re_findall_hits in Hm as (pv & w & g & s' & -> & Hm).
  by apply color_pattern_token in Hm as [-> H].
Qed.

Lemma parse_command_gradient cmd :
  exists st, Parser.parse_command cmd = Some st /\ gradient_wf (gradient st).
Proof.
  unfold Parser.parse_command. destruct (Parser.identify_target cmd) as [target descr].
  pose proof (color_matches_tokens cmd) as Hall.
  assert (Forall hex_color (map get_hex_color (re_findall true Parser.color_pattern cmd)))
    as Hhex.
  { apply Forall_fmap. eapply Forall_impl; [exact Hall|].
    intros m Hm. by apply get_hex_color_token. }
  set (l := map get_hex_color _) in *.
  assert (Forall hex_color (if (length l <? 2)%nat
                            then ["#ff0000" : str; "#0000ff" : str] else l)) as Hl.
  { destruct (length l <? 2)%nat; [|done].
    repeat constructor; by apply hex_color_check. }
  assert (2 <= length (if (length l <? 2)%nat
                       then ["#ff0000" : str; "#0000ff" : str] else l))%nat as Hlen.
  { destruct (length l <? 2)%nat eqn:E; [simpl; lia|by apply Nat.ltb_ge in E]. }
  destruct (if (length l <? 2)%nat then _ else l) as [|c0 [|c1 l']];
    [simpl in Hlen; lia..|].
  cbn [lookup list_lookup mbind option_bind]. eexists. split; [done|].
  apply Forall_cons in Hl as [H0 Hl]. apply Forall_cons in Hl as [H1 _].
  split_and!; cbn [gradient type direction stops].
  - destruct (contains "radial" (lower cmd)); auto.
  - destruct (contains "vertical" (lower cmd)); [auto|].
    destruct (contains "diagonal" (lower cmd)); auto.
  - by repeat constructor.
Qed.

Lemma parsed_gradients_aux (instruction : str) :
  exists spec, Parser.parse_instruction instruction = Some spec
    /\ Forall (fun st => gradient_wf (gradient st)) (steps spec).
Proof.
  unfold Parser.parse_instruction.
  destruct (mapM_total Parser.parse_command _ (Parser.commands instruction)
              parse_command_gradient) as (ys & E & HP & _).
  rewrite E. cbn [mbind option_bind]. eauto.
Qed.

(** X3: for every instruction made of code points below 256, the strings
    of this development: every gradient of the parsed Specification is
    [linear] or [radial], its direction is [horizontal], [vertical] or
    [diagonal], and each stop color is [#] followed by three to six hex
    digits.  (A letter beyond those code points that [re.I] folds onto an
    ASCII one, as U+017F onto [s], can make a color name match that
    [str.lower] does not find in [COLOR_MAP]; no such letter is below
    256.) *)
Theorem parsed_gradients (instruction : str) :
  exists spec, Parser.parse_instruction instruction = Some spec
    /\ Forall (fun st => gradient_wf (gradient st)) (steps spec).
Proof. apply parsed_gradients_aux. Qed.

(** ** The patcher does not fail on plain colors *)

Lemma place_definitions_total (block s : str) :
  bslash ∉ block -> is_Some (Modifier.place_definitions ("<defs>" ++ block) s).
Proof.
  intros Hb. unfold Modifier.place_definitions.
  destruct (contains "<defs>" s).
  - unfold re_sub. rewrite parse_template_literal; [by eexists|notin].
  - unfold re_sub1. change (has_group Modifier.svg_pattern) with true.
    rewrite parse_group_template by done. by eexists.
Qed.

Lemma apply_gradients_total doc spec :
  plain_colors spec -> is_Some (Modifier.apply_gradients doc spec).
Proof.
  intros Hplain. unfold Modifier.apply_gradients.
  destruct (apply_steps_total (steps spec) doc [] 1) as [patched ->].
  cbn [mbind option_bind app]. rewrite definitions_block_eq.
  apply place_definitions_total.
  apply not_elem_of_app. split; [by apply step_defs_no_bslash|notin].
Qed.

(** X4: the three phases of [main] never fail: for every instruction and
    every document, the parser gives a Specification, the patcher gives a
    document for it, and the validator reports on that document. *)
Theorem process_total (instruction svg : str) :
  exists spec modified_svg,
    Parser.parse_instruction instruction = Some spec
    /\ Modifier.apply_gradients svg spec = Some modified_svg
    /\ process instruction svg = Some (modified_svg, Checker.validate_svg modified_svg).
Proof.
  destruct (parsed_gradients_aux instruction) as (spec & E & Hwf).
  assert (plain_colors spec) as Hplain.
  { unfold plain_colors. eapply Forall_impl; [exact Hwf|].
    intros st (_ & _ & Hs). eapply Forall_impl; [exact Hs|].
    intros stop. apply hex_color_no_bslash. }
  destruct (apply_gradients_total svg spec Hplain) as [out Eout].
  exists spec, out. unfold process. rewrite E. cbn [mbind option_bind].
  by rewrite Eout.
Qed.

(** ** What the three selector patterns capture *)

Lemma matches_class_group name st mid :
  matches false (seqs [Star Modifier.not_gt; lit ("class=" ++ [dq]); Star Modifier.not_dq;
                       lit name; Star Modifier.not_dq; Chr dq; Star Modifier.not_gt]) st mid ->
  exists a x y b, rest st = (a ++ CLASSQ ++ x ++ name ++ y ++ [dq] ++ b) ++ rest mid
                  /\ (">"%char ∉ a) /\ (dq ∉ x) /\ (dq ∉ y) /\ (">"%char ∉ b).
Proof.
  intros H.
  apply matches_seqs_cons in H as (m1 & H1 & H).
  apply matches_Star in H1 as (a & s1 & Hr1 & Ha & ->). cbn [rest prev grp] in *.
  apply matches_seqs_cons in H as (m2 & H2 & H).
  apply matches_lit_exact in H2 as (s2 & Hr2 & ->). cbn [rest prev grp] in *.
  apply matches_seqs_cons in H as (m3 & H3 & H).
  apply matches_Star in H3 as (x & s3 & Hr3 & Hx & ->). cbn [rest prev grp] in *.
  apply matches_seqs_cons in H as (m4 & H4 & H).
  apply matches_lit_exact in H4 as (s4 & Hr4 & ->). cbn [rest prev grp] in *.
  apply matches_seqs_cons in H as (m5 & H5 & H).
  apply matches_Star in H5 as (y & s5 & Hr5 & Hy & ->). cbn [rest prev grp] in *.
  apply matches_seqs_cons in H as (m6 & H6 & H).
  apply matches_Chr_exact in H6 as (s6 & Hr6 & ->). cbn [rest prev grp] in *.
  apply matches_seqs_cons in H as (m7 & H7 & H).
  apply matches_Star in H7 as (b & s7 & Hr7 & Hb & ->). cbn [rest prev grp] in *.
  apply matches_seqs_nil in H as ->. cbn [rest].
  exists a, x, y, b.
  apply Forall_not_char in Ha. apply Forall_not_char in Hx.
  apply Forall_not_char in Hy. apply Forall_not_char in Hb.
  split_and!; [|done..].
  rewrite Hr1, Hr2, Hr3, Hr4, Hr5, Hr6, Hr7. unfold CLASSQ.
  by rewrite <- ?app_assoc.
Qed.

Lemma matches_tag_group sel st mid :
  matches false (seqs [lit sel; Star Modifier.not_gt]) st mid ->
  exists b, rest st = (sel ++ b) ++ rest mid /\ (">"%char ∉ b).
Proof.
  intros H.
  apply matches_seqs_cons in H as (m1 & H1 & H).
  apply matches_lit_exact in H1 as (s1 & Hr1 & ->). cbn [rest prev grp] in *.
  apply matches_seqs_cons in H as (m2 & H2 & H).
  apply matches_Star in H2 as (b & s2 & Hr2 & Hb & ->). cbn [rest prev grp] in *.
  apply matches_seqs_nil in H as ->. cbn [rest].
  exists b. apply Forall_not_char in Hb. split; [|done].
  rewrite Hr1, Hr2. by rewrite <- ?app_assoc.
Qed.

Lemma matches_id_group_cap eid st mid :
  matches false (id_group eid) st mid ->
  exists a b, rest st = (a ++ IDQ eid ++ b) ++ rest mid
              /\ (">"%char ∉ a) /\ (">"%char ∉ b).
Proof.
  intros H. apply matches_id_group in H as (a & b & s' & Hr & Ha & Hb & ->).
  exists a, b. cbn [rest]. split_and!; [|done..]. rewrite Hr. by rewrite <- ?app_assoc.
Qed.

(** Every selector pattern is [<(X)fill=Q[^Q]*Q] for a group [X] that
    captures a selected text. *)
Lemma selector_pattern_selected sel :
  exists X, Modifier.selector_pattern sel = fill_pattern X
            /\ forall st mid, matches false X st mid ->
                 exists cap, rest st = cap ++ rest mid /\ selected sel cap.
Proof.
  unfold Modifier.selector_pattern, selected.
  destruct (startswith "#" sel); [|destruct (startswith "." sel)].
  - exists (id_group (drop 1 sel)). split; [reflexivity|]. intros st mid H.
    apply matches_id_group_cap in H as (a & b & Hr & Ha & Hb).
    exists (a ++ IDQ (drop 1 sel) ++ b). split; [done|]. by exists a, b.
  - eexists. split; [reflexivity|]. intros st mid H.
    apply matches_class_group in H as (a & x & y & b & Hr & Ha & Hx & Hy & Hb).
    eexists. split; [exact Hr|]. by exists a, x, y, b.
  - eexists. split; [reflexivity|]. intros st mid H.
    apply matches_tag_group in H as (b & Hr & Hb).
    eexists. split; [exact Hr|]. by exists b.
Qed.

Lemma fills_patched_app ok gid x s t :
  fills_patched ok gid s t -> fills_patched ok gid (x ++ s) (x ++ t).
Proof. intros H. induction x; [done|]. by constructor. Qed.

Lemma scan_fills_patched (ok : str -> Prop) X n (s : str) pv :
  (forall st mid, matches false X st mid -> exists cap, rest st = cap ++ rest mid /\ ok cap) ->
  fills_patched ok (grad_id n) s
    (concat (map (render (fill_template n)) (scan false (fill_pattern X) pv s 0))).
Proof.
  intros Hok. remember (length s) as m eqn:Hm. revert s pv Hm.
  induction m as [m IH] using lt_wf_ind. intros s pv ->.
  destruct (match_at false (fill_pattern X) pv s) as [h|] eqn:E.
  - pose proof E as (s' & Hat)%match_at_Some.
    apply matches_at_fill in Hat as (cap & v & mid & Hw & Hs & Hg & Hv & HX & Hmid).
    destruct (Hok _ _ HX) as (cap' & Hcap & Hokc). cbn [rest] in Hcap.
    rewrite Hmid in Hcap. apply app_inv_tail in Hcap as <-.
    destruct h as [w g]. cbn [h_text h_grp] in *. subst w g.
    rewrite (scan_hit _ _ _ _ _ s' E); [|done|done].
    cbn [map concat render h_text]. unfold fill_template at 1.
    rewrite expand_replacement. rewrite Hs at 1. rewrite <- !app_assoc.
    apply (fp_tag ok (grad_id n) cap v); [done..|].
    eapply IH; [|done]. rewrite Hs, !length_app. simpl. lia.
  - destruct s as [|c s].
    + rewrite scan_nil_miss by done. constructor.
    + rewrite scan_miss by done. simpl. constructor. eapply IH; [|done]. simpl. lia.
Qed.

Lemma re_sub_selected sel n s :
  exists t, re_sub false (Modifier.selector_pattern sel)
              (Modifier.replacement (grad_id n)) s = Some t
            /\ fills_patched (selected sel) (grad_id n) s t.
Proof.
  destruct (selector_pattern_selected sel) as (X & -> & Hok).
  unfold re_sub. change (has_group (fill_pattern X)) with true.
  rewrite parse_replacement by notin. cbn [mbind option_bind]. eexists. split; [done|].
  by apply scan_fills_patched.
Qed.

(** X5: for each of the three kinds of selector the patch of one target
    changes fill values only, and only after a text [<cap] that the
    selector selects ([selected]); every other character is kept. *)
Theorem only_selected_fills_patched (tg : Target) (g : Gradient) (doc : str) :
  exists patched,
    Modifier.apply_steps [ {| targets := [tg]; gradient := g |} ] doc [] 1
    = Some (patched, [Modifier.gradient_def "grad1" g])
    /\ fills_patched (selected (selector tg)) "grad1" doc patched.
Proof.
  destruct (re_sub_selected (selector tg) 1 doc) as (t & E & H).
  exists t. split; [|exact H].
  cbn [Modifier.apply_steps targets gradient Modifier.apply_targets]. rewrite E.
  reflexivity.
Qed.

(** ** Selectors that select nothing *)

Lemma fills_patched_none ok gid s t :
  fills_patched ok gid s t ->
  (forall cap, ok cap -> ~ occurs ("<" ++ cap ++ FILLQ) s) -> t = s.
Proof.
  induction 1 as [|c s t H IH|cap v s t Hc Hv H IH]; intros Hno.
  - done.
  - f_equal. apply IH. intros cap Hc Ho. apply (Hno cap Hc). by apply occurs_cons.
  - destruct (Hno cap Hc). exists [], (v ++ [dq] ++ s). by rewrite <- ?app_assoc.
Qed.

Lemma occurs_app_mid (w x y z : str) : occurs w y -> occurs w (x ++ y ++ z).
Proof.
  intros (a & b & ->). exists (x ++ a), (b ++ z). by rewrite <- ?app_assoc.
Qed.

Lemma occurs_trans (w x s : str) : occurs w x -> occurs x s -> occurs w s.
Proof.
  intros Hw (a & b & ->). by apply occurs_app_mid.
Qed.

Lemma occurs_here (w b : str) : occurs w (w ++ b).
Proof. by exists [], b. Qed.

Lemma selected_unmatched sel cap doc :
  selected sel cap -> unmatched sel doc -> ~ occurs ("<" ++ cap ++ FILLQ) doc.
Proof.
  unfold selected, unmatched. intros Hsel Hun Ho.
  destruct (startswith "#" sel); [|destruct (startswith "." sel)].
  - destruct Hsel as (a & b & -> & _). apply Hun.
    eapply occurs_trans; [|exact Ho].
    exists ("<" ++ a), (b ++ FILLQ). by rewrite <- ?app_assoc.
  - destruct Hsel as (a & x & y & b & -> & _). destruct Hun as [Hun|Hun]; apply Hun.
    + eapply occurs_trans; [|exact Ho].
      exists ("<" ++ a), (x ++ drop 1 sel ++ y ++ [dq] ++ b ++ FILLQ).
      by rewrite <- ?app_assoc.
    + eapply occurs_trans; [|exact Ho].
      exists ("<" ++ a ++ CLASSQ ++ x), (y ++ [dq] ++ b ++ FILLQ).
      by rewrite <- ?app_assoc.
  - destruct Hsel as (b & -> & _). apply Hun.
    eapply occurs_trans; [|exact Ho].
    exists [], (b ++ FILLQ). by rewrite <- ?app_assoc.
Qed.

Lemma apply_targets_unmatched n ts doc :
  Forall (fun t => unmatched (selector t) doc) ts ->
  Modifier.apply_targets (grad_id n) ts doc = Some doc.
Proof.
  induction 1 as [|tg ts Htg _ IH]; [done|]. cbn [Modifier.apply_targets].
  destruct (re_sub_selected (selector tg) n doc) as (t & -> & H).
  cbn [mbind option_bind].
  apply fills_patched_none in H as ->; [done|].
  intros cap Hc. by eapply selected_unmatched.
Qed.

Lemma apply_steps_unmatched sts doc defs n :
  Forall (fun st => Forall (fun t => unmatched (selector t) doc) (targets st)) sts ->
  Modifier.apply_steps sts doc defs n = Some (doc, defs ++ step_defs n sts).
Proof.
  intros H. revert defs n. induction H as [|st sts Hst _ IH]; intros defs n.
  - cbn [Modifier.apply_steps step_defs]. by rewrite app_nil_r.
  - cbn [Modifier.apply_steps step_defs]. rewrite apply_targets_unmatched by done.
    cbn [mbind option_bind]. rewrite IH. by rewrite <- app_assoc.
Qed.

Lemma step_defs_length n sts : length (step_defs n sts) = length sts.
Proof. revert n. induction sts as [|st sts IH]; intros n; [done|]. simpl. by rewrite IH. Qed.

(** X6: when no target of any step can select anything in the document,
    the patch loop returns the document unchanged, and still one
    definition for each step. *)
Theorem unmatched_selectors_keep_text (spec : Specification) (doc : str) :
  Forall (fun st => Forall (fun t => unmatched (selector t) doc) (targets st))
         (steps spec) ->
  Modifier.apply_steps (steps spec) doc [] 1 = Some (doc, step_defs 1 (steps spec))
  /\ length (step_defs 1 (steps spec)) = length (steps spec).
Proof.
  intros H. split; [exact (apply_steps_unmatched _ _ [] 1%nat H)|].
  apply step_defs_length.
Qed.

(** ** The ids of the gradients *)

Lemma to_uint_not_Nil n : Nat.to_uint n <> Decimal.Nil.
Proof.
  rewrite <- (Unsigned.of_to n) at 1. rewrite Unsigned.to_of. apply unorm_nonnil.
Qed.

Lemma str_of_nat_inj n m : str_of_nat n = str_of_nat m -> n = m.
Proof.
  unfold str_of_nat. intros H.
  apply (f_equal String.string_of_list_ascii) in H.
  rewrite !String.string_of_list_ascii_of_string in H.
  apply (f_equal NilZero.uint_of_string) in H.
  rewrite !NilZero.usu in H by apply to_uint_not_Nil.
  injection H as H. by apply Unsigned.to_uint_inj.
Qed.

Lemma grad_id_inj n m : grad_id n = grad_id m -> n = m.
Proof. unfold Modifier.grad_id. intros H. apply app_inv_head in H. by apply str_of_nat_inj. Qed.

(** X8: the ids [grad<n>] of consecutive counters are pairwise distinct. *)
Theorem gradient_ids_distinct (first count : nat) :
  NoDup (map Modifier.grad_id (seq first count)).
Proof.
  apply NoDup_fmap_2; [|apply NoDup_seq]. intros n m. apply grad_id_inj.
Qed.

(** ** The stop elements *)

(** X9: the color a stop element carries is [get_hex_color] of the stop
    color: the test the patcher makes in line 236 and the lookup of
    [get_hex_color] agree on every string. *)
Theorem stop_element_normalizes (stop_point : Stop) :
  Modifier.stop_element stop_point
  = "<stop offset=" ++ [dq] ++ str_of_Z (offset stop_point) ++ "%" ++ [dq]
    ++ " style=" ++ [dq] ++ "stop-color:" ++ get_hex_color (color stop_point)
    ++ ";stop-opacity:1" ++ [dq] ++ " />".
Proof.
  unfold Modifier.stop_element, get_hex_color.
  destruct (startswith "#" (color stop_point)) eqn:E.
  - apply startswith_prefix in E as [x ->].
    change (lower ("#" ++ x)) with ("#" ++ lower x). by rewrite COLOR_MAP_no_hash.
  - cbn [negb andb]. destruct (COLOR_MAP !! lower (color stop_point)) eqn:E'.
    + rewrite bool_decide_eq_true_2 by eauto. done.
    + rewrite bool_decide_eq_false_2; [done|]. by intros [? ?].
Qed.

(** ** The frame of the patch loop *)


Lemma fill_rewritten_no_fill s t : fill_rewritten s t -> ~ occurs FILLQ s -> t = s.
Proof.
  induction 1 as [|c s t H IH|v n s t Hv H IH]; intros Hno.
  - done.
  - f_equal. apply IH. intros Ho. apply Hno. by apply occurs_cons.
  - destruct Hno. by exists [], (v ++ [dq] ++ s).
Qed.

Lemma rewrites_no_fill s t : rtc fill_rewritten s t -> ~ occurs FILLQ s -> t = s.
Proof.
  induction 1 as [|s u t H _ IH]; intros Hno; [done|].
  apply fill_rewritten_no_fill in H as ->; [|done]. by apply IH.
Qed.

(** X7: the patch loop never fails; its text comes from the document by
    rewriting values of fill attributes, step after step; it collects one
    definition for each step whatever the document; and a document with no
    [fill=Q] is returned as it is. *)
Theorem patch_loop_frame (spec : Specification) (doc : str) :
  exists patched,
    Modifier.apply_steps (steps spec) doc [] 1 = Some (patched, step_defs 1 (steps spec))
    /\ rtc fill_rewritten doc patched
    /\ length (step_defs 1 (steps spec)) = length (steps spec)
    /\ (~ occurs FILLQ doc -> patched = doc).
Proof.
  destruct (apply_steps_inv (rtc fill_rewritten doc)
              (fun s t Hst Hs => rtc_r _ _ _ Hs Hst) (steps spec) doc [] 1%nat
              (rtc_refl _ _))
    as (patched & frags & E & Hrtc).
  exists patched. pose proof (apply_steps_defs _ _ _ _ _ _ E) as ->. cbn [app] in E.
  split_and!; [exact E|exact Hrtc|apply step_defs_length|].
  intros Hno. by apply rewrites_no_fill.
Qed.

(** ** [str.find] *)

Lemma find_at_spec (w s : str) i :
  ((find_at w s i = -1) /\ ~ occurs w s)
  \/ exists a, first_at w a s /\ find_at w s i = i + Z.of_nat (length a).
Proof.
  revert i. induction s as [|c s IH]; intros i; cbn [find_at].
  - destruct (startswith w []) eqn:E.
    + right. apply startswith_prefix in E as [t Ht]. exists []. split.
      * split; [by exists t|]. intros; simpl; lia.
      * simpl. lia.
    + left. split; [done|]. intros ([|??] & b & H); [|done].
      assert (startswith w [] = true) as E' by (apply startswith_prefix; eauto).
      congruence.
  - destruct (startswith w (c :: s)) eqn:E.
    + right. apply startswith_prefix in E as [t Ht]. exists []. split.
      * split; [by exists t|]. intros; simpl; lia.
      * simpl. lia.
    + assert (forall a' b', c :: s = a' ++ w ++ b' -> exists a'', a' = c :: a'') as Hcons.
      { intros [|c' a''] b' H; [|injection H as -> _; eauto].
        assert (startswith w (c :: s) = true) as E' by (apply startswith_prefix; eauto).
        congruence. }
      destruct (IH (i + 1)) as [[Hf Hno]|(a & [[b Hb] Hfirst] & Hf)].
      * left. split; [done|]. intros (a' & b' & H).
        destruct (Hcons _ _ H) as [a'' ->]. injection H as H.
        apply Hno. by exists a'', b'.
      * right. exists (c :: a). split; [split|].
        -- exists b. by rewrite Hb.
        -- intros a' b' H. destruct (Hcons _ _ H) as [a'' ->]. injection H as H.
           specialize (Hfirst _ _ H). simpl. lia.
        -- rewrite Hf. simpl length. lia.
Qed.

Lemma find_eq (w s : str) : find w s = find_at w s 0.
Proof.
  unfold find, find_from. change (0 <? 0) with false. cbn iota.
  change (Z.to_nat 0) with 0%nat. rewrite drop_0.
  destruct (Z.ltb_spec (Z.of_nat (length s)) 0); [lia|done].
Qed.

Lemma find_spec (w s : str) :
  ((find w s = -1) /\ ~ occurs w s)
  \/ exists a, first_at w a s /\ find w s = Z.of_nat (length a).
Proof.
  rewrite find_eq.
  destruct (find_at_spec w s 0) as [?|(a & ? & ->)]; [by left|right].
  exists a. split; [done|lia].
Qed.

Lemma first_at_unique (w a a' s : str) : first_at w a s -> first_at w a' s -> a = a'.
Proof.
  intros [[b Hb] H1] [[b' Hb'] H2].
  pose proof (H1 _ _ Hb'). pose proof (H2 _ _ Hb).
  assert (length a = length a') as Hl by lia.
  rewrite Hb in Hb'. by apply app_inj_1 in Hb' as [-> _].
Qed.

Lemma find_first (w a s : str) : first_at w a s -> find w s = Z.of_nat (length a).
Proof.
  intros H. destruct (find_spec w s) as [[_ Hno]|(a' & H' & ->)].
  - destruct H as [[b ->] _]. destruct Hno. by exists a, b.
  - by rewrite (first_at_unique _ _ _ _ H H').
Qed.

Lemma find_from_skip (w x s : str) :
  find_from w (x ++ s) (Z.of_nat (length x)) =
  match find_at w s 0 with
  | -1 => -1
  | k => Z.of_nat (length x) + k
  end.
Proof.
  unfold find_from. rewrite length_app.
  destruct (Z.ltb_spec (Z.of_nat (length x)) 0); [lia|].
  destruct (Z.ltb_spec (Z.of_nat (length x + length s)) (Z.of_nat (length x))); [lia|].
  rewrite Nat2Z.id, drop_app_length.
  generalize (Z.of_nat (length x)) as i. intros i.
  assert (forall j, find_at w s j = match find_at w s 0 with -1 => -1 | k => j + k end)
    as Hshift.
  { intros j.
    destruct (find_at_spec w s 0) as [[E0 Hno0]|(a0 & Ha0 & E0)];
      destruct (find_at_spec w s j) as [[Ej Hnoj]|(aj & Haj & Ej)]; rewrite E0, Ej.
    - done.
    - destruct Haj as [[b ->] _]. destruct Hno0. by exists aj, b.
    - destruct Ha0 as [[b ->] _]. destruct Hnoj. by exists a0, b.
    - rewrite (first_at_unique _ _ _ _ Haj Ha0).
      destruct (0 + Z.of_nat (length a0)) eqn:E; lia. }
  apply Hshift.
Qed.

(** ** The root check *)

Lemma root_pattern_matches pv s st' :
  matches false Checker.root_pattern (MState pv s None) st' <->
  pv = None /\ exists ws a, s = ws ++ "<svg" ++ a ++ ">" ++ rest st'
                /\ Forall (fun c => is_space c = true) ws /\ (">"%char ∉ a)
                /\ st' = MState (Some ">"%char) (rest st') None.
Proof.
  unfold Checker.root_pattern. split.
  - intros H.
    apply matches_seqs_cons in H as (m0 & [Hpv ->] & H). cbn [prev] in Hpv.
    apply matches_seqs_cons in H as (m1 & H1 & H).
    apply matches_Star in H1 as (ws & s1 & Hr1 & Hws & ->). cbn [rest prev grp] in *.
    apply matches_seqs_cons in H as (m2 & H2 & H).
    apply matches_lit_exact in H2 as (s2 & Hr2 & ->). cbn [rest prev grp] in *.
    apply matches_seqs_cons in H as (m3 & H3 & H).
    apply matches_Star in H3 as (a & s3 & Hr3 & Ha & ->). cbn [rest prev grp] in *.
    apply matches_seqs_cons in H as (m4 & H4 & H).
    apply matches_Chr_exact in H4 as (s4 & Hr4 & ->). cbn [rest prev grp] in *.
    apply matches_seqs_nil in H as ->. cbn [rest].
    split; [done|]. exists ws, a. apply Forall_not_char in Ha.
    split_and!; [|done..]. by rewrite Hr1, Hr2, Hr3, Hr4.
  - intros (-> & ws & a & Hs & Hws & Ha & Hst). rewrite Hst. cbn [rest] in Hs. subst s.
    apply matches_seqs_cons. eexists. split; [by split|].
    apply matches_seqs_cons. eexists. split.
    { apply matches_Star. exists ws, ("<svg" ++ a ++ ">" ++ rest st').
      split_and!; [done..|reflexivity]. }
    apply matches_seqs_cons. eexists. split.
    { apply matches_lit_exact. exists (a ++ ">" ++ rest st'). split; [done|reflexivity]. }
    apply matches_seqs_cons. eexists. split.
    { apply matches_Star. exists a, (">" ++ rest st').
      split_and!; [done|by apply Forall_not_char|reflexivity]. }
    apply matches_seqs_cons. eexists. split.
    { apply matches_Chr_exact. exists (rest st'). split; [done|reflexivity]. }
    by apply matches_seqs_nil.
Qed.

Lemma root_match_rooted doc :
  is_Some (re_match false Checker.root_pattern doc) <-> rooted doc.
Proof.
  unfold re_match, rooted. split.
  - intros [h Hh]. apply match_at_Some in Hh as (s' & _ & Hm).
    apply root_pattern_matches in Hm as (_ & ws & a & Hs & Hws & Ha & _).
    cbn [rest] in Hs. by exists ws, a, s'.
  - intros (ws & a & post & -> & Hws & Ha).
    apply (match_at_is_Some _ _ _ _ (ws ++ "<svg" ++ a ++ ">") (grp (MState (Some ">"%char) post None)) post).
    split; [by rewrite <- ?app_assoc|].
    assert (last_prev None (ws ++ "<svg" ++ a ++ ">") = Some ">"%char) as ->.
    { replace (ws ++ "<svg" ++ a ++ ">") with ((ws ++ "<svg" ++ a) ++ [">"%char])
        by (by rewrite <- ?app_assoc).
      apply last_prev_snoc. }
    apply (root_pattern_matches None _ (MState (Some ">"%char) post None)).
    split; [done|]. exists ws, a. cbn [rest]. split_and!; done.
Qed.

(** X10: the report holds the missing-root error exactly when the
    document does not begin, after optional white space, with [<svg],
    characters other than [>], and [>]. *)
Theorem root_check_exact (doc : str) :
  (Checker.missing_root ∈ errors (Checker.validate_svg doc) <-> ~ rooted doc)
  /\ (Checker.root_issues doc = [] <-> rooted doc).
Proof.
  assert (Checker.root_issues doc = [] <-> rooted doc) as Hroot.
  { unfold Checker.root_issues. rewrite <- root_match_rooted.
    case_bool_decide; split; try done. }
  split; [|done]. rewrite <- Hroot.
  unfold Checker.validate_svg. cbn [errors]. rewrite !elem_of_app. split.
  - intros [H|[H|H]].
    + intros E. rewrite E in H. by apply elem_of_nil in H.
    + unfold Checker.defs_issues in H.
      repeat (case_match; try by apply elem_of_nil in H);
        by apply list_elem_of_singleton in H.
    + unfold Checker.reference_issues in H.
      apply list_elem_of_omap in H as (r & _ & Hr). case_bool_decide; [done|].
      by injection Hr.
  - intros Hne. left. unfold Checker.root_issues in *.
    case_bool_decide; [done|]. by apply list_elem_of_singleton.
Qed.

(** ** The reference check *)

Lemma reference_pattern_hit pv s w g s' :
  matches_at false Checker.reference_pattern pv s w g s' ->
  exists r, w = url_ref r /\ g = Some r /\ r <> [] /\ (")"%char ∉ r).
Proof.
  unfold Checker.reference_pattern. intros [Hs H].
  apply matches_seqs_cons in H as (m1 & H1 & H).
  apply matches_lit_exact in H1 as (s1 & Hr1 & ->). cbn [rest prev grp] in *.
  apply matches_seqs_cons in H as (m2 & H2 & H).
  cbn [matches] in H2. destruct H2 as (mid & Hp & ->).
  apply matches_Plus in Hp as (r & s2 & Hr2 & Hr & Hne & ->). cbn [rest prev grp] in *.
  apply matches_seqs_cons in H as (m3 & H3 & H).
  apply matches_Chr_exact in H3 as (s3 & Hr3 & ->). cbn [rest prev grp] in *.
  apply matches_seqs_nil in H as [= _ Hs3 Hg]. subst s3.
  exists r. apply Forall_not_char in Hr. split_and!; [|by rewrite Hg, Hr2, take_app_minus|done..].
  apply (app_inj_2 _ _ s' s'); [done|].
  rewrite <- Hs, Hr1, Hr2, Hr3. unfold url_ref. by rewrite <- ?app_assoc.
Qed.

Lemma id_attr_pattern_hit pv s w g s' :
  matches_at false Checker.id_attr_pattern pv s w g s' ->
  exists x v, w = "<" ++ x ++ IDQ v /\ g = Some v /\ v <> [] /\ (dq ∉ v) /\ (">"%char ∉ x).
Proof.
  unfold Checker.id_attr_pattern. intros [Hs H].
  apply matches_seqs_cons in H as (m1 & H1 & H).
  apply matches_Chr_exact in H1 as (s1 & Hr1 & ->). cbn [rest prev grp] in *.
  apply matches_seqs_cons in H as (m2 & H2 & H).
  apply matches_Star in H2 as (x & s2 & Hr2 & Hx & ->). cbn [rest prev grp] in *.
  apply matches_seqs_cons in H as (m3 & H3 & H).
  apply matches_lit_exact in H3 as (s3 & Hr3 & ->). cbn [rest prev grp] in *.
  apply matches_seqs_cons in H as (m4 & H4 & H).
  cbn [matches] in H4. destruct H4 as (mid & Hp & ->).
  apply matches_Plus in Hp as (v & s4 & Hr4 & Hv & Hne & ->). cbn [rest prev grp] in *.
  apply matches_seqs_cons in H as (m5 & H5 & H).
  apply matches_Chr_exact in H5 as (s5 & Hr5 & ->). cbn [rest prev grp] in *.
  apply matches_seqs_nil in H as [= _ Hs5 Hg]. subst s5.
  exists x, v. apply Forall_not_char in Hx. apply Forall_not_char in Hv.
  split_and!; [|by rewrite Hg, Hr4, take_app_minus|done..].
  apply (app_inj_2 _ _ s' s'); [done|].
  rewrite <- Hs, Hr1, Hr2, Hr3, Hr4, Hr5. unfold IDQ. by rewrite <- ?app_assoc.
Qed.

Lemma re_findall_occurs icase r s m :
  m ∈ re_findall icase r s ->
  exists pv a w g s', s = a ++ w ++ s' /\ m = default [] g
                      /\ matches_at icase r pv (w ++ s') w g s'.
Proof.
  unfold re_findall, tokens. intros H.
  apply list_elem_of_omap in H as (t & Hin & Ht). destruct t as [c|h]; [done|].
  injection Ht as <-.
  apply scan_hits_sound in Hin as (a & pv' & s' & Hs & Hm).
  by exists pv', a, (h_text h), (h_grp h), s'.
Qed.

Lemma gradient_references_occur doc r :
  r ∈ Checker.gradient_references doc ->
  occurs (url_ref r) doc /\ r <> [] /\ (")"%char ∉ r).
Proof.
  intros H. apply re_findall_occurs in H as (pv & a & w & g & s' & -> & -> & Hm).
  apply reference_pattern_hit in Hm as (r & -> & -> & Hne & Hr). cbn [default].
  split_and!; [|done..]. by exists a, s'.
Qed.

Lemma gradient_definitions_occur doc v :
  v ∈ Checker.gradient_definitions doc -> occurs (IDQ v) doc.
Proof.
  intros H. apply re_findall_occurs in H as (pv & a & w & g & s' & -> & -> & Hm).
  apply id_attr_pattern_hit in Hm as (x & v & -> & -> & _). cbn [default].
  exists (a ++ "<" ++ x), s'. by rewrite <- ?app_assoc.
Qed.

Lemma lacks_definition_inj r r' :
  Checker.lacks_definition r = Checker.lacks_definition r' -> r = r'.
Proof.
  unfold Checker.lacks_definition. intros H. apply app_inv_head in H.
  by apply app_inv_tail in H.
Qed.

Lemma reference_issues_spec doc e :
  e ∈ Checker.reference_issues doc <->
  exists r, e = Checker.lacks_definition r /\ r ∈ Checker.gradient_references doc
            /\ r ∉ Checker.gradient_definitions doc.
Proof.
  unfold Checker.reference_issues. rewrite list_elem_of_omap. split.
  - intros (r & Hr & He). case_bool_decide; [done|]. injection He as <-. eauto.
  - intros (r & -> & Hr & Hn). exists r. split; [done|]. by rewrite bool_decide_eq_false_2.
Qed.

(** ** What the rewriting of fills keeps *)

Lemma fill_rewritten_inv s t :
  fill_rewritten s t ->
  (s = [] /\ t = [])
  \/ (exists c s' t', s = c :: s' /\ t = c :: t' /\ fill_rewritten s' t')
  \/ (exists v n s' t', s = FILLQ ++ v ++ [dq] ++ s'
                        /\ t = FILLQ ++ url_ref (grad_id n) ++ [dq] ++ t'
                        /\ (dq ∉ v) /\ fill_rewritten s' t').
Proof.
  destruct 1 as [|c s t H|v n s t Hv H]; [by left|right; left|right; right].
  - by exists c, s, t.
  - by exists v, n, s, t.
Qed.

Lemma prefix_before (w r X s : str) (c : ascii) :
  w ++ r = X ++ c :: s -> c ∉ w -> exists r', X = w ++ r'.
Proof.
  revert X. induction w as [|e w IH]; intros X E Hc; [by exists X|].
  apply not_elem_of_cons in Hc as [Hne Hc].
  destruct X as [|e' X]; simpl in E; injection E as -> E; [done|].
  destruct (IH _ E Hc) as [r' ->]. by exists r'.
Qed.

(** A prefix without [fill=Q], closed by a character that is not of
    [fill=Q], is kept. *)
Lemma fill_rewritten_prefix (x : str) (c : ascii) (s t : str) :
  fill_rewritten (x ++ c :: s) t -> ~ occurs FILLQ x -> c ∉ FILLQ ->
  exists s', t = x ++ c :: s' /\ fill_rewritten s s'.
Proof.
  revert t. induction x as [|d x IH]; intros t H Hno Hc.
  - apply fill_rewritten_inv in H as [[? _]|[(c' & s' & t' & E & -> & H)|
                                         (v & n & s' & t' & E & _)]]; [done| |].
    + injection E as <- <-. by exists t'.
    + unfold FILLQ in E. cbn in E. injection E as -> _.
      destruct Hc. unfold FILLQ. cbn. left.
  - cbn [app] in H.
    apply fill_rewritten_inv in H as [[? _]|[(c' & s' & t' & E & -> & H)|
                                         (v & n & s' & t' & E & _)]]; [done| |].
    + injection E as <- <-. destruct (IH t') as (s'' & -> & Hs); [done| |done|].
      * intros Ho. apply Hno. by apply occurs_cons.
      * by exists s''.
    + destruct Hno.
      destruct (prefix_before FILLQ (v ++ [dq] ++ s') (d :: x) s c) as [r' Hr];
        [by rewrite <- E|done|]. rewrite Hr. apply occurs_here.
Qed.

Lemma rewrites_prefix (x : str) (c : ascii) (s t : str) :
  rtc fill_rewritten (x ++ c :: s) t -> ~ occurs FILLQ x -> c ∉ FILLQ ->
  exists s', t = x ++ c :: s' /\ rtc fill_rewritten s s'.
Proof.
  intros H Hno Hc. remember (x ++ c :: s) as u eqn:Hu. revert s Hu.
  induction H as [u|u1 u2 u3 H1 _ IH]; intros s ->.
  - by exists s.
  - apply fill_rewritten_prefix in H1 as (s1 & -> & Hs1); [|done..].
    destruct (IH s1 eq_refl) as (s' & -> & Hs'). exists s'. split; [done|].
    by eapply rtc_l.
Qed.

Lemma fill_rewritten_close_defs s t :
  fill_rewritten s t -> occurs "</defs>" t -> occurs "</defs>" s.
Proof.
  induction 1 as [|c s t H IH|v n s t Hv H IH]; intros Ho.
  - done.
  - apply occurs_cons_inv in Ho as [[b Hb]|Ho]; [|by apply occurs_cons, IH].
    injection Hb as -> ->.
    apply fill_rewritten_cons_inv in H as (s1 & -> & H); [|done].
    apply fill_rewritten_cons_inv in H as (s2 & -> & H); [|done].
    apply fill_rewritten_cons_inv in H as (s3 & -> & H); [|done].
    apply fill_rewritten_f_inv in H as (s4 & -> & H); [|done].
    apply fill_rewritten_cons_inv in H as (s5 & -> & H); [|done].
    apply fill_rewritten_cons_inv in H as (s6 & -> & H); [|done].
    by exists [], s6.
  - assert (occurs "</defs>" t) as Ht.
    { apply (occurs_skip _ _ (FILLQ ++ url_ref (grad_id n) ++ [dq]));
        [by rewrite <- !app_assoc|notin]. }
    replace (FILLQ ++ v ++ [dq] ++ s) with ((FILLQ ++ v ++ [dq]) ++ s)
      by (by rewrite <- !app_assoc).
    by apply occurs_app_l, IH.
Qed.

Lemma rewrites_keep_absent (w s t : str) :
  (forall s t, fill_rewritten s t -> occurs w t -> occurs w s) ->
  rtc fill_rewritten s t -> ~ occurs w s -> ~ occurs w t.
Proof.
  intros Hw H. induction H as [|s u t H _ IH]; [done|].
  intros Hno. apply IH. intros Ho. apply Hno. by eapply Hw.
Qed.

(** ** First occurrences *)

Lemma first_at_after (w pfx post : str) :
  (forall y b' r, y <> [] -> w ++ b' = y ++ w ++ r -> occurs w y) ->
  ~ occurs w pfx -> first_at w pfx (pfx ++ w ++ post).
Proof.
  intros Hborder Hno. split; [by exists post|]. intros a' b' E.
  apply app_eq_inv in E as [(k & -> & E)|(k & -> & _)].
  - destruct k as [|c k]; [rewrite app_nil_r; lia|].
    destruct Hno. apply occurs_app_l. by eapply (Hborder (c :: k)).
  - rewrite length_app. lia.
Qed.

Lemma first_at_char (c : ascii) (x post : str) :
  c ∉ x -> first_at [c] x (x ++ [c] ++ post).
Proof.
  intros Hc. split; [by exists post|]. intros a' b' E.
  apply app_eq_inv in E as [(k & -> & E)|(k & -> & _)].
  - destruct k as [|c' k]; [rewrite app_nil_r; lia|]. injection E as <- _.
    destruct Hc. apply elem_of_app. right. left.
  - rewrite length_app. lia.
Qed.

Lemma defs_border (y b' r : str) :
  y <> [] -> "<defs>" ++ b' = y ++ "<defs>" ++ r -> occurs "<defs>" y.
Proof.
  intros Hy E.
  destruct y as [|c1 [|c2 [|c3 [|c4 [|c5 [|c6 y]]]]]]; try done; simplify_eq.
  by exists [], y.
Qed.

Lemma svg_border (y b' r : str) :
  y <> [] -> "<svg" ++ b' = y ++ "<svg" ++ r -> occurs "<svg" y.
Proof.
  intros Hy E.
  destruct y as [|c1 [|c2 [|c3 [|c4 y]]]]; try done; simplify_eq.
  by exists [], y.
Qed.

Lemma close_defs_later (pfx post a2 b2 : str) :
  ~ occurs "</defs>" pfx ->
  pfx ++ "<defs>" ++ post = a2 ++ "</defs>" ++ b2 -> (length pfx < length a2)%nat.
Proof.
  intros Hno E. apply app_eq_inv in E as [(k & -> & E)|(k & -> & E)].
  - destruct Hno. apply occurs_app_l.
    destruct k as [|c1 [|c2 [|c3 [|c4 [|c5 [|c6 [|c7 k]]]]]]]; try done; simplify_eq.
    by exists [], k.
  - destruct k as [|c k]; [done|]. rewrite length_app. simpl. lia.
Qed.

(** ** The checks of the root and of the definitions after an insertion *)

Lemma space_not_lt (ws : str) : Forall (fun c => is_space c = true) ws -> "<"%char ∉ ws.
Proof. intros H Hin. rewrite Forall_forall in H. by apply H in Hin. Qed.

Lemma no_svg_in_spaces (ws : str) :
  Forall (fun c => is_space c = true) ws -> ~ occurs "<svg" ws.
Proof.
  intros H (a & b & ->). apply space_not_lt in H. apply H.
  apply elem_of_app. right. left.
Qed.

Lemma defs_issues_inserted (ws a body post : str) :
  Forall (fun c => is_space c = true) ws -> ">"%char ∉ a ->
  ~ occurs "<defs>" (ws ++ "<svg" ++ a ++ ">") ->
  ~ occurs "</defs>" (ws ++ "<svg" ++ a ++ ">") ->
  Checker.defs_issues (ws ++ "<svg" ++ a ++ ">" ++ ("<defs>" ++ body ++ "</defs>") ++ post)
  = [].
Proof.
  intros Hws Ha Hopen Hclose.
  set (pfx := ws ++ "<svg" ++ a ++ ">") in *.
  set (rest0 := body ++ "</defs>" ++ post).
  replace (ws ++ "<svg" ++ a ++ ">" ++ ("<defs>" ++ body ++ "</defs>") ++ post)
    with (pfx ++ "<defs>" ++ rest0) by (unfold pfx, rest0; by rewrite <- ?app_assoc).
  unfold Checker.defs_issues.
  assert (contains "<defs>" (pfx ++ "<defs>" ++ rest0) = true) as ->
    by (apply contains_occurs; by exists pfx, rest0).
  rewrite (find_first "<defs>" pfx) by (apply first_at_after; [apply defs_border|done]).
  assert (Z.of_nat (length pfx) < find "</defs>" (pfx ++ "<defs>" ++ rest0)) as Hend.
  { destruct (find_spec "</defs>" (pfx ++ "<defs>" ++ rest0))
      as [[_ Hno]|(a2 & [[b2 E] _] & ->)].
    - destruct Hno. exists (pfx ++ "<defs>" ++ body), post.
      unfold rest0. by rewrite <- ?app_assoc.
    - apply close_defs_later in E; [lia|done]. }
  destruct (Z.leb_spec (find "</defs>" (pfx ++ "<defs>" ++ rest0)) (Z.of_nat (length pfx)));
    [lia|].
  assert (find "<svg" (pfx ++ "<defs>" ++ rest0) = Z.of_nat (length ws)) as ->.
  { apply find_first. unfold pfx. rewrite <- !app_assoc.
    apply first_at_after; [apply svg_border|by apply no_svg_in_spaces]. }
  assert (find_from ">" (pfx ++ "<defs>" ++ rest0) (Z.of_nat (length ws))
          = Z.of_nat (length ws) + Z.of_nat (length ("<svg" ++ a))) as ->.
  { unfold pfx. rewrite <- !app_assoc. rewrite find_from_skip, <- find_eq.
    rewrite (find_first ">" ("<svg" ++ a)).
    - destruct (Z.of_nat (length ("<svg" ++ a))) eqn:E; lia.
    - rewrite (app_assoc "<svg" a). apply (first_at_char ">").
      apply not_elem_of_app. split; [not_in_literal|done]. }
  destruct (Z.ltb_spec (Z.of_nat (length pfx))
              (Z.of_nat (length ws) + Z.of_nat (length ("<svg" ++ a)))) as [Hlt|_]; [|done].
  unfold pfx in Hlt. rewrite !length_app in Hlt. simpl in Hlt. lia.
Qed.

Lemma rooted_inserted (ws a block post : str) :
  Forall (fun c => is_space c = true) ws -> ">"%char ∉ a ->
  Checker.root_issues (ws ++ "<svg" ++ a ++ ">" ++ block ++ post) = [].
Proof.
  intros Hws Ha. unfold Checker.root_issues.
  rewrite bool_decide_eq_true_2; [done|].
  apply root_match_rooted. by exists ws, a, (block ++ post).
Qed.

Lemma occurs_app_r (w s x : str) : occurs w s -> occurs w (s ++ x).
Proof. intros (a & b & ->). exists a, (b ++ x). by rewrite <- ?app_assoc. Qed.

Lemma space_not_f (ws : str) : Forall (fun c => is_space c = true) ws -> "f"%char ∉ ws.
Proof. intros H Hin. rewrite Forall_forall in H. by apply H in Hin. Qed.

Lemma root_tag_no_fill (ws a : str) :
  Forall (fun c => is_space c = true) ws -> ~ occurs FILLQ a ->
  ~ occurs FILLQ (ws ++ "<svg" ++ a).
Proof.
  intros Hws Ha Ho. apply Ha.
  apply (occurs_skip "f" ("ill=" ++ [dq]) (ws ++ "<svg") a).
  - by rewrite <- app_assoc.
  - apply not_elem_of_app. split; [by apply space_not_f|not_in_literal].
Qed.

(** The patch of a document that begins with its root tag, part by part:
    the patched text, the returned document and its first two checks. *)
Lemma patched_document_parts (spec : Specification) (ws a post : str) :
  plain_colors spec ->
  Forall (fun c => is_space c = true) ws -> ">"%char ∉ a -> ~ occurs FILLQ a ->
  ~ occurs "<defs>" (ws ++ "<svg" ++ a ++ ">" ++ post) ->
  ~ occurs "</defs>" (ws ++ "<svg" ++ a ++ ">" ++ post) ->
  exists post',
    rtc fill_rewritten post post'
    /\ Modifier.apply_steps (steps spec) (ws ++ "<svg" ++ a ++ ">" ++ post) [] 1
       = Some (ws ++ "<svg" ++ a ++ ">" ++ post', step_defs 1 (steps spec))
    /\ Modifier.apply_gradients (ws ++ "<svg" ++ a ++ ">" ++ post) spec
       = Some (ws ++ "<svg" ++ a ++ ">"
               ++ Modifier.definitions_block (step_defs 1 (steps spec)) ++ post')
    /\ Checker.root_issues
         (ws ++ "<svg" ++ a ++ ">"
          ++ Modifier.definitions_block (step_defs 1 (steps spec)) ++ post') = []
    /\ Checker.defs_issues
         (ws ++ "<svg" ++ a ++ ">"
          ++ Modifier.definitions_block (step_defs 1 (steps spec)) ++ post') = [].
Proof.
  intros Hplain Hws Ha Hfill Hopen Hclose.
  set (doc := ws ++ "<svg" ++ a ++ ">" ++ post) in *.
  destruct (apply_steps_inv (rtc fill_rewritten doc)
              (fun s t Hst Hs => rtc_r _ _ _ Hs Hst) (steps spec) doc [] 1%nat
              (rtc_refl _ _))
    as (patched & frags & E & Hrtc).
  pose proof (apply_steps_defs _ _ _ _ _ _ E) as ->. cbn [app] in E.
  pose proof (rewrites_keep_absent _ _ _ fill_rewritten_defs Hrtc Hopen) as Hopen'.
  pose proof (rewrites_keep_absent _ _ _ fill_rewritten_close_defs Hrtc Hclose) as Hclose'.
  assert (doc = (ws ++ "<svg" ++ a) ++ ">"%char :: post) as Hdoc
    by (unfold doc; by rewrite <- ?app_assoc).
  rewrite Hdoc in Hrtc.
  apply rewrites_prefix in Hrtc as (post' & Hp & Hpost);
    [|by apply root_tag_no_fill|notin].
  assert (patched = ws ++ "<svg" ++ a ++ ">" ++ post') as ->
    by (rewrite Hp; by rewrite <- ?app_assoc).
  clear Hp.
  exists post'. split; [done|]. split; [exact E|]. split; [|split].
  - unfold Modifier.apply_gradients. rewrite E. cbn [mbind option_bind].
    unfold Modifier.place_definitions.
    apply contains_false in Hopen' as ->. rewrite definitions_block_eq.
    apply insert_after_root; [|by apply no_svg_in_spaces|done].
    apply not_elem_of_app. split; [by apply step_defs_no_bslash|notin].
  - by apply rooted_inserted.
  - unfold Modifier.definitions_block.
    apply defs_issues_inserted; [done|done| |].
    + intros Ho. apply Hopen'.
      replace (ws ++ "<svg" ++ a ++ ">" ++ post') with ((ws ++ "<svg" ++ a ++ ">") ++ post')
        by (by rewrite <- ?app_assoc).
      by apply occurs_app_r.
    + intros Ho. apply Hclose'.
      replace (ws ++ "<svg" ++ a ++ ">" ++ post') with ((ws ++ "<svg" ++ a ++ ">") ++ post')
        by (by rewrite <- ?app_assoc).
      by apply occurs_app_r.
Qed.

(** X14: patching, then validating.  For a document that begins with its
    root tag, with no fill attribute in that tag and no [<defs>] or
    [</defs>], the patcher puts the definitions right after the root tag
    and changes fill values in the rest; the result passes the root check
    and the definitions check, so that all the errors of its report come
    from the reference check. *)
Theorem patched_document_checks (spec : Specification) (ws a post : str) :
  plain_colors spec ->
  Forall (fun c => is_space c = true) ws -> ">"%char ∉ a -> ~ occurs FILLQ a ->
  ~ occurs "<defs>" (ws ++ "<svg" ++ a ++ ">" ++ post) ->
  ~ occurs "</defs>" (ws ++ "<svg" ++ a ++ ">" ++ post) ->
  exists post' out,
    rtc fill_rewritten post post'
    /\ out = ws ++ "<svg" ++ a ++ ">"
             ++ Modifier.definitions_block (step_defs 1 (steps spec)) ++ post'
    /\ Modifier.apply_gradients (ws ++ "<svg" ++ a ++ ">" ++ post) spec = Some out
    /\ errors (Checker.validate_svg out) = Checker.reference_issues out.
Proof.
  intros Hplain Hws Ha Hfill Hopen Hclose.
  destruct (patched_document_parts spec ws a post Hplain Hws Ha Hfill Hopen Hclose)
    as (post' & Hpost & _ & Hout & Hroot & Hdefs).
  exists post'. eexists. split; [done|]. split; [reflexivity|]. split; [exact Hout|].
  unfold Checker.validate_svg. cbn [errors]. by rewrite Hroot, Hdefs.
Qed.

(** ** What the report says *)

Lemma validate_errors doc :
  errors (Checker.validate_svg doc)
  = Checker.root_issues doc ++ Checker.defs_issues doc ++ Checker.reference_issues doc.
Proof. reflexivity. Qed.

Lemma lacks_definition_not_structural doc r :
  Checker.lacks_definition r ∉ Checker.root_issues doc ++ Checker.defs_issues doc.
Proof.
  rewrite elem_of_app. intros [H|H].
  - unfold Checker.root_issues in H. case_bool_decide; [by apply elem_of_nil in H|].
    by apply list_elem_of_singleton in H.
  - unfold Checker.defs_issues in H.
    repeat (case_match; try by apply elem_of_nil in H);
      by apply list_elem_of_singleton in H.
Qed.

(** X11: an error about the reference [r] is reported only when
    [url(#r)] occurs in the document and no tag gave [r] to the collected
    ids. *)
Theorem reference_error_sound (doc r : str) :
  Checker.lacks_definition r ∈ errors (Checker.validate_svg doc) ->
  r ∈ Checker.gradient_references doc /\ occurs (url_ref r) doc
  /\ r ∉ Checker.gradient_definitions doc.
Proof.
  rewrite validate_errors, app_assoc, elem_of_app. intros [H|H].
  { by apply lacks_definition_not_structural in H. }
  apply reference_issues_spec in H as (r' & E & Hr & Hn).
  apply lacks_definition_inj in E as <-. split_and!; [done| |done].
  by apply gradient_references_occur in Hr as [? _].
Qed.

Lemma reference_error_sound_witness :
  ("g" : str) ∈ Checker.gradient_references orphan_doc /\ occurs (url_ref "g") orphan_doc
  /\ ("g" : str) ∉ Checker.gradient_definitions orphan_doc.
Proof.
  apply (reference_error_sound orphan_doc "g").
  vm_compute. left.
Defined.

(** X12: a reference [r] the validator finds, with no text [id=QrQ] in
    the document, is reported, and the report is not valid. *)
Theorem dangling_reference_reported (doc r : str) :
  r ∈ Checker.gradient_references doc -> ~ occurs (IDQ r) doc ->
  Checker.lacks_definition r ∈ errors (Checker.validate_svg doc)
  /\ valid (Checker.validate_svg doc) = false.
Proof.
  intros Hr Hno.
  assert (Checker.lacks_definition r ∈ errors (Checker.validate_svg doc)) as Hin.
  { rewrite validate_errors, !elem_of_app. right. right. apply reference_issues_spec.
    exists r. split_and!; [done..|]. intros Hin. by apply gradient_definitions_occur in Hin. }
  split; [done|]. unfold Checker.validate_svg in *. cbn [valid errors] in *.
  apply bool_decide_eq_false_2. intros Hlen. apply nil_length_inv in Hlen.
  rewrite Hlen in Hin. by apply elem_of_nil in Hin.
Qed.

Lemma dangling_reference_reported_witness :
  Checker.lacks_definition "g" ∈ errors (Checker.validate_svg orphan_doc)
  /\ valid (Checker.validate_svg orphan_doc) = false.
Proof.
  apply (dangling_reference_reported orphan_doc "g").
  - vm_compute. left.
  - apply contains_false. vm_compute. reflexivity.
Defined.

Lemma open_defs_border (k b b2 : str) :
  k <> [] -> "<defs>" ++ b = k ++ "</defs>" ++ b2 -> exists m, k = "<defs>" ++ m.
Proof.
  intros Hk E.
  destruct k as [|c1 [|c2 [|c3 [|c4 [|c5 [|c6 k]]]]]]; try done; simplify_eq.
  by exists k.
Qed.

(** X13: what a valid report guarantees: the document begins with its
    root tag, every reference found has the text [id=QrQ] somewhere in the
    document, and the first [<defs>], when there is one, is closed by a
    [</defs>] after it. *)
Theorem valid_report_guarantees (doc : str) :
  valid (Checker.validate_svg doc) = true ->
  rooted doc
  /\ (forall r, r ∈ Checker.gradient_references doc -> occurs (IDQ r) doc)
  /\ (occurs "<defs>" doc ->
      exists a m b, doc = a ++ "<defs>" ++ m ++ "</defs>" ++ b /\ ~ occurs "<defs>" a).
Proof.
  unfold Checker.validate_svg. cbn [valid]. intros Hv.
  apply bool_decide_eq_true_1, nil_length_inv in Hv.
  apply app_eq_nil in Hv as [Hroot Hv]. apply app_eq_nil in Hv as [Hdefs Hrefs].
  split_and!.
  - apply root_match_rooted. unfold Checker.root_issues in Hroot.
    by case_bool_decide.
  - intros r Hr. destruct (decide (r ∈ Checker.gradient_definitions doc)) as [Hd|Hd].
    + by apply gradient_definitions_occur.
    + assert (Checker.lacks_definition r ∈ Checker.reference_issues doc) as Hin.
      { apply reference_issues_spec. by exists r. }
      rewrite Hrefs in Hin. by apply elem_of_nil in Hin.
  - intros Ho. unfold Checker.defs_issues in Hdefs.
    apply contains_occurs in Ho as Hc. rewrite Hc in Hdefs.
    destruct (find_spec "<defs>" doc) as [[_ Hno]|(a & Ha & Estart)]; [done|].
    rewrite Estart in Hdefs.
    destruct (Z.leb_spec (find "</defs>" doc) (Z.of_nat (length a))) as [|Hlt]; [done|].
    destruct (find_spec "</defs>" doc) as [[Eend _]|(a2 & [[b2 E2] _] & Eend)]; [lia|].
    rewrite Eend in Hlt. destruct Ha as [[b E] Hfirst].
    rewrite E in E2. apply app_eq_inv in E2 as [(k & -> & _)|(k & -> & E2)].
    { rewrite length_app in Hlt. lia. }
    destruct (open_defs_border k b b2) as [m ->]; [|done|].
    { intros ->. rewrite app_nil_r in Hlt. lia. }
    rewrite <- !app_assoc in E2. apply app_inv_head in E2 as ->.
    exists a, m, b2. split; [by rewrite E|].
    intros (x & y & ->). specialize (Hfirst x (y ++ "<defs>" ++ m ++ "</defs>" ++ b2)).
    rewrite E, <- !app_assoc in Hfirst. specialize (Hfirst eq_refl).
    rewrite !length_app in Hfirst. simpl in Hfirst. lia.
Qed.

Lemma valid_report_guarantees_witness :
  ("g1" : str) ∈ Checker.gradient_references linked_doc
  /\ occurs "<defs>" linked_doc
  /\ rooted linked_doc
  /\ (forall r, r ∈ Checker.gradient_references linked_doc -> occurs (IDQ r) linked_doc)
  /\ (occurs "<defs>" linked_doc ->
      exists a m b, linked_doc = a ++ "<defs>" ++ m ++ "</defs>" ++ b
                    /\ ~ occurs "<defs>" a).
Proof.
  split; [vm_compute; left|]. split; [apply contains_occurs; vm_compute; reflexivity|].
  apply (valid_report_guarantees linked_doc). vm_compute. reflexivity.
Defined.

(** ** Witnesses and the unclosed definitions *)

Lemma patched_document_checks_witness :
  exists post' out,
    rtc fill_rewritten hero_rest post'
    /\ out = [] ++ "<svg" ++ [] ++ ">"
             ++ Modifier.definitions_block (step_defs 1 (steps hero_spec)) ++ post'
    /\ Modifier.apply_gradients ([] ++ "<svg" ++ [] ++ ">" ++ hero_rest) hero_spec = Some out
    /\ errors (Checker.validate_svg out) = Checker.reference_issues out.
Proof.
  apply (patched_document_checks hero_spec [] [] hero_rest).
  - repeat constructor; apply not_elem_of_literal; vm_compute; reflexivity.
  - constructor.
  - apply not_elem_of_nil.
  - apply contains_false. vm_compute. reflexivity.
  - apply contains_false. vm_compute. reflexivity.
  - apply contains_false. vm_compute. reflexivity.
Defined.

(** X15: for a Specification whose stop colors hold no backslash, when
    the fill-patched text holds [<defs>] and no [</defs>], the patcher
    returns that text as it is: the definitions are dropped. *)
Theorem unclosed_defs_discards_definitions (doc : str) (spec : Specification) :
  plain_colors spec ->
  exists patched,
    Modifier.apply_steps (steps spec) doc [] 1 = Some (patched, step_defs 1 (steps spec))
    /\ (occurs "<defs>" patched -> ~ occurs "</defs>" patched ->
        Modifier.apply_gradients doc spec = Some patched).
Proof.
  intros Hplain. destruct (apply_steps_total (steps spec) doc [] 1) as [patched E].
  cbn [app] in E. exists patched. split; [done|]. intros Hd Hno.
  unfold Modifier.apply_gradients. rewrite E. cbn [mbind option_bind].
  unfold Modifier.place_definitions. apply contains_occurs in Hd as ->.
  apply unclosed_defs_kept; [|done]. by apply definitions_block_no_bslash.
Qed.

Lemma unclosed_defs_discards_definitions_witness :
  exists patched,
    Modifier.apply_steps (steps hero_spec) "<svg><defs></svg>" [] 1
    = Some (patched, step_defs 1 (steps hero_spec))
    /\ (occurs "<defs>" patched -> ~ occurs "</defs>" patched ->
        Modifier.apply_gradients "<svg><defs></svg>" hero_spec = Some patched).
Proof.
  apply (unclosed_defs_discards_definitions "<svg><defs></svg>" hero_spec).
  repeat constructor; apply not_elem_of_literal; vm_compute; reflexivity.
Defined.

Lemma unmatched_selectors_keep_text_witness :
  Modifier.apply_steps (steps hero_spec) "<svg><circle/></svg>" [] 1
  = Some ("<svg><circle/></svg>" : str, step_defs 1 (steps hero_spec))
  /\ length (step_defs 1 (steps hero_spec)) = length (steps hero_spec).
Proof.
  apply (unmatched_selectors_keep_text hero_spec "<svg><circle/></svg>").
  repeat constructor. apply contains_false. vm_compute. reflexivity.
Defined.

(** ** Scanning over a gap and over a hit *)

Lemma scan_gap icase r (g s : str) pv :
  (forall a b pv' w gr s', g = a ++ b -> b <> [] ->
     ~ matches_at icase r pv' (b ++ s) w gr s') ->
  scan icase r pv (g ++ s) 0 = map TChr g ++ scan icase r (last_prev pv g) s 0.
Proof.
  revert pv. induction g as [|c g IH]; intros pv Hno; [done|].
  cbn [app]. rewrite scan_miss.
  - cbn [map app]. f_equal. rewrite last_prev_cons. apply IH.
    intros a b pv' w gr s' -> Hb. by apply (Hno (c :: a) b).
  - destruct (match_at icase r pv (c :: g ++ s)) as [h|] eqn:E; [|done].
    apply match_at_Some in E as (s' & E).
    by destruct (Hno [] (c :: g) pv _ _ _ eq_refl ltac:(done) E).
Qed.

Lemma scan_unique_hit icase r (w s : str) gr pv :
  w <> [] ->
  (exists g0, matches_at icase r pv (w ++ s) w g0 s) ->
  (forall w' g' s', matches_at icase r pv (w ++ s) w' g' s' -> w' = w /\ g' = gr) ->
  scan icase r pv (w ++ s) 0 = THit (Hit w gr) :: scan icase r (last_prev pv w) s 0.
Proof.
  intros Hw [g0 Hm] Huniq.
  apply match_at_is_Some in Hm as [h E].
  pose proof E as (s' & Hm)%match_at_Some.
  destruct (Huniq _ _ _ Hm) as [Ht Hg]. destruct h as [w' g']. cbn [h_text h_grp] in *.
  subst w' g'. by rewrite (scan_hit _ _ _ _ _ s E).
Qed.

(** ** The matches of the tag pattern *)

Lemma matches_at_tag_fill tag pv s w g s' :
  matches_at false (Modifier.tag_fill_pattern tag) pv s w g s' <->
  exists b v, w = "<" ++ tag ++ b ++ FILLQ ++ v ++ [dq] /\ s = w ++ s'
              /\ g = Some (tag ++ b) /\ (">"%char ∉ b) /\ (dq ∉ v).
Proof.
  change (Modifier.tag_fill_pattern tag)
    with (fill_pattern (seqs [lit tag; Star Modifier.not_gt])).
  rewrite matches_at_fill. split.
  - intros (cap & v & mid & -> & -> & -> & Hv & HX & Hmid).
    apply matches_tag_group in HX as (b & Hr & Hb). cbn [rest] in Hr.
    rewrite Hmid in Hr. apply app_inv_tail in Hr as ->.
    exists b, v. by rewrite <- ?app_assoc.
  - intros (b & v & -> & -> & -> & Hb & Hv).
    exists (tag ++ b), v,
      (MState (last_prev (Some "<"%char) (tag ++ b)) (FILLQ ++ v ++ [dq] ++ s') None).
    split_and!; [by rewrite <- ?app_assoc|done..| |reflexivity].
    apply matches_seqs_cons. eexists. split.
    { apply matches_lit_exact. exists (b ++ FILLQ ++ v ++ [dq] ++ s'). cbn [rest].
      split; [by rewrite <- ?app_assoc|reflexivity]. }
    apply matches_seqs_cons. eexists. split.
    { apply matches_Star. exists b, (FILLQ ++ v ++ [dq] ++ s'). cbn [rest prev grp].
      split_and!; [done|by apply Forall_not_char|reflexivity]. }
    apply matches_seqs_nil. cbn [rest prev grp]. by rewrite last_prev_app.
Qed.

(** An occurrence of [w] that begins inside [g], before a character that
    [w] does not hold after its first place, lies inside [g]. *)
Lemma occurs_before (c0 : ascii) (w g a b y : str) (c : ascii) (s : str) :
  g = a ++ b -> b <> [] -> b ++ c :: s = (c0 :: w) ++ y -> c ∉ w ->
  occurs (c0 :: w) g.
Proof.
  intros -> Hb E Hc. apply occurs_app_l.
  destruct b as [|b0 b]; [done|]. cbn [app] in E. injection E as -> E.
  symmetry in E. apply prefix_before in E as [r ->]; [|done].
  by exists [], r.
Qed.

Section tag_patch.
Context (tag : str) (n : nat).
Hypothesis tag_lt : "<"%char ∉ tag.
Hypothesis tag_gt : ">"%char ∉ tag.

Let pat := Modifier.tag_fill_pattern tag.

Lemma tag_match_start pv s w g s' :
  matches_at false pat pv s w g s' -> exists y, s = ("<"%char :: tag) ++ y.
Proof.
  intros (b & v & -> & -> & _)%matches_at_tag_fill.
  exists (b ++ FILLQ ++ v ++ [dq] ++ s'). by rewrite <- ?app_assoc.
Qed.

(** No match begins inside a text that holds no [<tag] and is followed by
    [c], a character that is not of the tag name. *)
Lemma quiet_before (g : str) (c : ascii) (s : str) a b pv' w gr s' :
  ~ occurs ("<" ++ tag) g -> c ∉ tag ->
  g = a ++ b -> b <> [] -> ~ matches_at false pat pv' (b ++ c :: s) w gr s'.
Proof.
  intros Hno Hc Hg Hb Hm. apply tag_match_start in Hm as [y E].
  apply Hno. by eapply (occurs_before "<" tag g a b y c s).
Qed.

Lemma scan_quiet s pv :
  ~ occurs ("<" ++ tag) s -> scan false pat pv s 0 = map TChr s.
Proof.
  intros Hno. apply scan_no_match. intros a b pv' w g s' -> Hm.
  apply tag_match_start in Hm as [y ->]. apply Hno. by exists a, y.
Qed.

(** After a text [x] with no [<tag] and the [>] that follows it, the scan
    goes on with what comes next. *)
Lemma scan_tail_gap (x s : str) pv :
  ~ occurs ("<" ++ tag) x ->
  scan false pat pv (x ++ ">" ++ s) 0
  = map TChr (x ++ ">") ++ scan false pat (Some ">"%char) s 0.
Proof.
  intros Hno.
  replace (x ++ ">" ++ s) with ((x ++ [">"%char]) ++ s) by (by rewrite <- app_assoc).
  rewrite scan_gap; [by rewrite last_prev_snoc|].
  intros a b pv' w gr s' E Hb Hm.
  destruct (exists_last Hb) as (b1 & e & ->).
  rewrite app_assoc in E. apply app_inj_tail in E as [-> <-].
  rewrite <- app_assoc in Hm. cbn [app] in Hm.
  destruct b1 as [|b0 b1].
  - apply tag_match_start in Hm as [y E]. done.
  - by eapply (quiet_before (a ++ b0 :: b1) ">" s a (b0 :: b1)).
Qed.

Lemma no_tag_inside (b : str) :
  ~ occurs ("<" ++ tag) b -> ~ occurs ("<" ++ tag) (tag ++ b).
Proof. intros Hno Ho. apply Hno. by apply (occurs_skip "<" tag tag b). Qed.

Lemma tags_patched_scan s t pv :
  tags_patched tag (grad_id n) s t ->
  concat (map (render (fill_template n)) (scan false pat pv s 0)) = t.
Proof.
  intros H. revert pv.
  induction H as [s Hno|g b v c s t Hg Hbody Hfill Hv Hc H IH|g b s t Hg Hb Hfill Hbt H IH];
    intros pv.
  - rewrite scan_quiet by done. apply render_chars.
  - set (w := "<" ++ tag ++ b ++ FILLQ ++ v ++ [dq]).
    replace (g ++ "<" ++ tag ++ b ++ FILLQ ++ v ++ [dq] ++ c ++ ">" ++ s)
      with (g ++ w ++ c ++ ">" ++ s) by (unfold w; by rewrite <- ?app_assoc).
    assert (">"%char ∉ b) as Hb by (by apply not_elem_of_app in Hbody as [? _]).
    rewrite scan_gap.
    2:{ intros a b0 pv' w' gr s' Eg Hb0 Hm. unfold w in Hm.
        rewrite <- ?app_assoc in Hm. revert Hm.
        by apply (quiet_before g "<" (tag ++ b ++ FILLQ ++ v ++ [dq] ++ c ++ ">" ++ s) a b0). }
    rewrite (scan_unique_hit _ _ w (c ++ ">" ++ s) (Some (tag ++ b))); [|done| |].
    + rewrite scan_tail_gap by done.
      rewrite map_app, concat_app, render_chars. cbn [map concat render].
      rewrite map_app, concat_app, render_chars, IH.
      unfold fill_template. rewrite expand_replacement. by rewrite <- ?app_assoc.
    + exists (Some (tag ++ b)). apply matches_at_tag_fill. by exists b, v.
    + intros w' g' s' (b' & v' & -> & E & -> & Hb' & Hv')%matches_at_tag_fill.
      unfold w in E. rewrite <- !app_assoc in E. do 2 apply app_inv_head in E.
      assert ((b' ++ FILLQ) ++ v' ++ [dq] ++ s'
              = (b ++ FILLQ ++ v ++ [dq] ++ c) ++ ">"%char :: s) as E'
        by (rewrite <- ?app_assoc; by rewrite <- E).
      apply free_prefix in E' as (R' & HX & HR); [|notin|done].
      assert (b' = b) as ->.
      { apply (Hfill b' R'). by rewrite <- app_assoc in HX. }
      rewrite <- app_assoc in HX. do 2 apply app_inv_head in HX. subst R'.
      rewrite <- !app_assoc in HR.
      change (v' ++ dq :: s' = v ++ dq :: (c ++ ">" ++ s)) in HR.
      apply first_char_unique in HR as [-> ->]; done.
  - rewrite scan_gap.
    2:{ intros a b0 pv' w' gr s' Eg Hb0.
        by apply (quiet_before g "<" (tag ++ b ++ ">" ++ s) a b0). }
    assert (match_at false pat (last_prev pv g) ("<" ++ tag ++ b ++ ">" ++ s) = None) as Hmiss.
    { destruct (match_at false pat _ _) as [h|] eqn:E; [|done].
      apply match_at_Some in E as (s' & (b' & v' & -> & E & _ & Hb' & _)%matches_at_tag_fill).
      rewrite <- !app_assoc in E. do 2 apply app_inv_head in E.
      assert ((b' ++ FILLQ) ++ v' ++ [dq] ++ s' = b ++ ">"%char :: s) as E'
        by (rewrite <- ?app_assoc; by rewrite <- E).
      apply prefix_before in E' as [r Hr]; [|notin].
      destruct Hfill. exists b', r. by rewrite <- app_assoc in Hr. }
    change ("<" ++ tag ++ b ++ ">" ++ s) with ("<"%char :: (tag ++ b ++ ">" ++ s)) in *.
    rewrite scan_miss by done.
    rewrite (app_assoc tag b).
    rewrite scan_tail_gap by (by apply no_tag_inside).
    rewrite map_app, concat_app, render_chars. cbn [map concat render].
    rewrite map_app, concat_app, render_chars, IH.
    by rewrite <- ?app_assoc.
Qed.

Lemma tags_patched_sub s t :
  tags_patched tag (grad_id n) s t ->
  re_sub false pat (Modifier.replacement (grad_id n)) s = Some t.
Proof.
  intros H. unfold re_sub, pat.
  change (has_group (Modifier.tag_fill_pattern tag)) with true.
  rewrite parse_replacement by notin. cbn [mbind option_bind]. f_equal.
  by apply tags_patched_scan.
Qed.
End tag_patch.

(** X16: the tag selector patches every element of the tag.  When the
    document is cut at the places where [<tag] occurs, each such tag being
    closed by a [>] and holding at most one fill attribute, then the patch
    of the target [tag] turns the fill value of each of them that has one
    into [url(#grad1)], and changes nothing else. *)
Theorem every_tag_patched (tag d : str) (g : Gradient) (doc patched : str) :
  "<"%char ∉ tag -> ">"%char ∉ tag ->
  startswith "#" tag = false -> startswith "." tag = false ->
  tags_patched tag "grad1" doc patched ->
  Modifier.apply_steps
    [ {| targets := [ {| selector := tag; description := d |} ]; gradient := g |} ]
    doc [] 1
  = Some (patched, [Modifier.gradient_def "grad1" g]).
Proof.
  intros Hlt Hgt Hid Hclass H.
  cbn [Modifier.apply_steps targets gradient Modifier.apply_targets selector].
  unfold Modifier.selector_pattern. rewrite Hid, Hclass.
  change (tags_patched tag (grad_id 1) doc patched) in H.
  by rewrite (tags_patched_sub tag 1 Hlt Hgt doc patched H).
Qed.

Lemma every_tag_patched_witness :
  Modifier.apply_steps
    [ {| targets := [ {| selector := "circle"; description := "all circles" |} ];
         gradient := red_to_blue |} ]
    ("<svg>" ++ "<" ++ "circle" ++ " r=1 " ++ FILLQ ++ "red" ++ [dq] ++ "/" ++ ">"
     ++ [] ++ "<" ++ "circle" ++ "/" ++ ">" ++ "</svg>") [] 1
  = Some ("<svg>" ++ "<" ++ "circle" ++ " r=1 " ++ FILLQ ++ url_ref "grad1" ++ [dq] ++ "/"
          ++ ">" ++ [] ++ "<" ++ "circle" ++ "/" ++ ">" ++ "</svg>",
          [Modifier.gradient_def "grad1" red_to_blue]).
Proof.
  apply (every_tag_patched "circle" "all circles" red_to_blue).
  - apply not_elem_of_literal. vm_compute. reflexivity.
  - apply not_elem_of_literal. vm_compute. reflexivity.
  - reflexivity.
  - reflexivity.
  - apply (tp_fill "circle" "grad1" "<svg>" " r=1 " "red" "/").
    + apply contains_false. vm_compute. reflexivity.
    + apply not_elem_of_literal. vm_compute. reflexivity.
    + apply only_at_check. vm_compute. reflexivity.
    + apply not_elem_of_literal. vm_compute. reflexivity.
    + apply contains_false. vm_compute. reflexivity.
    + apply (tp_plain "circle" "grad1" [] "/").
      * apply contains_false. vm_compute. reflexivity.
      * apply not_elem_of_literal. vm_compute. reflexivity.
      * apply contains_false. vm_compute. reflexivity.
      * apply contains_false. vm_compute. reflexivity.
      * apply tp_rest. apply contains_false. vm_compute. reflexivity.
Defined.

(** ** The commands of an instruction *)

Lemma lstrip_spec s :
  exists p, s = p ++ lstrip s /\ Forall (fun c => is_space c = true) p
            /\ forall c, head (lstrip s) = Some c -> is_space c = false.
Proof.
  induction s as [|c s (p & Hs & Hp & Hh)]; [by exists []|].
  cbn [lstrip]. destruct (is_space c) eqn:E.
  - exists (c :: p). split_and!; [by rewrite Hs at 1|by constructor|done].
  - exists []. split_and!; [done|done|]. intros c' [= <-]. done.
Qed.

Lemma rstrip_spec s :
  exists q, s = rstrip s ++ q /\ Forall (fun c => is_space c = true) q
            /\ forall c, last (rstrip s) = Some c -> is_space c = false.
Proof.
  unfold rstrip. destruct (lstrip_spec (reverse s)) as (p & Hs & Hp & Hh).
  exists (reverse p). split_and!.
  - rewrite <- reverse_app, <- Hs. by rewrite reverse_involutive.
  - by apply Forall_reverse.
  - intros c. rewrite last_reverse. apply Hh.
Qed.

Lemma strip_trimmed s : strip s <> [] -> trimmed (strip s).
Proof.
  intros Hne. split; [done|]. unfold strip in *.
  destruct (lstrip_spec s) as (p & _ & _ & Hh).
  destruct (rstrip_spec (lstrip s)) as (q & Hq & Hsp & Hl).
  split; [|done]. intros c Hc. apply Hh.
  destruct (rstrip (lstrip s)) as [|c' r]; [done|]. injection Hc as ->.
  by rewrite Hq.
Qed.

Lemma commands_trimmed instruction : Forall trimmed (Parser.commands instruction).
Proof.
  unfold Parser.commands. apply Forall_forall. intros cmd Hin.
  apply list_elem_of_filter in Hin as [Hne Hin].
  apply list_elem_of_fmap in Hin as (piece & -> & _). by apply strip_trimmed.
Qed.

(** X17: the commands the parser works on are not empty and have no white
    space at either end, and the Specification has one step for each of
    them, in their order. *)
Theorem one_step_per_command (instruction : str) :
  Forall trimmed (Parser.commands instruction)
  /\ exists spec, Parser.parse_instruction instruction = Some spec
                  /\ mapM Parser.parse_command (Parser.commands instruction)
                     = Some (steps spec)
                  /\ length (steps spec) = length (Parser.commands instruction).
Proof.
  split; [apply commands_trimmed|].
  unfold Parser.parse_instruction.
  destruct (mapM_total Parser.parse_command step_wf (Parser.commands instruction)
              parse_command_total) as (ys & E & _ & Hlen).
  rewrite E. cbn [mbind option_bind]. by exists {| steps := ys |}.
Qed.

(** ** References after a patch *)

Lemma refs_upto_suffix N (x s : str) : refs_upto N (x ++ s) -> refs_upto N s.
Proof. intros H a y ->. apply (H (x ++ a) y). by rewrite <- app_assoc. Qed.

Lemma fills_patched_inv ok gid s t :
  fills_patched ok gid s t ->
  (s = [] /\ t = [])
  \/ (exists c s' t', s = c :: s' /\ t = c :: t' /\ fills_patched ok gid s' t')
  \/ (exists cap v s' t', s = "<" ++ cap ++ FILLQ ++ v ++ [dq] ++ s'
                          /\ t = "<" ++ cap ++ FILLQ ++ url_ref gid ++ [dq] ++ t'
                          /\ ok cap /\ (dq ∉ v) /\ fills_patched ok gid s' t').
Proof.
  destruct 1 as [|c s t H|cap v s t Hc Hv H]; [by left|right; left|right; right].
  - by exists c, s, t.
  - by exists cap, v, s, t.
Qed.

(** Characters other than [<] are kept, from the document to the patched
    text and back. *)
Lemma fills_patched_keeps ok gid (x s t : str) :
  "<"%char ∉ x -> fills_patched ok gid (x ++ s) t ->
  exists t', t = x ++ t' /\ fills_patched ok gid s t'.
Proof.
  revert t. induction x as [|c x IH]; intros t Hx H; [by exists t|].
  apply not_elem_of_cons in Hx as [Hc Hx]. cbn [app] in H.
  apply fills_patched_inv in H as [[? _]|[(c' & s' & t' & E & -> & H)|
                                      (cap & v & s' & t' & E & _)]]; [done| |].
  - injection E as <- <-. destruct (IH _ Hx H) as (t'' & -> & H'). by exists t''.
  - by injection E as ->.
Qed.

Lemma fills_patched_kept ok gid (x s t : str) :
  "<"%char ∉ x -> fills_patched ok gid s (x ++ t) ->
  exists s', s = x ++ s' /\ fills_patched ok gid s' t.
Proof.
  revert s. induction x as [|c x IH]; intros s Hx H; [by exists s|].
  apply not_elem_of_cons in Hx as [Hc Hx]. cbn [app] in H.
  apply fills_patched_inv in H as [[_ ?]|[(c' & s' & t' & -> & E & H)|
                                      (cap & v & s' & t' & _ & E & _)]]; [done| |].
  - injection E as <- <-. destruct (IH _ Hx H) as (s'' & -> & H'). by exists s''.
  - by injection E as ->.
Qed.

Lemma grad_id_no_lt k : "<"%char ∉ grad_id k ++ ")".
Proof. notin. Qed.

Lemma grad_id_no_dq k : dq ∉ grad_id k ++ ")".
Proof. notin. Qed.

Lemma grad_id_no_u k : "u"%char ∉ "rl(#" ++ grad_id k ++ ")" ++ [dq].
Proof. notin. Qed.

Lemma fills_patched_refs ok N n s t :
  (1 <= n <= N)%nat ->
  fills_patched ok (grad_id n) s t -> refs_upto N s -> refs_upto N t.
Proof.
  intros Hn H. induction H as [|c s t H IH|cap v s t Hc Hv H IH]; intros Hs x y E.
  - by destruct x.
  - destruct x as [|c' x].
    + cbn [app] in E. injection E as -> E. subst t.
      apply (fills_patched_kept _ _ "rl(#") in H as (s' & -> & H); [|not_in_literal].
      destruct (Hs [] s' eq_refl) as (k & y' & Hk & ->).
      rewrite app_assoc in H.
      apply fills_patched_keeps in H as (t' & -> & _); [|apply grad_id_no_lt].
      exists k, t'. split; [done|]. by rewrite <- app_assoc.
    + cbn [app] in E. injection E as <- E.
      apply (IH (refs_upto_suffix N [c] s Hs) x y E).
  - set (pfx := "<" ++ cap ++ FILLQ) in *.
    assert (forall z : str, "<" ++ cap ++ FILLQ ++ z = pfx ++ z) as Hpfx
      by (intros z; unfold pfx; by rewrite <- ?app_assoc).
    rewrite Hpfx in E, Hs.
    apply app_eq_inv in E as [(k & Ex & E)|(k & -> & E)].
    + (* the occurrence begins inside the kept prefix *)
      destruct k as [|k0 k].
      { cbn [app] in E. unfold url_ref in E. rewrite <- !app_assoc in E.
        apply app_inv_head in E as ->. exists n, ([dq] ++ t). by rewrite <- ?app_assoc. }
      assert (exists k', k0 :: k = k' ++ [dq]) as [k' Hk'].
      { assert (exists p, pfx = p ++ [dq]) as [p Hp].
        { exists ("<" ++ cap ++ "fill="). unfold pfx, FILLQ. by rewrite <- ?app_assoc. }
        rewrite Hp in Ex. destruct (exists_last (l := k0 :: k) ltac:(done)) as (k' & e & Hk').
        rewrite Hk', app_assoc in Ex. apply app_inj_tail in Ex as [_ <-]. by exists k'. }
      rewrite Hk', <- app_assoc in E. cbn [app] in E.
      pose proof E as E2. apply prefix_before in E2 as [r0 Hr0]; [|not_in_literal].
      rewrite Hr0, <- app_assoc in E. apply app_inv_head in E as ->.
      specialize (Hs x (r0 ++ [dq] ++ v ++ [dq] ++ s)).
      destruct Hs as (j & y' & Hj & Hy).
      { rewrite Ex, Hk', Hr0. by rewrite <- ?app_assoc. }
      assert ((grad_id j ++ ")") ++ y' = r0 ++ dq :: (v ++ [dq] ++ s)) as Hy'
        by (by rewrite <- app_assoc, <- Hy).
      apply prefix_before in Hy' as [r1 ->]; [|apply grad_id_no_dq].
      exists j, (r1 ++ [dq] ++ url_ref (grad_id n) ++ [dq] ++ t). split; [done|].
      by rewrite <- ?app_assoc.
    + (* the occurrence begins in the new value or after it *)
      destruct k as [|k0 k].
      { cbn [app] in E. unfold url_ref in E. rewrite <- !app_assoc in E.
        apply app_inv_head in E as <-. exists n, ([dq] ++ t). by rewrite <- ?app_assoc. }
      unfold url_ref in E. rewrite <- !app_assoc in E. cbn [app] in E.
      change (String.list_ascii_of_string "url(#") with ("u"%char :: "rl(#") in E.
      cbn [app] in E. injection E as <- E.
      assert (("rl(#" ++ grad_id n ++ ")" ++ [dq]) ++ t = k ++ "u"%char :: ("rl(#" ++ y)) as E'
        by (rewrite <- !app_assoc; exact E).
      apply app_eq_skip in E' as (a' & -> & Et); [|apply grad_id_no_u].
      apply (IH (refs_upto_suffix N (pfx ++ v ++ [dq]) s
                   ltac:(by rewrite <- ?app_assoc)) a' y Et).
Qed.

Lemma apply_targets_refs N n ts s :
  (1 <= n <= N)%nat -> refs_upto N s ->
  exists t, Modifier.apply_targets (grad_id n) ts s = Some t /\ refs_upto N t.
Proof.
  intros Hn. revert s. induction ts as [|tg ts IH]; intros s Hs; cbn [Modifier.apply_targets].
  - by exists s.
  - destruct (re_sub_selected (selector tg) n s) as (t & -> & Ht).
    cbn [mbind option_bind]. apply IH. by eapply fills_patched_refs.
Qed.

Lemma apply_steps_refs N sts s defs n :
  (1 <= n)%nat -> (n + length sts <= S N)%nat -> refs_upto N s ->
  exists t frags, Modifier.apply_steps sts s defs n = Some (t, frags) /\ refs_upto N t.
Proof.
  revert s defs n. induction sts as [|st sts IH]; intros s defs n Hn Hlen Hs;
    cbn [Modifier.apply_steps].
  - by exists s, defs.
  - cbn [length] in Hlen.
    destruct (apply_targets_refs N n (targets st) s ltac:(lia) Hs) as (t & -> & Ht).
    cbn [mbind option_bind]. apply IH; [lia|lia|done].
Qed.

Lemma no_refs_upto N s : ~ occurs "url(#" s -> refs_upto N s.
Proof. intros Hno x y ->. destruct Hno. by exists x, y. Qed.

Lemma refs_upto_reference N s r :
  refs_upto N s -> occurs (url_ref r) s -> ")"%char ∉ r ->
  exists k, (1 <= k <= N)%nat /\ r = grad_id k.
Proof.
  intros Hs (x & y & ->) Hr.
  destruct (Hs x (r ++ ")" ++ y)) as (k & y' & Hk & E).
  { unfold url_ref. by rewrite <- ?app_assoc. }
  exists k. split; [done|].
  change (r ++ ")"%char :: y = grad_id k ++ ")"%char :: y') in E.
  apply first_char_unique in E as [-> _]; [done|done|notin].
Qed.

(** ** Places where a text can begin *)

Lemma candidates_spec (w A a k : str) i :
  A = a ++ k -> k <> [] -> startswith w k || startswith k w = true ->
  (i + length a)%nat ∈ candidates w A i.
Proof.
  revert A i. induction a as [|c a IH]; intros A i -> Hk Hc.
  - destruct k as [|c k]; [done|]. cbn [app candidates length]. rewrite Hc.
    rewrite Nat.add_0_r. by left.
  - cbn [app candidates length]. apply elem_of_app. right.
    replace (i + S (length a))%nat with (S i + length a)%nat by lia. by apply IH.
Qed.

(** A text that occurs once among the candidates of [A] occurs once in
    [A ++ X], when [X] does not hold its first character. *)
Lemma only_at_candidates (c0 : ascii) (w' a0 b0 X : str) :
  candidates (c0 :: w') (a0 ++ (c0 :: w') ++ b0) 0 = [length a0] ->
  c0 ∉ X -> only_at (c0 :: w') a0 (b0 ++ X).
Proof.
  intros Hcand Hc a' b' E.
  assert ((a0 ++ (c0 :: w') ++ b0) ++ X = a' ++ (c0 :: w') ++ b') as E'
    by (rewrite <- E; by rewrite <- ?app_assoc).
  apply app_eq_inv in E' as [(k & EA & E')|(k & -> & E')].
  2:{ destruct Hc. rewrite E'. apply elem_of_app. right. left. }
  - destruct k as [|k0 k].
    { destruct Hc. cbn [app] in E'. rewrite <- E'. left. }
    assert (startswith (c0 :: w') (k0 :: k) || startswith (k0 :: k) (c0 :: w') = true) as Hcomp.
    { apply orb_true_iff. symmetry in E'.
      apply app_eq_inv in E' as [(k2 & Ek & _)|(k2 & Ek & _)].
      - left. apply startswith_prefix. eauto.
      - right. apply startswith_prefix. eauto. }
    pose proof (candidates_spec _ _ a' (k0 :: k) 0 EA ltac:(done) Hcomp) as Hin.
    rewrite Hcand in Hin. apply list_elem_of_singleton in Hin. simpl in Hin.
    assert (length a0 = length a') as Hl by lia.
    by apply app_inj_1 in E as [-> _].
Qed.

(** ** Texts in which no id is found *)

Lemma matches_at_id_attr pv s w g s' :
  matches_at false Checker.id_attr_pattern pv s w g s' <->
  exists x v, w = "<" ++ x ++ IDEQ ++ v ++ [dq] /\ s = w ++ s' /\ g = Some v
              /\ v <> [] /\ (dq ∉ v) /\ (">"%char ∉ x).
Proof.
  split.
  - intros H. pose proof (matches_at_text _ _ _ _ _ _ _ H) as Hs.
    apply id_attr_pattern_hit in H as (x & v & -> & -> & Hne & Hv & Hx).
    exists x, v. split_and!; try done.
  - intros (x & v & -> & -> & -> & Hne & Hv & Hx). split; [done|].
    unfold Checker.id_attr_pattern.
    apply matches_seqs_cons. eexists. split.
    { apply matches_Chr_exact. exists (x ++ IDEQ ++ v ++ [dq] ++ s'). cbn [rest].
      split; [by rewrite <- ?app_assoc|reflexivity]. }
    apply matches_seqs_cons. eexists. split.
    { apply matches_Star. exists x, (IDEQ ++ v ++ [dq] ++ s'). cbn [rest prev grp].
      split_and!; [done|by apply Forall_not_char|reflexivity]. }
    apply matches_seqs_cons. eexists. split.
    { apply matches_lit_exact. exists (v ++ [dq] ++ s'). cbn [rest prev grp].
      split; [done|reflexivity]. }
    apply matches_seqs_cons. eexists. split.
    { cbn [matches]. eexists. split; [|reflexivity].
      apply matches_Plus. exists v, ([dq] ++ s'). cbn [rest prev grp].
      split_and!; [done|by apply Forall_not_char|done|reflexivity]. }
    apply matches_seqs_cons. eexists. split.
    { apply matches_Chr_exact. exists s'. cbn [rest prev grp]. split; [done|reflexivity]. }
    apply matches_seqs_nil. cbn [rest prev grp]. f_equal.
    + replace ("<" ++ x ++ IDEQ ++ v ++ [dq]) with (("<" ++ x ++ IDEQ ++ v) ++ [dq])
        by (by rewrite <- ?app_assoc).
      by rewrite last_prev_snoc.
    + by rewrite take_app_minus.
Qed.

Lemma quiet_ids_nil : quiet_ids [].
Proof. intros a b s pv w g s' E Hb. by destruct a, b. Qed.

Lemma quiet_ids_app G1 G2 : quiet_ids G1 -> quiet_ids G2 -> quiet_ids (G1 ++ G2).
Proof.
  intros H1 H2 a b s pv w g s' E Hb Hm.
  apply app_eq_inv in E as [(k & -> & ->)|(k & -> & E)].
  - destruct k as [|k0 k]; [by apply (H2 [] G2 s pv w g s')|].
    rewrite <- app_assoc in Hm. by apply (H1 a (k0 :: k) (G2 ++ s) pv w g s').
  - by apply (H2 k b s pv w g s').
Qed.

(** A text with no [id=Q], closed by [>]. *)
Lemma quiet_ids_closed (x : str) : ~ occurs IDEQ x -> quiet_ids (x ++ ">").
Proof.
  intros Hno a b s pv w g s' E Hb Hm.
  destruct (exists_last Hb) as (b1 & e & ->).
  rewrite app_assoc in E. apply app_inj_tail in E as [-> <-].
  apply matches_at_id_attr in Hm as (y & v & -> & E & _ & _ & _ & Hy).
  rewrite <- !app_assoc in E. cbn [app] in E.
  assert (("<" ++ y ++ IDEQ) ++ v ++ [dq] ++ s' = b1 ++ ">"%char :: s) as E'
    by (rewrite E; by rewrite <- ?app_assoc).
  apply prefix_before in E' as [r ->]; [|unfold IDEQ; notin].
  apply Hno. apply occurs_app_l. exists ("<" ++ y), r. by rewrite <- ?app_assoc.
Qed.

Lemma scan_quiet_ids G s pv :
  quiet_ids G ->
  scan false Checker.id_attr_pattern pv (G ++ s) 0
  = map TChr G ++ scan false Checker.id_attr_pattern (last_prev pv G) s 0.
Proof.
  intros HG. apply scan_gap. intros a b pv' w gr s' E Hb. by apply (HG a b s).
Qed.

(** ** The ids of the definitions *)

Lemma shapes_ok : Forall (fun shape => shape_ok shape = true) gradient_shapes.
Proof. repeat constructor. Qed.

Lemma gradient_def_parts gid g :
  exists kind attrs,
    (kind, attrs) ∈ gradient_shapes
    /\ Modifier.gradient_def gid g
       = ("<" ++ kind ++ " " ++ IDEQ ++ gid ++ [dq]) ++ (attrs ++ ">")
         ++ concat (map Modifier.stop_element (stops g)) ++ ("</" ++ kind) ++ ">".
Proof.
  unfold Modifier.gradient_def, Modifier.gradient_open, Modifier.gradient_close.
  repeat case_bool_decide; try done.
  - eexists _, _. split; [left|]. unfold IDEQ. rewrite <- ?app_assoc. reflexivity.
  - eexists _, _. split; [right; left|]. unfold IDEQ. rewrite <- ?app_assoc. reflexivity.
  - eexists _, _. split; [right; right; left|]. unfold IDEQ. rewrite <- ?app_assoc.
    reflexivity.
  - eexists _, _. split; [right; right; right; left|]. unfold IDEQ. rewrite <- ?app_assoc.
    reflexivity.
Qed.

Lemma shape_ok_spec kind attrs :
  (kind, attrs) ∈ gradient_shapes ->
  candidates IDEQ (kind ++ " " ++ IDEQ) 0 = [S (length kind)]
  /\ ~ occurs IDEQ attrs /\ ~ occurs IDEQ ("</" ++ kind)
  /\ (">"%char ∉ kind ++ " " ++ attrs) /\ ("i"%char ∉ attrs)
  /\ ("("%char ∉ kind ++ attrs).
Proof.
  intros Hin. pose proof shapes_ok as Hall. rewrite Forall_forall in Hall.
  apply Hall in Hin. unfold shape_ok in Hin. cbn [fst snd] in Hin.
  rewrite !andb_true_iff, !negb_true_iff, bool_decide_eq_true in Hin.
  destruct Hin as [[[[[Hc Ha] Hk] Hgt] Hi] Hp].
  split_and!; [done|by apply contains_false|by apply contains_false
              |by apply not_elem_of_literal..].
Qed.

(** ** The stop elements *)

Lemma pred_not (P : ascii -> bool) (a : ascii) (w : str) :
  P a = false -> Forall (fun c => P c = true) w -> a ∉ w.
Proof.
  intros Ha Hw Hin. rewrite Forall_forall in Hw. apply Hw in Hin. congruence.
Qed.

Lemma hex_color_chars (a : ascii) c :
  hex_color c -> is_hex a = false -> a <> "#"%char -> a ∉ c.
Proof.
  intros (w & -> & Hw & _) Ha Hh. apply not_elem_of_cons. split; [done|].
  by apply (pred_not is_hex).
Qed.

Lemma str_of_Z_not (a : ascii) z :
  is_digit a || is_char "-" a = false -> a ∉ str_of_Z z.
Proof.
  intros Ha. apply (pred_not (fun c => is_digit c || is_char "-" c)); [done|].
  apply str_of_Z_chars.
Qed.

Lemma stop_element_hex st :
  hex_color (color st) ->
  Modifier.stop_element st
  = ((("<stop offset=" ++ [dq]) ++ str_of_Z (offset st)
      ++ ("%" ++ [dq] ++ " style=" ++ [dq] ++ "stop-color:") ++ color st)
     ++ (";stop-opacity:1" ++ [dq] ++ " /")) ++ ">".
Proof.
  intros (w & E & _). unfold Modifier.stop_element. rewrite E.
  change (startswith "#" ("#" ++ w)) with true. cbn [negb andb].
  by rewrite <- ?app_assoc.
Qed.

Lemma stop_element_quiet st : hex_color (color st) -> quiet_ids (Modifier.stop_element st).
Proof.
  intros Hc. rewrite (stop_element_hex _ Hc). apply quiet_ids_closed.
  intros Ho. apply occurs_skip in Ho.
  - revert Ho. apply contains_false. vm_compute. reflexivity.
  - apply not_elem_of_app. split; [not_in_literal|].
    apply not_elem_of_app. split; [by apply str_of_Z_not|].
    apply not_elem_of_app. split; [not_in_literal|].
    by apply hex_color_chars.
Qed.

Lemma stop_element_no_paren st :
  hex_color (color st) -> "("%char ∉ Modifier.stop_element st.
Proof.
  intros Hc. rewrite (stop_element_hex _ Hc).
  pose proof (str_of_Z_not "(" (offset st) eq_refl).
  pose proof (hex_color_chars "(" _ Hc eq_refl ltac:(done)).
  notin.
Qed.

Lemma stops_quiet (sts : list Stop) :
  Forall (fun st => hex_color (color st)) sts ->
  quiet_ids (concat (map Modifier.stop_element sts)).
Proof.
  induction 1 as [|st sts Hst _ IH]; cbn [map concat]; [apply quiet_ids_nil|].
  apply quiet_ids_app; [by apply stop_element_quiet|done].
Qed.

Lemma stops_no_paren (sts : list Stop) :
  Forall (fun st => hex_color (color st)) sts ->
  "("%char ∉ concat (map Modifier.stop_element sts).
Proof.
  induction 1 as [|st sts Hst _ IH]; cbn [map concat]; [apply not_elem_of_nil|].
  apply not_elem_of_app. split; [by apply stop_element_no_paren|done].
Qed.

(** ** The scan of one definition *)

Lemma scan_gradient_def k g s pv :
  Forall (fun st => hex_color (color st)) (stops g) ->
  exists w G,
    scan false Checker.id_attr_pattern pv (Modifier.gradient_def (grad_id k) g ++ s) 0
    = THit (Hit w (Some (grad_id k)))
      :: map TChr G
      ++ scan false Checker.id_attr_pattern (last_prev (last_prev pv w) G) s 0.
Proof.
  intros Hstops.
  destruct (gradient_def_parts (grad_id k) g) as (kind & attrs & Hin & E).
  destruct (shape_ok_spec _ _ Hin) as (Hc & Hattrs & Hclose & Hgt & Hi & _).
  set (w := "<" ++ kind ++ " " ++ IDEQ ++ grad_id k ++ [dq]) in *.
  set (G := (attrs ++ ">") ++ concat (map Modifier.stop_element (stops g))
            ++ ("</" ++ kind) ++ ">") in *.
  exists w, G. rewrite E, <- app_assoc.
  assert (quiet_ids G) as HG.
  { apply quiet_ids_app; [by apply quiet_ids_closed|].
    apply quiet_ids_app; [by apply stops_quiet|by apply quiet_ids_closed]. }
  assert (only_at IDEQ (kind ++ " ") (grad_id k ++ [dq] ++ attrs)) as Honly.
  { apply (only_at_candidates "i" ("d=" ++ [dq]) (kind ++ " ") [] (grad_id k ++ [dq] ++ attrs)).
    - rewrite app_nil_r, <- app_assoc, length_app. cbn [length].
      rewrite Nat.add_1_r. exact Hc.
    - notin. }
  rewrite (scan_unique_hit _ _ w (G ++ s) (Some (grad_id k))).
  - f_equal. by apply scan_quiet_ids.
  - done.
  - exists (Some (grad_id k)). apply matches_at_id_attr.
    exists (kind ++ " "), (grad_id k).
    split_and!; [unfold w; by rewrite <- ?app_assoc|done|done|done|notin|].
    intros Hx. apply Hgt. rewrite app_assoc. apply elem_of_app. by left.
  - intros w' g' s' Hm.
    apply matches_at_id_attr in Hm as (x & v & -> & Es & -> & Hne & Hv & Hx).
    set (T := attrs ++ ">"%char :: (concat (map Modifier.stop_element (stops g))
                                     ++ ("</" ++ kind) ++ ">" ++ s)).
    assert (kind ++ " " ++ IDEQ ++ grad_id k ++ dq :: T
            = x ++ IDEQ ++ v ++ dq :: s') as Es2.
    { unfold w, G in Es. rewrite <- !app_assoc in Es.
      apply (app_inv_head ("<" : str)) in Es. exact Es. }
    assert ((x ++ IDEQ) ++ v ++ dq :: s'
            = (kind ++ " " ++ IDEQ ++ grad_id k ++ [dq] ++ attrs)
              ++ ">"%char :: (concat (map Modifier.stop_element (stops g))
                              ++ ("</" ++ kind) ++ ">" ++ s)) as Es'
      by (rewrite <- !app_assoc; symmetry; exact Es2).
    apply prefix_before in Es' as [r' Hr']; [|unfold IDEQ; notin].
    assert (x = kind ++ " ") as ->.
    { apply (Honly x r'). rewrite <- !app_assoc in Hr'. rewrite <- !app_assoc.
      exact Hr'. }
    rewrite <- !app_assoc in Es2. do 3 apply app_inv_head in Es2.
    apply first_char_unique in Es2 as [<- _]; [|notin|done].
    split; [unfold w; by rewrite <- ?app_assoc|done].
Qed.

(** ** The scan of the definitions block *)

Lemma scan_step_defs sts n k s pv :
  Forall (fun st => gradient_wf (gradient st)) sts ->
  (n <= k < n + length sts)%nat ->
  exists w, THit (Hit w (Some (grad_id k)))
            ∈ scan false Checker.id_attr_pattern pv (concat (step_defs n sts) ++ s) 0.
Proof.
  intros Hwf. revert n pv. induction Hwf as [|st sts Hst _ IH]; intros n pv Hk;
    cbn [length] in Hk; [lia|].
  cbn [step_defs concat]. rewrite <- app_assoc.
  destruct Hst as (_ & _ & Hstops).
  destruct (scan_gradient_def n (gradient st) (concat (step_defs (S n) sts) ++ s) pv Hstops)
    as (w & G & ->).
  destruct (decide (k = n)) as [->|Hne].
  - exists w. left.
  - destruct (IH (S n) (last_prev (last_prev pv w) G) ltac:(lia)) as [w' Hin].
    exists w'. right. apply elem_of_app. by right.
Qed.

Lemma gradient_def_no_paren k g :
  Forall (fun st => hex_color (color st)) (stops g) ->
  "("%char ∉ Modifier.gradient_def (grad_id k) g.
Proof.
  intros Hstops.
  destruct (gradient_def_parts (grad_id k) g) as (kind & attrs & Hin & ->).
  destruct (shape_ok_spec _ _ Hin) as (_ & _ & _ & _ & _ & Hp).
  apply not_elem_of_app in Hp as [Hkind Hattrs].
  pose proof (stops_no_paren _ Hstops). unfold IDEQ. notin.
Qed.

Lemma step_defs_no_paren sts n :
  Forall (fun st => gradient_wf (gradient st)) sts ->
  "("%char ∉ concat (step_defs n sts).
Proof.
  intros Hwf. revert n. induction Hwf as [|st sts Hst _ IH]; intros n;
    cbn [step_defs concat]; [apply not_elem_of_nil|].
  destruct Hst as (_ & _ & Hstops).
  apply not_elem_of_app. split; [by apply gradient_def_no_paren|apply IH].
Qed.

(** The validator finds the id of every definition of a block put right
    after a root tag that holds no [id=Q]. *)
Lemma definitions_found (ws a post : str) sts k :
  Forall (fun c => is_space c = true) ws -> ~ occurs IDEQ a ->
  Forall (fun st => gradient_wf (gradient st)) sts ->
  (1 <= k <= length sts)%nat ->
  grad_id k ∈ Checker.gradient_definitions
                (ws ++ "<svg" ++ a ++ ">"
                 ++ Modifier.definitions_block (step_defs 1 sts) ++ post).
Proof.
  intros Hws Ha Hwf Hk.
  unfold Checker.gradient_definitions, re_findall, tokens, Modifier.definitions_block.
  replace (ws ++ "<svg" ++ a ++ ">" ++ ("<defs>" ++ concat (step_defs 1 sts) ++ "</defs>") ++ post)
    with ((((ws ++ "<svg" ++ a) ++ ">") ++ ("<defs" ++ ">"))
          ++ concat (step_defs 1 sts) ++ "</defs>" ++ post)
    by (by rewrite <- ?app_assoc).
  rewrite scan_quiet_ids.
  2:{ apply quiet_ids_app; apply quiet_ids_closed.
      - intros Ho. apply occurs_skip in Ho; [|by apply (pred_not is_space)].
        apply (occurs_skip _ _ "<svg") in Ho; [done|not_in_literal].
      - apply contains_false. vm_compute. reflexivity. }
  destruct (scan_step_defs sts 1 k ("</defs>" ++ post)
              (last_prev None (((ws ++ "<svg" ++ a) ++ ">") ++ "<defs" ++ ">")) Hwf
              ltac:(lia)) as [w Hin].
  apply list_elem_of_omap. exists (THit (Hit w (Some (grad_id k)))).
  split; [|done]. apply elem_of_app. by right.
Qed.

(** ** Cutting an occurrence at a character it does not hold *)

Lemma cut_at (c : ascii) (w X Y a b : str) :
  c ∉ w -> a ++ w ++ b = X ++ c :: Y ->
  (exists b', X = a ++ w ++ b') \/ (exists a', Y = a' ++ w ++ b).
Proof.
  intros Hc E. apply app_eq_inv in E as [(k & -> & E)|(k & -> & E)].
  - destruct k as [|k0 k].
    + destruct w as [|c' w].
      * left. exists []. by rewrite !app_nil_r.
      * injection E as <- _. destruct Hc. left.
    + injection E as _ ->. right. by exists k.
  - apply app_eq_inv in E as [(k2 & -> & E)|(k2 & -> & E)].
    + destruct k2 as [|c2 k2].
      * left. exists []. by rewrite !app_nil_r.
      * injection E as <- _. destruct Hc. apply elem_of_app. right. left.
    + left. exists k2. by rewrite <- ?app_assoc.
Qed.

Lemma refs_upto_inserted N (P0 B0 post' : str) :
  refs_upto N (P0 ++ ">"%char :: post') ->
  ~ occurs "url(#" P0 -> "("%char ∉ B0 ->
  refs_upto N (P0 ++ ">"%char :: B0 ++ ">"%char :: post').
Proof.
  intros H HP HB x y E. symmetry in E.
  apply (cut_at ">") in E as [[b' E]|[a' E]]; [| |not_in_literal].
  { destruct HP. by exists x, b'. }
  symmetry in E. apply (cut_at ">") in E as [[b' E]|[a'' E]]; [| |not_in_literal].
  { destruct HB. rewrite E. apply elem_of_app. right.
    apply elem_of_app. left. by apply list_elem_of_In; vm_compute; auto. }
  apply (H (P0 ++ ">"%char :: a'') y). rewrite E. by rewrite <- ?app_assoc.
Qed.

(** ** The report on a patched document *)

Lemma patched_report_valid (spec : Specification) (ws a post : str) :
  Forall (fun st => gradient_wf (gradient st)) (steps spec) ->
  Forall (fun c => is_space c = true) ws -> ">"%char ∉ a ->
  ~ occurs FILLQ a -> ~ occurs IDEQ a ->
  ~ occurs "<defs>" (ws ++ "<svg" ++ a ++ ">" ++ post) ->
  ~ occurs "</defs>" (ws ++ "<svg" ++ a ++ ">" ++ post) ->
  ~ occurs "url(#" (ws ++ "<svg" ++ a ++ ">" ++ post) ->
  exists out,
    Modifier.apply_gradients (ws ++ "<svg" ++ a ++ ">" ++ post) spec = Some out
    /\ Checker.validate_svg out = {| valid := true; errors := [] |}.
Proof.
  intros Hwf Hws Ha Hfill Hid Hopen Hclose Hurl.
  assert (plain_colors spec) as Hplain.
  { unfold plain_colors. eapply Forall_impl; [exact Hwf|].
    intros st (_ & _ & Hs). eapply Forall_impl; [exact Hs|].
    intros stop. apply hex_color_no_bslash. }
  destruct (patched_document_parts spec ws a post Hplain Hws Ha Hfill Hopen Hclose)
    as (post' & _ & Hsteps & Hout & Hroot & Hdefs).
  set (N := length (steps spec)).
  destruct (apply_steps_refs N (steps spec) (ws ++ "<svg" ++ a ++ ">" ++ post) [] 1
              ltac:(lia) ltac:(unfold N; lia) (no_refs_upto N _ Hurl))
    as (t & frags & Et & Hrefs).
  rewrite Hsteps in Et. injection Et as <- _.
  eexists. split; [exact Hout|].
  set (out := ws ++ "<svg" ++ a ++ ">"
              ++ Modifier.definitions_block (step_defs 1 (steps spec)) ++ post') in *.
  assert (refs_upto N out) as Hrefs'.
  { replace out with ((ws ++ "<svg" ++ a) ++ ">"%char
                      :: ("<defs>" ++ concat (step_defs 1 (steps spec)) ++ "</defs")
                         ++ ">"%char :: post')
      by (unfold out, Modifier.definitions_block; by rewrite <- ?app_assoc).
    apply refs_upto_inserted.
    - replace ((ws ++ "<svg" ++ a) ++ ">"%char :: post')
        with (ws ++ "<svg" ++ a ++ ">" ++ post') by (by rewrite <- ?app_assoc).
      exact Hrefs.
    - intros Ho. apply Hurl.
      replace (ws ++ "<svg" ++ a ++ ">" ++ post)
        with ((ws ++ "<svg" ++ a) ++ ">" ++ post) by (by rewrite <- ?app_assoc).
      by apply occurs_app_r.
    - pose proof (step_defs_no_paren (steps spec) 1 Hwf). notin. }
  assert (Checker.reference_issues out = []) as Hnone.
  { apply elem_of_nil_inv. intros e He.
    apply reference_issues_spec in He as (r & _ & Hr & Hnot).
    apply gradient_references_occur in Hr as (Hocc & _ & Hparen).
    destruct (refs_upto_reference N out r Hrefs' Hocc Hparen) as (k & Hk & ->).
    apply Hnot. by apply definitions_found. }
  unfold Checker.validate_svg. by rewrite Hroot, Hdefs, Hnone.
Qed.

(** X18: the pipeline on a clean document.  For every instruction, when
    the document begins with its root tag, that tag holds neither [fill=Q]
    nor [id=Q], and the document holds no [<defs>], no [</defs>] and no
    [url(#], then parsing, patching and validating succeed and the report
    is valid and lists no error: every reference the patcher writes is to
    a gradient it defines, and the validator finds each definition. *)
Theorem pipeline_report_valid (instruction ws a post : str) :
  Forall (fun c => is_space c = true) ws -> ">"%char ∉ a ->
  ~ occurs FILLQ a -> ~ occurs IDEQ a ->
  ~ occurs "<defs>" (ws ++ "<svg" ++ a ++ ">" ++ post) ->
  ~ occurs "</defs>" (ws ++ "<svg" ++ a ++ ">" ++ post) ->
  ~ occurs "url(#" (ws ++ "<svg" ++ a ++ ">" ++ post) ->
  exists out report,
    process instruction (ws ++ "<svg" ++ a ++ ">" ++ post) = Some (out, report)
    /\ valid report = true /\ errors report = [].
Proof.
  intros Hws Ha Hfill Hid Hopen Hclose Hurl.
  destruct (parsed_gradients_aux instruction) as (spec & E & Hwf).
  destruct (patched_report_valid spec ws a post Hwf Hws Ha Hfill Hid Hopen Hclose Hurl)
    as (out & Hout & Hreport).
  exists out, (Checker.validate_svg out). unfold process.
  rewrite E. cbn [mbind option_bind]. rewrite Hout. cbn [mbind option_bind].
  by rewrite Hreport.
Qed.

Lemma pipeline_report_valid_witness :
  exists out report,
    process "make the hero red to blue" ([] ++ "<svg" ++ [] ++ ">" ++ hero_rest)
    = Some (out, report)
    /\ valid report = true /\ errors report = [].
Proof.
  apply (pipeline_report_valid "make the hero red to blue" [] [] hero_rest).
  - constructor.
  - apply not_elem_of_nil.
  - apply contains_false. vm_compute. reflexivity.
  - apply contains_false. vm_compute. reflexivity.
  - apply contains_false. vm_compute. reflexivity.
  - apply contains_false. vm_compute. reflexivity.
  - apply contains_false. vm_compute. reflexivity.
Defined.

(** X19: on its own document [INPUT_SVG], [main] with the standard
    parser never takes the failure branch of lines 399-402: whatever line
    the user enters, the empty one included, the three phases succeed and
    the report is valid and lists no error. *)
Theorem main_report_valid (instruction : str) :
  exists out report,
    main_report instruction = Some (out, report)
    /\ valid report = true /\ errors report = [].
Proof.
  unfold main_report.
  set (line := match instruction with [] => example_instruction | _ => instruction end).
  destruct (parsed_gradients_aux line) as (spec & E & Hwf).
  set (a := " width=" ++ quoted "300" ++ " height=" ++ quoted "300"
            ++ " xmlns=" ++ quoted "http://www.w3.org/2000/svg").
  set (post := drop (length ("<svg" ++ a ++ ">")) INPUT_SVG).
  assert (INPUT_SVG = [] ++ "<svg" ++ a ++ ">" ++ post) as Hdoc
    by (vm_compute; reflexivity).
  destruct (patched_report_valid spec [] a post Hwf) as (out & Hout & Hreport).
  - constructor.
  - not_in_literal.
  - apply contains_false. vm_compute. reflexivity.
  - apply contains_false. vm_compute. reflexivity.
  - rewrite <- Hdoc. apply contains_false. vm_compute. reflexivity.
  - rewrite <- Hdoc. apply contains_false. vm_compute. reflexivity.
  - rewrite <- Hdoc. apply contains_false. vm_compute. reflexivity.
  - exists out, (Checker.validate_svg out). unfold process.
    rewrite E. cbn [mbind option_bind]. rewrite Hdoc, Hout. cbn [mbind option_bind].
    by rewrite Hreport.
Qed.
